(** * Batch Asset Replacer (ae-scripts/batch-asset-replacer.jsx)

    A shallow embedding of the script's CSV reader, comp-tree discovery,
    bottom-up ordering, duplication engine and replacement loop, with the
    properties of the written specification stated over it.

    Conventions of the model.
    - A JavaScript string is a [string]: a sequence of code units, kept to
      the units below 256.
    - A JavaScript object used as a dictionary ([row], [processed],
      [dupeMap], [allDupes], [masterCompNames]) is a [gmap string _] or a
      [gset string] of its own properties.  What a key that was never
      assigned reads as, and the order in which [for]-[in] visits the
      keys, belong to the script engine and are taken from an [Engine].
      A row is only ever read under a header or a reserved column, and
      [allDupes] under the name of a master comp.
    - A run returns, raises or nests for ever: [Returns] and [Raises]
      carry the project as the run leaves it, [None] stands for a
      recursion that never ends.
    - The After Effects project is a list of comps; a comp is identified
      by its position in that list, which never changes because the script
      only ever adds items.  Folders are kept as paths in [parentFolder];
      footage items are kept as the file a layer points at. *)

From Stdlib Require Import Ascii.
From stdpp Require Import base option list strings gmap.

Local Open Scope char_scope.

(** ** Characters and strings *)

Definition dquote : ascii := "034".
Definition comma : ascii := ",".
Definition LF : ascii := "010".
Definition CR : ascii := "013".

(** [current += ch] *)
Definition push_char (s : string) (ch : ascii) : string :=
  s +:+ String ch EmptyString.

(** The class [\s] of the script's regular expressions, on code units
    below 256: TAB, LF, VT, FF, CR, SPACE and NBSP. *)
Definition is_space (c : ascii) : bool :=
  match c with
  | "009" | "010" | "011" | "012" | "013" | " " | "160" => true
  | _ => false
  end.

(** [str.replace(/^\s+|\s+$/g, "")] *)
Fixpoint skip_spaces (l : list ascii) : list ascii :=
  match l with
  | c :: r => if is_space c then skip_spaces r else l
  | [] => []
  end.

Definition trim_chars (l : list ascii) : list ascii :=
  reverse (skip_spaces (reverse (skip_spaces l))).

Definition trim (str : string) : string :=
  String.string_of_list_ascii (trim_chars (String.list_ascii_of_string str)).

(** [String.prototype.toLowerCase], code unit by code unit: the letters
    A-Z and the upper-case letters of Latin-1 (192-222 without 215). *)
Definition lower_char (c : ascii) : ascii :=
  let n := nat_of_ascii c in
  if ((65 <=? n) && (n <=? 90))%nat then ascii_of_nat (n + 32)
  else if ((192 <=? n) && (n <=? 222) && negb (n =? 215))%nat then ascii_of_nat (n + 32)
  else c.

Fixpoint toLowerCase (s : string) : string :=
  match s with
  | EmptyString => EmptyString
  | String c r => String (lower_char c) (toLowerCase r)
  end.

Local Close Scope char_scope.

(** ** Configuration *)

Module CONFIG.
Definition reservedColumns : list string := ["comp_name"; "layer_name"; "type"].
Definition outputFolderName : string := "Localized_Versions".
Definition precompFolderName : string := "_PRECOMPS".
End CONFIG.

(** ** The script engine

    What the script takes from the engine it runs in and that cannot be
    read off its text.  An object literal [{}] inherits the members of
    [Object.prototype]: a key that was never assigned still reads as
    such a member, which is a function or an object and so truthy, when
    it is the name of one ([constructor], [toString], [hasOwnProperty]
    and the like).  The order in which [for (key in o)] visits the keys
    of [o] is the engine's as well.  An assignment [o[key] = v] makes
    [key] a property of [o] itself, one that [for]-[in] visits, as the
    language has it. *)
Class Engine := {
  (** [({})[key]] is a member of [Object.prototype] *)
  inherited : string → bool;
  (** the order in which [for]-[in] visits keys first assigned in the
      given order *)
  forIn : list string → list string;
  (** the script calls [hasOwnProperty] on its objects *)
  inherited_hasOwnProperty : inherited "hasOwnProperty" = true;
  forIn_Permutation : ∀ keys, forIn keys ≡ₚ keys
}.

(** ** CSV parsing *)

(** The [for] loop of [parseCSVLine], as a recursion over the characters
    still to read; a doubled quote inside quotes consumes two of them. *)
Fixpoint parseCSVLine_loop (line : string) (current : string)
    (inQuotes : bool) (result : list string) : list string :=
  match line with
  | EmptyString => result ++ [current]
  | String ch rest =>
      if bool_decide (ch = dquote) then
        match rest with
        | String ch' rest' =>
            if inQuotes && bool_decide (ch' = dquote)
            then parseCSVLine_loop rest' (push_char current dquote) inQuotes result
            else parseCSVLine_loop rest current (negb inQuotes) result
        | EmptyString => parseCSVLine_loop rest current (negb inQuotes) result
        end
      else if bool_decide (ch = comma) && negb inQuotes then
        parseCSVLine_loop rest EmptyString inQuotes (result ++ [current])
      else parseCSVLine_loop rest (push_char current ch) inQuotes result
  end.

Definition parseCSVLine (line : string) : list string :=
  parseCSVLine_loop line "" false [].

(** [csvString.split(/\r?\n/)]: a line ends at LF or at CR LF; a CR on
    its own is an ordinary character. *)
Fixpoint split_lines_loop (s : string) (current : string) : list string :=
  match s with
  | EmptyString => [current]
  | String ch rest =>
      if bool_decide (ch = LF) then current :: split_lines_loop rest ""
      else if bool_decide (ch = CR) then
        match rest with
        | String ch' rest' =>
            if bool_decide (ch' = LF) then current :: split_lines_loop rest' ""
            else split_lines_loop rest (push_char current ch)
        | EmptyString => split_lines_loop rest (push_char current ch)
        end
      else split_lines_loop rest (push_char current ch)
  end.

Definition split_lines (csvString : string) : list string :=
  split_lines_loop csvString "".

(** A data row: the script's [row] object, keyed by header. *)
Abbreviation Row := (gmap string string).

(** [for j: row[headers[j]] = (j < values.length) ? trim(values[j]) : ""];
    a header that occurs twice keeps the value of its last column. *)
Fixpoint fill_row (headers values : list string) (row : Row) : Row :=
  match headers with
  | [] => row
  | h :: hs =>
      match values with
      | v :: vs => fill_row hs vs (<[h := trim v]> row)
      | [] => fill_row hs [] (<[h := ""]> row)
      end
  end.

Record Manifest := { headers : list string; rows : list Row }.

(** The body of the row loop of [parseCSV]. *)
Fixpoint parseCSV_rows (headers : list string) (lines : list string) : list Row :=
  match lines with
  | [] => []
  | l :: ls =>
      let line := trim l in
      if bool_decide (line = "") then parseCSV_rows headers ls
      else fill_row headers (parseCSVLine line) ∅ :: parseCSV_rows headers ls
  end.

Definition parseCSV (csvString : string) : Manifest :=
  let lines := split_lines csvString in
  let headers := trim <$> parseCSVLine (default "" (head lines)) in
  {| headers := headers; rows := parseCSV_rows headers (tail lines) |}.

(** [detectLanguages]: a header is a language unless its lower-case form
    is a reserved column or the header is empty. *)
Definition isReserved (h : string) : bool :=
  bool_decide (toLowerCase h ∈ CONFIG.reservedColumns).

Fixpoint detectLanguages (headers : list string) : list string :=
  match headers with
  | [] => []
  | h :: hs =>
      if negb (isReserved h) && negb (bool_decide (h = ""))
      then h :: detectLanguages hs
      else detectLanguages hs
  end.

(** ** The host document

    What the script sees of an After Effects project.  A layer carries its
    own name (the spec's named Reference or Leaf); its source, when it has
    one, is a comp of the project or a footage file. *)

Inductive Source :=
| CompSource (comp : nat)
| FootageSource (file : string).

Inductive Layer :=
| TextLayer (name : string) (text : string)
| AVLayer (name : string) (source : Source)
| PlainLayer (name : string).

Definition layer_name (l : Layer) : string :=
  match l with
  | TextLayer n _ | AVLayer n _ | PlainLayer n => n
  end.

(** [layer.source]; a text, shape, camera or light layer has none. *)
Definition layer_source (l : Layer) : option Source :=
  match l with
  | AVLayer _ s => Some s
  | _ => None
  end.

(** [layer.source && layer.source instanceof CompItem] *)
Definition sub_comp (l : Layer) : option nat :=
  match layer_source l with
  | Some (CompSource c) => Some c
  | _ => None
  end.

Record CompItem := {
  name : string;
  parentFolder : list string;
  layers : list Layer
}.

Abbreviation Project := (list CompItem).

Definition comp_layers (st : Project) (comp : nat) : list Layer :=
  from_option layers [] (st !! comp).

Definition comp_name (st : Project) (comp : nat) : string :=
  from_option name "" (st !! comp).

(** ** Deep layer search *)

(** A value read from a row: [None] is JavaScript's [undefined]. *)
Abbreviation JsString := (option string).

(** A layer of a comp, named by the comp and the position in it. *)
Abbreviation Found := (option (nat * nat)).

(** The second loop of [findLayerDeep]: the sub-comp layers in layer
    order, [search] being the recursive call. *)
Fixpoint descend (search : nat → option Found) (ls : list Layer) : option Found :=
  match ls with
  | [] => Some None
  | layer2 :: ls' =>
      match sub_comp layer2 with
      | Some sub =>
          match search sub with
          | None => None
          | Some (Some result) => Some (Some result)
          | Some None => descend search ls'
          end
      | None => descend search ls'
      end
  end.

(** The recursion of [findLayerDeep], cut at [depth] nested calls; the
    outer [None] is a search cut short. *)
Fixpoint findLayerDeep_at (depth : nat) (st : Project) (comp : nat)
    (layerName : JsString) : option Found :=
  match depth with
  | 0 => None
  | S depth' =>
      match list_find (λ l, Some (layer_name l) = layerName) (comp_layers st comp) with
      | Some (i, _) => Some (Some (comp, i))
      | None =>
          descend (λ sub, findLayerDeep_at depth' st sub layerName)
            (comp_layers st comp)
      end
  end.

(** [findLayerDeep].  A search that nests deeper than the project has
    comps has met some comp twice on one path and so would recurse for
    ever; that is the outer [None]. *)
Definition findLayerDeep (st : Project) (comp : nat) (layerName : JsString)
    : option Found :=
  findLayerDeep_at (length st) st comp layerName.

(** Acyclic nesting, checked against a rank: every comp has a rank below
    the number of comps, and every layer that holds a comp holds one of
    the project, of smaller rank than the comp the layer is in. *)
Definition ranked_comp (rank : nat → nat) (st : Project) (c : nat) (comp : CompItem) : bool :=
  (rank c <? length st)
  && forallb (λ l, match sub_comp l with
                   | Some d => (d <? length st) && (rank d <? rank c)
                   | None => true
                   end) (layers comp).

Definition ranked (rank : nat → nat) (st : Project) : bool :=
  forallb (λ ic, ranked_comp rank st ic.1 ic.2) (imap pair st).

(** Every layer that holds a comp holds a comp of the project. *)
Definition valid_sources (st : Project) : bool :=
  forallb (λ comp, forallb (λ l, match sub_comp l with
                                 | Some d => d <? length st
                                 | None => true
                                 end) (layers comp)) st.

(** [d] is the source of a layer of [c]. *)
Definition child (st : Project) (c d : nat) : Prop :=
  ∃ l, l ∈ comp_layers st c ∧ sub_comp l = Some d.

(** ** Comp tree discovery *)

(** The loop of [discoverAllSubComps] over the layers of one comp,
    [visit] being the recursive call. *)
Fixpoint scan (visit : nat → list nat → option (list nat)) (ls : list Layer)
    (collected : list nat) : option (list nat) :=
  match ls with
  | [] => Some collected
  | layer :: ls' =>
      match sub_comp layer with
      | Some subComp =>
          if bool_decide (subComp ∈ collected) then scan visit ls' collected
          else
            collected' ← visit subComp (collected ++ [subComp]);
            scan visit ls' collected'
      | None => scan visit ls' collected
      end
  end.

(** [discoverAllSubComps], cut at [depth] nested calls. *)
Fixpoint discoverAllSubComps_at (depth : nat) (st : Project) (comp : nat)
    (collected : list nat) : option (list nat) :=
  match depth with
  | 0 => None
  | S depth' => scan (discoverAllSubComps_at depth' st) (comp_layers st comp) collected
  end.

(** [discoverAllSubComps(comp)].  Every nested call has collected one
    more comp, so the nesting never exceeds the number of comps by more
    than one. *)
Definition discoverAllSubComps (st : Project) (comp : nat) : option (list nat) :=
  discoverAllSubComps_at (S (length st)) st comp [].

(** ** Duplication engine *)

(** How a call ends when it does end: it returns, or something it calls
    raises, which ends the script; either way the project is left as it
    then is. *)
Inductive Completion (A : Type) : Type :=
| Returns (a : A)
| Raises (st : Project).
Arguments Returns {A} a.
Arguments Raises {A} st.

(** [processed[name]], all own properties of [processed] having been set
    to [true]: truthy for an own key and for the name of a member that
    every object inherits. *)
Definition is_processed `{!Engine} (processed : gset string) (n : string) : bool :=
  inherited n || bool_decide (n ∈ processed).

(** Step 2 of [duplicateFullTree]: the inner test of one sub-comp. *)
Definition allChildrenDone `{!Engine} (st : Project) (allSubComps : list nat)
    (processed : gset string) (sc : nat) : bool :=
  forallb (λ l,
    match sub_comp l with
    | Some src =>
        negb (bool_decide (src ∈ allSubComps)
              && negb (is_processed processed (comp_name st src)))
    | None => true
    end) (comp_layers st sc).

(** One run of the [for] loop over [allSubComps]. *)
Fixpoint sort_pass `{!Engine} (st : Project) (allSubComps : list nat) (todo : list nat)
    (processed : gset string) (sortedComps : list nat) : gset string * list nat :=
  match todo with
  | [] => (processed, sortedComps)
  | sc :: todo' =>
      if is_processed processed (comp_name st sc)
      then sort_pass st allSubComps todo' processed sortedComps
      else if allChildrenDone st allSubComps processed sc
      then sort_pass st allSubComps todo'
             ({[comp_name st sc]} ∪ processed) (sortedComps ++ [sc])
      else sort_pass st allSubComps todo' processed sortedComps
  end.

(** The [while] loop; [budget] is [maxIterations - iterations]. *)
Fixpoint sort_while `{!Engine} (st : Project) (allSubComps : list nat) (budget : nat)
    (processed : gset string) (sortedComps : list nat) : list nat :=
  match budget with
  | 0 => sortedComps
  | S budget' =>
      if length sortedComps <? length allSubComps then
        let '(processed', sortedComps') :=
          sort_pass st allSubComps allSubComps processed sortedComps in
        sort_while st allSubComps budget' processed' sortedComps'
      else sortedComps
  end.

(** Step 2: the order in which the sub-comps are duplicated. *)
Definition topoSort `{!Engine} (st : Project) (allSubComps : list nat) : list nat :=
  sort_while st allSubComps (length allSubComps * length allSubComps + 1) ∅ [].

(** The relink test of one layer of a fresh duplicate:
    [if (src && src instanceof CompItem && dupeMap[src.name])
        layer.replaceSource(dupeMap[src.name], false)].
    Under a name that is not a key of its own but the name of a member
    every object inherits, the test reads that member; [replaceSource]
    is handed something that is no item and raises: that is [None]. *)
Definition relink `{!Engine} (st : Project) (dupeMap : gmap string nat) (l : Layer)
    : option Layer :=
  match l with
  | AVLayer n (CompSource src) =>
      match dupeMap !! comp_name st src with
      | Some dupe => Some (AVLayer n (CompSource dupe))
      | None => if inherited (comp_name st src) then None else Some l
      end
  | _ => Some l
  end.

(** The relink loop over the layers of a duplicate: the layers as the
    loop leaves them, and whether it was cut short by a raise. *)
Fixpoint relink_layers `{!Engine} (st : Project) (dupeMap : gmap string nat)
    (ls : list Layer) : list Layer * bool :=
  match ls with
  | [] => ([], false)
  | l :: ls' =>
      match relink st dupeMap l with
      | Some l' =>
          let '(ls'', raised) := relink_layers st dupeMap ls' in (l' :: ls'', raised)
      | None => (l :: ls', true)
      end
  end.

(** [original.duplicate()], the rename, the move, the entry in [dupeMap]
    and the relink loop.  The host appends the copy to the project; the
    copy has the layers of the original, pointing where the original's
    point, until the loop redirects them. *)
Definition duplicate_into `{!Engine} (st : Project) (original : nat) (langSuffix : string)
    (folder : list string) (dupeMap : gmap string nat)
    : Completion (Project * gmap string nat) :=
  let dupe := length st in
  let copy := {| name := comp_name st original +:+ "_" +:+ langSuffix;
                 parentFolder := folder;
                 layers := comp_layers st original |} in
  let st' := st ++ [copy] in
  let dupeMap' := <[comp_name st original := dupe]> dupeMap in
  let '(layers', raised) := relink_layers st' dupeMap' (layers copy) in
  let st'' := st ++ [{| name := name copy; parentFolder := folder; layers := layers' |}] in
  if raised then Raises st'' else Returns (st'', dupeMap').

(** Step 3: the sub-comps, in sorted order. *)
Fixpoint duplicate_sorted `{!Engine} (st : Project) (sortedComps : list nat)
    (langSuffix : string) (precompFolder : list string) (dupeMap : gmap string nat)
    : Completion (Project * gmap string nat) :=
  match sortedComps with
  | [] => Returns (st, dupeMap)
  | original :: rest =>
      match duplicate_into st original langSuffix precompFolder dupeMap with
      | Returns (st', dupeMap') =>
          duplicate_sorted st' rest langSuffix precompFolder dupeMap'
      | Raises st' => Raises st'
      end
  end.

(** Steps 3 to 5, given the order of step 2. *)
Definition replicate `{!Engine} (st : Project) (masterComp : nat) (sortedComps : list nat)
    (langSuffix : string) (langFolder precompFolder : list string)
    : Completion (Project * gmap string nat) :=
  match duplicate_sorted st sortedComps langSuffix precompFolder ∅ with
  | Returns (st', dupeMap) => duplicate_into st' masterComp langSuffix langFolder dupeMap
  | Raises st' => Raises st'
  end.

Definition duplicateFullTree `{!Engine} (st : Project) (masterComp : nat)
    (langSuffix : string) (langFolder precompFolder : list string)
    : option (Completion (Project * gmap string nat)) :=
  allSubComps ← discoverAllSubComps st masterComp;
  Some (replicate st masterComp (topoSort st allSubComps)
          langSuffix langFolder precompFolder).

(** ** Replacement *)

(** The part of the host the replacement functions consult: whether a
    path names an existing file, and whether the host imports it (a
    failed import raises, which [replaceFootage] catches). *)
Record Host := {
  fileExists : string → bool;
  importFile : string → bool
}.

(** [replaceText]: the new layer when the target is a text layer. *)
Definition replaceText (layer : Layer) (newText : string) : option Layer :=
  match layer with
  | TextLayer n _ => Some (TextLayer n newText)
  | _ => None
  end.

(** [replaceFootage]: the new layer when the file exists, the import
    succeeds and the layer takes a source. *)
Definition replaceFootage (host : Host) (layer : Layer) (filePath : string)
    : option Layer :=
  if negb (fileExists host filePath) then None
  else if negb (importFile host filePath) then None
  else match layer with
       | AVLayer n _ => Some (AVLayer n (FootageSource filePath))
       | _ => None
       end.

(** Writing a layer back into its comp. *)
Definition set_layer (st : Project) (comp i : nat) (l : Layer) : Project :=
  alter (λ c, {| name := name c; parentFolder := parentFolder c;
                 layers := <[i := l]> (layers c) |}) comp st.

(** ** Main *)

Record Stats := { success : nat; skipped : nat; errors : nat }.

(** The mutable state of the Execute phase. *)
Record Run := { project : Project; stats : Stats; errorLog : list string }.

(** [undefined] used as a property key or joined into a message. *)
Definition js_str (v : JsString) : string := default "undefined" v.

(** [if (errorLog.length < 20) errorLog.push(msg); stats.errors++] *)
Definition fail (r : Run) (msg : string) : Run :=
  {| project := project r;
     stats := {| success := success (stats r); skipped := skipped (stats r);
                 errors := S (errors (stats r)) |};
     errorLog := if length (errorLog r) <? 20 then errorLog r ++ [msg]
                 else errorLog r |}.

(** [stats.skipped++] *)
Definition skip (r : Run) : Run :=
  {| project := project r;
     stats := {| success := success (stats r); skipped := S (skipped (stats r));
                 errors := errors (stats r) |};
     errorLog := errorLog r |}.

(** The layer at [(comp, i)] replaced by [layer'], and [stats.success++]. *)
Definition succeed (r : Run) (comp i : nat) (layer' : Layer) : Run :=
  {| project := set_layer (project r) comp i layer';
     stats := {| success := S (success (stats r)); skipped := skipped (stats r);
                 errors := errors (stats r) |};
     errorLog := errorLog r |}.

(** [(row["type"] || "text").toLowerCase()] *)
Definition row_type (row : Row) : string :=
  toLowerCase (match row !! "type" with
               | Some t => if bool_decide (t = "") then "text" else t
               | None => "text"
               end).

Definition isFootageType (type : string) : bool :=
  bool_decide (type = "footage") || bool_decide (type = "image").

(** The three messages of the error log. *)
Definition msg_no_comp (lang compName : string) : string :=
  "[" +:+ lang +:+ "] Comp not found: '" +:+ compName +:+ "'".
Definition msg_no_layer (lang layerName : string) : string :=
  "[" +:+ lang +:+ "] Layer '" +:+ layerName +:+ "' not found in tree".
Definition msg_failed (lang layerName compName type : string) : string :=
  "[" +:+ lang +:+ "] Failed: '" +:+ layerName +:+ "' in '" +:+ compName
    +:+ "' (" +:+ type +:+ ")".

(** [if (type === "footage" || type === "image") ok = replaceFootage(...)
     else ok = replaceText(...)], then the count of the outcome. *)
Definition replace_layer (host : Host) (lang : string) (r : Run) (row : Row)
    (comp i : nat) (layer : Layer) (value : string) : Run :=
  let type := row_type row in
  let ok := if isFootageType type then replaceFootage host layer value
            else replaceText layer value in
  match ok with
  | Some layer' => succeed r comp i layer'
  | None =>
      fail r (msg_failed lang (js_str (row !! "layer_name"))
                (comp_name (project r) comp) type)
  end.

(** The body of the loop over [data.rows], for language [lang]. *)
Definition apply_row (host : Host) (lang : string) (allDupes : gmap string nat)
    (r : Run) (row : Row) : option Run :=
  let compName := row !! "comp_name" in
  let layerName := row !! "layer_name" in
  match row !! lang with
  | None | Some "" => Some (skip r)
  | Some value =>
      match allDupes !! js_str compName with
      | None => Some (fail r (msg_no_comp lang (js_str compName)))
      | Some dupeMaster =>
          found ← findLayerDeep (project r) dupeMaster layerName;
          match found with
          | None => Some (fail r (msg_no_layer lang (js_str layerName)))
          | Some (comp, i) =>
              let layer := default (PlainLayer "") (comp_layers (project r) comp !! i) in
              Some (replace_layer host lang r row comp i layer value)
          end
      end
  end.

Fixpoint apply_rows (host : Host) (lang : string) (allDupes : gmap string nat)
    (r : Run) (rows : list Row) : option Run :=
  match rows with
  | [] => Some r
  | row :: rows' =>
      r' ← apply_row host lang allDupes r row;
      apply_rows host lang allDupes r' rows'
  end.

(** [lang.toLowerCase().replace(/[^a-z0-9]/g, "_")] *)
Definition suffix_char (c : ascii) : ascii :=
  let n := nat_of_ascii (lower_char c) in
  if ((97 <=? n) && (n <=? 122) || (48 <=? n) && (n <=? 57))%nat
  then lower_char c else "_"%char.

Fixpoint langSuffix_of (lang : string) : string :=
  match lang with
  | EmptyString => EmptyString
  | String c r => String (suffix_char c) (langSuffix_of r)
  end.

(** [lang.toUpperCase().replace(/[^A-Z0-9\-]/g, "_")], code unit by code
    unit.  Upper-casing turns the sharp s (223) into the two units SS,
    which the replacement keeps; every other unit becomes one unit, which
    is among A-Z only when the unit is among a-z or A-Z. *)
Definition label_char (c : ascii) : ascii :=
  let n := nat_of_ascii c in
  if ((97 <=? n) && (n <=? 122))%nat then ascii_of_nat (n - 32)
  else if ((65 <=? n) && (n <=? 90) || (48 <=? n) && (n <=? 57) || (n =? 45))%nat
  then c else "_"%char.

Definition label_units (c : ascii) : string :=
  if (nat_of_ascii c =? 223)%nat then "SS" else String (label_char c) EmptyString.

Fixpoint langLabel_of (lang : string) : string :=
  match lang with
  | EmptyString => EmptyString
  | String c r => label_units c +:+ langLabel_of r
  end.

(** The loop over [masterList] that fills [allDupes] for one language:
    [duplicateFullTree], then
    [for (var key in dupeMap) if (dupeMap.hasOwnProperty(key)) allDupes[key] = dupeMap[key]].
    A map with a key [hasOwnProperty] of its own answers that call with
    a comp, and the call raises. *)
Fixpoint duplicate_masters `{!Engine} (st : Project) (masters : list nat)
    (langSuffix : string) (langFolder precompFolder : list string)
    (allDupes : gmap string nat) : option (Completion (Project * gmap string nat)) :=
  match masters with
  | [] => Some (Returns (st, allDupes))
  | mComp :: masters' =>
      c ← duplicateFullTree st mComp langSuffix langFolder precompFolder;
      match c with
      | Returns (st', dupeMap) =>
          if bool_decide ("hasOwnProperty" ∈ dom dupeMap) then Some (Raises st')
          else duplicate_masters st' masters' langSuffix langFolder precompFolder
                 (dupeMap ∪ allDupes)
      | Raises st' => Some (Raises st')
      end
  end.

Definition outputFolder : list string := [CONFIG.outputFolderName].
Definition precompFolder : list string :=
  [CONFIG.outputFolderName; CONFIG.precompFolderName].

(** The loop over [languages]. *)
Fixpoint run_languages `{!Engine} (host : Host) (masters : list nat) (rows : list Row)
    (r : Run) (languages : list string) : option (Completion Run) :=
  match languages with
  | [] => Some (Returns r)
  | lang :: languages' =>
      let langFolder := outputFolder ++ [langLabel_of lang] in
      c ← duplicate_masters (project r) masters (langSuffix_of lang)
            langFolder precompFolder ∅;
      match c with
      | Returns (st', allDupes) =>
          r' ← apply_rows host lang allDupes
                 {| project := st'; stats := stats r; errorLog := errorLog r |} rows;
          run_languages host masters rows r' languages'
      | Raises st' => Some (Raises st')
      end
  end.

(** [masterCompNames[data.rows[i]["comp_name"]] = true], row by row: the
    keys of [masterCompNames], in the order in which they were first
    assigned. *)
Fixpoint masterCompNames_from (rows : list Row) (seen : list string) : list string :=
  match rows with
  | [] => seen
  | row :: rows' =>
      let n := js_str (row !! "comp_name") in
      masterCompNames_from rows' (if bool_decide (n ∈ seen) then seen else seen ++ [n])
  end.

(** [for (var name in masterCompNames)
       if (masterCompNames.hasOwnProperty(name)) masterList.push(name)].
    When some row names a comp [hasOwnProperty], the object answers the
    call with [true], which is no function, and the call raises: that is
    [None]. *)
Definition masterList `{!Engine} (rows : list Row) : option (list string) :=
  let masterCompNames := masterCompNames_from rows [] in
  if bool_decide ("hasOwnProperty" ∈ masterCompNames) then None
  else Some (forIn masterCompNames).

(** [findComp] *)
Definition findComp (st : Project) (n : string) : option nat :=
  fst <$> list_find (λ c, name c = n) st.

(** "Validate and discover": the comps of [masterList], or the first name
    that has no comp. *)
Fixpoint find_masters (st : Project) (masterList : list string)
    : option (string + list nat) :=
  match masterList with
  | [] => Some (inr [])
  | n :: ns =>
      match findComp st n with
      | None => Some (inl n)
      | Some comp =>
          _ ← discoverAllSubComps st comp;
          rest ← find_masters st ns;
          Some (match rest with
                | inl missing => inl missing
                | inr comps => inr (comp :: comps)
                end)
      end
  end.

(** "Pre-check layer names": one search per row in the original trees; its
    findings only feed the confirmation text. *)
Fixpoint layerCheck (st : Project) (rows : list Row) : option (list string) :=
  match rows with
  | [] => Some []
  | checkRow :: rows' =>
      let n := js_str (checkRow !! "comp_name") in
      found ← findLayerDeep st (default 0 (findComp st n)) (checkRow !! "layer_name");
      rest ← layerCheck st rows';
      Some (match found with
            | Some _ => rest
            | None => ("'" +:+ js_str (checkRow !! "layer_name") +:+ "' not found in '"
                         +:+ n +:+ "' tree") :: rest
            end)
  end.

(** What the closing dialog shows. *)
Record Summary := {
  sum_languages : nat;
  sum_successful : nat;
  sum_skipped : nat;
  sum_errors : nat;
  sum_details : list string;
  sum_more : option nat
}.

Definition summary (languages : list string) (r : Run) : Summary :=
  {| sum_languages := length languages;
     sum_successful := success (stats r);
     sum_skipped := skipped (stats r);
     sum_errors := errors (stats r);
     sum_details := errorLog r;
     sum_more := if (0 <? length (errorLog r)) && (length (errorLog r) <? errors (stats r))
                 then Some (errors (stats r) - length (errorLog r)) else None |}.

(** How a run ends. *)
Inductive Outcome :=
| NoLanguageColumns
| CompNotFound (n : string)
| Cancelled
| Complete (s : Summary).

(** [main], from the text of the chosen CSV file on; [confirm] is the
    user's answer to the confirmation dialog.  A run that returns pairs
    the project as it leaves it with the way it ended; [None] is a run
    that nests for ever. *)
Definition main_script `{!Engine} (host : Host) (st : Project) (csvContent : string)
    (confirm : bool) : option (Completion (Project * Outcome)) :=
  let data := parseCSV csvContent in
  let languages := detectLanguages (headers data) in
  if bool_decide (languages = []) then Some (Returns (st, NoLanguageColumns))
  else
    match masterList (rows data) with
    | None => Some (Raises st)
    | Some masterList =>
        found ← find_masters st masterList;
        match found with
        | inl missing => Some (Returns (st, CompNotFound missing))
        | inr masters =>
            _ ← layerCheck st (rows data);
            if negb confirm then Some (Returns (st, Cancelled))
            else
              c ← run_languages host masters (rows data)
                    {| project := st;
                       stats := {| success := 0; skipped := 0; errors := 0 |};
                       errorLog := [] |} languages;
              Some (match c with
                    | Returns r => Returns (project r, Complete (summary languages r))
                    | Raises st' => Raises st'
                    end)
        end
    end.

(** [main] as the user sees it return: the project it leaves and the way
    it ended.  [None] is a run that does not return: it raises, or nests
    for ever. *)
Definition main `{!Engine} (host : Host) (st : Project) (csvContent : string)
    (confirm : bool) : option (Project * Outcome) :=
  c ← main_script host st csvContent confirm;
  match c with
  | Returns result => Some result
  | Raises _ => None
  end.

(** ** Standard CSV quoting, as the specification words it *)

(** Every quote character of the field is doubled. *)
Fixpoint escape_quotes (field : string) : string :=
  match field with
  | EmptyString => EmptyString
  | String c r =>
      if bool_decide (c = dquote) then String dquote (String dquote (escape_quotes r))
      else String c (escape_quotes r)
  end.

(** The field between quotes. *)
Definition quoteField (field : string) : string :=
  String dquote (escape_quotes field +:+ String dquote EmptyString).

(** Quoted fields joined by the delimiter. *)
Fixpoint quoted_line (fields : list string) : string :=
  match fields with
  | [] => EmptyString
  | [f] => quoteField f
  | f :: fs => quoteField f +:+ String comma (quoted_line fs)
  end.

Fixpoint has_char (c : ascii) (s : string) : bool :=
  match s with
  | EmptyString => false
  | String c' r => bool_decide (c' = c) || has_char c r
  end.

(** A cell of a line: quoted, or written as it is. *)
Definition render_cell (cell : bool * string) : string :=
  if cell.1 then quoteField cell.2 else cell.2.

(** Cells joined by the delimiter. *)
Fixpoint mixed_line (cells : list (bool * string)) : string :=
  match cells with
  | [] => EmptyString
  | [cell] => render_cell cell
  | cell :: cells' => render_cell cell +:+ String comma (mixed_line cells')
  end.

(** A cell that is not quoted holds neither a quote nor a delimiter. *)
Definition cell_ok (cell : bool * string) : Prop :=
  cell.1 = false → has_char dquote cell.2 = false ∧ has_char comma cell.2 = false.

(** ** The vocabulary of the properties *)

(** Where a closing quote may stand: at the end of the line or before a
    character that is not a quote. *)
Definition after_field (rest : string) : Prop :=
  match rest with
  | EmptyString => True
  | String c _ => c ≠ dquote
  end.

(** The log holds the first twenty failures. *)
Definition log_capped (r : Run) : Prop :=
  length (errorLog r) = errors (stats r) `min` 20.

(** Row-language pairs handled so far. *)
Definition handled (r : Run) : nat :=
  success (stats r) + skipped (stats r) + errors (stats r).

(** What a row with a value asks to be written, and where: the layer
    found in the copy of its comp, as the replacement the type of the row
    selects leaves it.  [None] is a substitution failure: no copy of the
    comp, no layer of the name in its tree, or a replacement that is
    refused. *)
Definition substitution (host : Host) (allDupes : gmap string nat) (st : Project)
    (row : Row) (value : string) : option (nat * nat * Layer) :=
  dupeMaster ← allDupes !! js_str (row !! "comp_name");
  found ← mjoin (findLayerDeep st dupeMaster (row !! "layer_name"));
  layer ← comp_layers st found.1 !! found.2;
  layer' ← (if bool_decide (toLowerCase (default "text" (row !! "type")) ∈ ["footage"; "image"])
            then replaceFootage host layer value else replaceText layer value);
  Some (found.1, found.2, layer').

(** The project as a run leaves it, whether it returns or raises. *)
Definition project_left (c : Completion (Project * Outcome)) : Project :=
  match c with
  | Returns (st', _) => st'
  | Raises st' => st'
  end.

(** A collected list: no comp twice, comps of the project only. *)
Definition tidy (st : Project) (collected : list nat) : Prop :=
  NoDup collected ∧ ∀ x, x ∈ collected → x < length st.

(** What a visit of [comp] that starts from [collected] ends with: the
    old list, extended; tidy; holding every sub-comp of [comp] and every
    sub-comp of each comp it added. *)
Definition discovered (st : Project) (ls : list Layer) (collected collected' : list nat) : Prop :=
  collected `prefix_of` collected'
  ∧ tidy st collected'
  ∧ (∀ l d, l ∈ ls → sub_comp l = Some d → d ∈ collected')
  ∧ (∀ x d, x ∈ collected' → x ∉ collected → child st x d → d ∈ collected').

(** The state of the sort between two steps: [sortedComps] holds comps
    of [allSubComps] under pairwise different names, none of them the
    name of an inherited member; the keys of [processed] are exactly
    these names; and each comp of [sortedComps] stands behind the name
    of each of its sub-comps that is in [allSubComps], unless that name
    is the name of an inherited member. *)
Record sort_inv `{!Engine} (st : Project) (allSubComps : list nat)
    (processed : gset string) (sortedComps : list nat) : Prop := {
  inv_sub : ∀ x, x ∈ sortedComps → x ∈ allSubComps;
  inv_names : NoDup (comp_name st <$> sortedComps);
  inv_processed : ∀ n, n ∈ processed ↔ n ∈ comp_name st <$> sortedComps;
  inv_own : ∀ x, x ∈ sortedComps → inherited (comp_name st x) = false;
  inv_order : ∀ i x d, sortedComps !! i = Some x → child st x d → d ∈ allSubComps →
                inherited (comp_name st d) = true
                ∨ comp_name st d ∈ comp_name st <$> take i sortedComps
}.

(** Every layer of the comp that holds a comp holds one numbered from
    [lo] up to, but not including, [hi]. *)
Definition links_within (lo hi : nat) (comp : CompItem) : Prop :=
  ∀ l v, l ∈ layers comp → sub_comp l = Some v → lo ≤ v < hi.

(** The entries of a [dupeMap] are comps numbered from [lo] to [hi]. *)
Definition entries_within (lo hi : nat) (dupeMap : gmap string nat) : Prop :=
  ∀ key v, dupeMap !! key = Some v → lo ≤ v < hi.

(** The comps the run began with are still there, untouched, followed by
    copies; every layer points into the project, and the layers of the
    copies point at copies. *)
Record grown (st0 st : Project) : Prop := {
  grown_prefix : st0 `prefix_of` st;
  grown_valid : ∀ c d, child st c d → d < length st;
  grown_closed : ∀ c d, length st0 ≤ c → child st c d → length st0 ≤ d
}.

(** The project during a run that will end: [grown], and acyclic. *)
Definition settled (st0 st : Project) : Prop :=
  grown st0 st ∧ ∃ rank', ranked rank' st = true.

(** The layer as [replaceSource] leaves it when the map has an entry
    under the name of its sub-comp; any other layer as it is. *)
Definition redirected (st : Project) (dupeMap : gmap string nat) (l : Layer) : Layer :=
  match l with
  | AVLayer n (CompSource src) =>
      match dupeMap !! comp_name st src with
      | Some dupe => AVLayer n (CompSource dupe)
      | None => l
      end
  | _ => l
  end.

(** The copy of [c] the engine is meant to make, [dupeMap] being the
    map at the end of the pass. *)
Definition copy_of (st : Project) (langSuffix : string)
    (dupeMap : gmap string nat) (folder : list string) (c : nat)
    : CompItem :=
  {| name := comp_name st c +:+ "_" +:+ langSuffix;
     parentFolder := folder;
     layers := redirected st dupeMap <$> comp_layers st c |}.

(** What the specification asks of a layer [l'] of a copy, [l] being the
    layer of the original at the same place: a layer that holds a comp
    now holds the copy of that comp, under the same layer name; any other
    layer is as it was. *)
Definition relinked (st : Project) (dupeMap : gmap string nat) (l l' : Layer) : Prop :=
  match sub_comp l with
  | Some s => ∃ ds, dupeMap !! comp_name st s = Some ds
                    ∧ l' = AVLayer (layer_name l) (CompSource ds)
  | None => l' = l
  end.

(** What the specification asks of a duplication pass over the tree of
    [masterComp]: every comp of the tree has a copy in the map, a new comp
    under the suffixed name, in the language folder for the master and in
    the precomp folder for the others, whose layers are those of the
    original, [relinked]; no layer of a copy points into the tree. *)
Definition fully_relinked (st : Project) (masterComp : nat) (allSubComps : list nat)
    (langSuffix : string) (langFolder precompFolder : list string)
    (st' : Project) (dupeMap : gmap string nat) : Prop :=
  ∀ c, c ∈ masterComp :: allSubComps →
    ∃ d copy,
      dupeMap !! comp_name st c = Some d
      ∧ length st ≤ d
      ∧ st' !! d = Some copy
      ∧ name copy = comp_name st c +:+ "_" +:+ langSuffix
      ∧ parentFolder copy = (if decide (c = masterComp) then langFolder else precompFolder)
      ∧ Forall2 (relinked st dupeMap) (comp_layers st c) (layers copy)
      ∧ ∀ l' v, l' ∈ layers copy → sub_comp l' = Some v → v ∉ masterComp :: allSubComps.

(** ** Example engines, projects and manifests *)

(** The members of [Object.prototype] in the third edition of
    ECMAScript, with keys visited in the order of their assignment. *)
Definition Object_prototype : list string :=
  ["constructor"; "toString"; "toLocaleString"; "valueOf"; "hasOwnProperty";
   "isPrototypeOf"; "propertyIsEnumerable"].

Definition es3 : Engine :=
  {| inherited := λ n, bool_decide (n ∈ Object_prototype);
     forIn := λ keys, keys;
     inherited_hasOwnProperty := eq_refl;
     forIn_Permutation := λ keys, Permutation_refl keys |}.

(** The same members, with keys visited last assigned first. *)
Definition es3_backwards : Engine :=
  {| inherited := λ n, bool_decide (n ∈ Object_prototype);
     forIn := reverse;
     inherited_hasOwnProperty := eq_refl;
     forIn_Permutation := reverse_Permutation |}.

Definition any_file : Host := {| fileExists := λ _, true; importFile := λ _, true |}.

(** A one-column manifest whose only data line is a quoted field. *)
Definition one_field_manifest (field : string) : string :=
  "text" +:+ String LF (quoteField field).

(** The project of the specification's scenario: two sub-comps that both
    hold a text layer "Headline". *)
Definition two_headlines : Project :=
  [ {| name := "Main"; parentFolder := [];
       layers := [TextLayer "Title" "T"; AVLayer "first" (CompSource 1);
                  AVLayer "second" (CompSource 2)] |};
    {| name := "SubA"; parentFolder := []; layers := [TextLayer "Headline" "A"] |};
    {| name := "SubB"; parentFolder := []; layers := [TextLayer "Headline" "B"] |} ].

(** A master comp over a chain and a shared sub-comp. *)
Definition nested : Project :=
  [ {| name := "Main"; parentFolder := [];
       layers := [AVLayer "a" (CompSource 1); AVLayer "c" (CompSource 3);
                  TextLayer "Title" "T"] |};
    {| name := "A"; parentFolder := [];
       layers := [AVLayer "b" (CompSource 2); AVLayer "c" (CompSource 3)] |};
    {| name := "B"; parentFolder := [];
       layers := [AVLayer "c" (CompSource 3); TextLayer "Headline" "Hello"] |};
    {| name := "C"; parentFolder := []; layers := [TextLayer "Caption" "Hi"] |} ].

Definition nested_rank (c : nat) : nat := 3 - c.

(** A master over two comps that hold each other. *)
Definition mutual : Project :=
  [ {| name := "Main"; parentFolder := []; layers := [AVLayer "a" (CompSource 1)] |};
    {| name := "A"; parentFolder := []; layers := [AVLayer "b" (CompSource 2)] |};
    {| name := "B"; parentFolder := []; layers := [AVLayer "a" (CompSource 1)] |} ].

(** Two sub-comps of one name under one master. *)
Definition namesakes : Project :=
  [ {| name := "Main"; parentFolder := [];
       layers := [AVLayer "left" (CompSource 1); AVLayer "right" (CompSource 2)] |};
    {| name := "Card"; parentFolder := []; layers := [TextLayer "Headline" "A"] |};
    {| name := "Card"; parentFolder := []; layers := [TextLayer "Headline" "B"] |} ].

(** A master over a sub-comp that is called like a member every object
    inherits. *)
Definition shadowed : Project :=
  [ {| name := "Main"; parentFolder := []; layers := [AVLayer "a" (CompSource 1)] |};
    {| name := "constructor"; parentFolder := [];
       layers := [TextLayer "Headline" "Hello"] |} ].

(** A master over two comps that hold each other, the first with a text
    layer. *)
Definition mutual_text : Project :=
  [ {| name := "Main"; parentFolder := []; layers := [AVLayer "a" (CompSource 1)] |};
    {| name := "A"; parentFolder := [];
       layers := [TextLayer "Headline" "Hello"; AVLayer "b" (CompSource 2)] |};
    {| name := "B"; parentFolder := []; layers := [AVLayer "a" (CompSource 1)] |} ].

(** A master over two comps that hold each other, the second called
    like a member every object inherits. *)
Definition mutual_shadowed : Project :=
  [ {| name := "Main"; parentFolder := []; layers := [AVLayer "a" (CompSource 1)] |};
    {| name := "X"; parentFolder := []; layers := [AVLayer "b" (CompSource 2)] |};
    {| name := "constructor"; parentFolder := [];
       layers := [AVLayer "a" (CompSource 1)] |} ].

(** A master over two sub-comps, the second alone with a headline. *)
Definition headline_in_second : Project :=
  [ {| name := "Main"; parentFolder := [];
       layers := [TextLayer "Title" "T"; AVLayer "first" (CompSource 1);
                  AVLayer "second" (CompSource 2)] |};
    {| name := "SubA"; parentFolder := []; layers := [TextLayer "Caption" "A"] |};
    {| name := "SubB"; parentFolder := []; layers := [TextLayer "Headline" "B"] |} ].

(** A comp with a logo, which is footage. *)
Definition with_logo : Project :=
  [ {| name := "Main"; parentFolder := [];
       layers := [AVLayer "Logo" (FootageSource "old.png")] |} ].

(** The manifest of the specification's scenario, for the tree [nested]. *)
Definition hello_manifest : string :=
  "comp_name,layer_name,type,en,fr" +:+ String LF "Main,Headline,text,Hi,".

(** Eleven rows that name a layer the tree does not have, two languages. *)
Fixpoint repeat_line (n : nat) (line : string) : string :=
  match n with
  | 0 => ""
  | S n' => String LF line +:+ repeat_line n' line
  end.

Definition misses_manifest : string :=
  "comp_name,layer_name,type,en,fr" +:+ repeat_line 11 "Main,Nowhere,text,a,b".

(** ** More vocabulary: manifests *)

(** Fields joined by the delimiter, as they are. *)
Fixpoint plain_line (fields : list string) : string :=
  match fields with
  | [] => EmptyString
  | [f] => f
  | f :: fs => f +:+ String comma (plain_line fs)
  end.

(** How often the character stands in the string. *)
Fixpoint count_char (c : ascii) (s : string) : nat :=
  match s with
  | EmptyString => 0
  | String c' r => (if bool_decide (c' = c) then 1 else 0) + count_char c r
  end.

(** The list does not begin with white space. *)
Definition no_leading_space (l : list ascii) : Prop :=
  match l with
  | [] => True
  | c :: _ => is_space c = false
  end.

(** The string neither begins nor ends with white space. *)
Definition no_outer_space (s : string) : Prop :=
  no_leading_space (String.list_ascii_of_string s)
  ∧ no_leading_space (reverse (String.list_ascii_of_string s)).

(** A character of a language suffix: a-z, 0-9 or the underscore. *)
Definition suffix_safe (c : ascii) : bool :=
  let n := nat_of_ascii c in
  ((97 <=? n) && (n <=? 122) || (48 <=? n) && (n <=? 57) || (n =? 95))%nat.

Fixpoint all_chars (p : ascii → bool) (s : string) : bool :=
  match s with
  | EmptyString => true
  | String c r => p c && all_chars p r
  end.

(** Lines joined by line feeds. *)
Fixpoint join_lines (lines : list string) : string :=
  match lines with
  | [] => EmptyString
  | [l] => l
  | l :: ls => l +:+ String LF (join_lines ls)
  end.

(** ** More vocabulary: projects *)

(** The map names comps made since the project had [lo] comps, each
    under the name of its key, suffixed. *)
Definition named_copies (lo : nat) (langSuffix : string) (st : Project)
    (dupeMap : gmap string nat) : Prop :=
  ∀ key d, dupeMap !! key = Some d →
    lo ≤ d < length st ∧ comp_name st d = key +:+ "_" +:+ langSuffix.

(** [totalNewComps] of the confirmation dialog, "Will create N comps
    total": for every master comp, itself and its sub-comps, once per
    language. *)
Fixpoint totalNewComps_from (st : Project) (masters : list nat) (nLanguages : nat)
    (total : nat) : option nat :=
  match masters with
  | [] => Some total
  | m :: masters' =>
      subComps ← discoverAllSubComps st m;
      totalNewComps_from st masters' nLanguages
        (total + (1 + length subComps) * nLanguages)
  end.

Definition totalNewComps (st : Project) (masters : list nat) (nLanguages : nat)
    : option nat :=
  totalNewComps_from st masters nLanguages 0.

(** Two projects with the same comps, layer by layer, up to what the
    layers hold: same names, same sub-comps. *)
Definition same_shape (st1 st2 : Project) : Prop :=
  length st1 = length st2
  ∧ ∀ c, Forall2 (λ a b, layer_name a = layer_name b ∧ sub_comp a = sub_comp b)
           (comp_layers st1 c) (comp_layers st2 c).

(** The copy of [x] as it is filed: named after [x] with the suffix, put
    in [folder], with layers named as those of [x], in their order. *)
Definition filed (st : Project) (langSuffix : string) (folder : list string)
    (x : nat) (copy : CompItem) : Prop :=
  name copy = comp_name st x +:+ "_" +:+ langSuffix
  ∧ parentFolder copy = folder
  ∧ layer_name <$> layers copy = layer_name <$> comp_layers st x.

(** A character kept in a folder label: A-Z, 0-9, the hyphen or the
    underscore. *)
Definition label_safe (c : ascii) : bool :=
  let n := nat_of_ascii c in
  ((65 <=? n) && (n <=? 90) || (48 <=? n) && (n <=? 57) || (n =? 45) || (n =? 95))%nat.

(** ** Folders

    The folders of the project panel, by number; a folder is in the
    folder [folder_parent], [None] being the root folder. *)
Record FolderItem := { folder_name : string; folder_parent : option nat }.

(** [findOrCreateFolder(name, parent)]: the first folder of that name in
    [parent || app.project.rootFolder], or a new one, made in the root
    and then moved under [parent]. *)
Definition findOrCreateFolder (folders : list FolderItem) (n : string)
    (parent : option nat) : list FolderItem * nat :=
  match list_find (λ f, folder_parent f = parent ∧ folder_name f = n) folders with
  | Some (i, _) => (folders, i)
  | None => (folders ++ [{| folder_name := n; folder_parent := parent |}], length folders)
  end.

(** The place among the copies that answers to a place among the
    originals: the same layer position, in the copy of the comp. *)
Definition copied_place (st : Project) (dupeMap : gmap string nat) (found : Found)
    : Found :=
  '(c, i) ← found; (λ cc, (cc, i)) <$> dupeMap !! comp_name st c.

(** * Properties *)

(** ** Strings *)

Lemma app_String (c : ascii) (s t : string) : String c s +:+ t = String c (s +:+ t).
Proof. reflexivity. Qed.

Lemma app_empty_l (s : string) : "" +:+ s = s.
Proof. reflexivity. Qed.

Lemma app_empty_r (s : string) : s +:+ "" = s.
Proof. induction s as [|c s IH]; [done|]. by rewrite app_String, IH. Qed.

Lemma app_assoc_str (s t u : string) : (s +:+ t) +:+ u = s +:+ (t +:+ u).
Proof. induction s as [|c s IH]; [done|]. by rewrite !app_String, IH. Qed.

Lemma push_char_app (s : string) (c : ascii) (t : string) :
  push_char s c +:+ t = s +:+ String c t.
Proof. unfold push_char. by rewrite app_assoc_str. Qed.

(** ** CSV *)

Lemma loop_inside_quotes (field rest current : string) (result : list string) :
after_field rest →
parseCSVLine_loop (escape_quotes field +:+ String dquote rest) current true result
= parseCSVLine_loop rest (current +:+ field) false result.
Proof.
intros Hrest. revert current.
induction field as [|c field IH]; intros current.
- rewrite app_empty_r. cbn [escape_quotes]. rewrite app_empty_l.
  cbn [parseCSVLine_loop]. rewrite bool_decide_eq_true_2 by done.
  destruct rest as [|c' rest']; [done|].
  cbn in Hrest. by rewrite bool_decide_eq_false_2.
- cbn [escape_quotes]. case_bool_decide as Hc.
  + subst c. rewrite !app_String. cbn [parseCSVLine_loop].
    rewrite !bool_decide_eq_true_2 by done. cbn [andb].
    rewrite IH. by rewrite push_char_app.
  + rewrite app_String. cbn [parseCSVLine_loop].
    rewrite (bool_decide_eq_false_2 (c = dquote)) by done.
    cbn [negb andb]. rewrite andb_false_r.
    rewrite IH. by rewrite push_char_app.
Qed.

Lemma loop_quoted_field (field rest : string) (result : list string) :
after_field rest →
parseCSVLine_loop (quoteField field +:+ rest) "" false result
= parseCSVLine_loop rest field false result.
Proof.
intros Hrest. unfold quoteField.
rewrite app_String, app_assoc_str, app_String, app_empty_l.
cbn [parseCSVLine_loop]. rewrite bool_decide_eq_true_2 by done.
assert (∀ s, parseCSVLine_loop s "" (negb false) result
           = parseCSVLine_loop s "" true result) as Hneg by done.
destruct (escape_quotes field +:+ String dquote rest) as [|c' r'] eqn:Heq.
{ destruct (escape_quotes field); discriminate. }
cbn [andb]. rewrite <- Heq, Hneg, loop_inside_quotes by done. done.
Qed.

Lemma loop_quoted_line (fields : list string) (result : list string) :
fields ≠ [] →
parseCSVLine_loop (quoted_line fields) "" false result = result ++ fields.
Proof.
revert result. induction fields as [|f fs IH]; intros result Hne; [done|].
destruct fs as [|f' fs].
- cbn [quoted_line]. rewrite <- (app_empty_r (quoteField f)).
  by rewrite loop_quoted_field.
- change (quoted_line (f :: f' :: fs))
    with (quoteField f +:+ String comma (quoted_line (f' :: fs))).
  rewrite loop_quoted_field by (cbn; discriminate).
  cbn [parseCSVLine_loop]. rewrite bool_decide_eq_false_2 by discriminate.
  rewrite bool_decide_eq_true_2 by done. cbn [negb andb].
  rewrite IH by done. by rewrite <- app_assoc.
Qed.

Lemma split_lines_loop_no_LF (s current : string) :
  has_char LF s = false → split_lines_loop s current = [current +:+ s].
Proof.
  revert current. induction s as [|c s IH]; intros current Hs.
  - by rewrite app_empty_r.
  - cbn [has_char] in Hs. apply orb_false_iff in Hs as [Hc Hs].
    cbn [split_lines_loop]. rewrite Hc.
    assert (split_lines_loop s (push_char current c) = [current +:+ String c s]) as Hpush.
    { rewrite IH by done. by rewrite push_char_app. }
    destruct (bool_decide (c = CR)); [|exact Hpush].
    destruct s as [|c' s']; [done|].
    cbn [has_char] in Hs. apply orb_false_iff in Hs as [Hc' _].
    by rewrite Hc'.
Qed.

Lemma has_char_app (c : ascii) (s t : string) :
  has_char c (s +:+ t) = has_char c s || has_char c t.
Proof.
  induction s as [|c' s IH]; [done|].
  rewrite app_String. cbn [has_char]. by rewrite IH, orb_assoc.
Qed.

Lemma has_char_LF_escape (s : string) :
  has_char LF (escape_quotes s) = has_char LF s.
Proof.
  induction s as [|c s IH]; [done|].
  cbn [escape_quotes]. case_bool_decide as Hc; cbn [has_char]; rewrite IH; [|done].
  subst c. done.
Qed.

Lemma has_char_LF_quoteField (s : string) :
  has_char LF (quoteField s) = has_char LF s.
Proof.
  unfold quoteField. cbn [has_char].
  rewrite has_char_app, has_char_LF_escape. cbn [has_char].
  rewrite (bool_decide_eq_false_2 (dquote = LF)) by discriminate.
  by rewrite !orb_false_r.
Qed.

Lemma list_ascii_of_string_app (s t : string) :
  String.list_ascii_of_string (s +:+ t)
  = String.list_ascii_of_string s ++ String.list_ascii_of_string t.
Proof. induction s as [|c s IH]; [done|]. rewrite app_String. cbn. by rewrite IH. Qed.

Lemma skip_spaces_keeps (c : ascii) (l : list ascii) :
  is_space c = false → skip_spaces (c :: l) = c :: l.
Proof. intros Hc. cbn. by rewrite Hc. Qed.

(** [trim] leaves a string alone that begins and ends with a character
    that is not white space. *)
Lemma trim_solid (c c' : ascii) (s : string) :
  is_space c = false → is_space c' = false →
  trim (String c (s +:+ String c' "")) = String c (s +:+ String c' "").
Proof.
  intros Hc Hc'. unfold trim, trim_chars.
  cbn [String.list_ascii_of_string]. rewrite skip_spaces_keeps by done.
  rewrite list_ascii_of_string_app. cbn [String.list_ascii_of_string].
  rewrite reverse_cons, reverse_app. cbn [reverse app].
  change (reverse [c']) with [c']. cbn [app].
  rewrite skip_spaces_keeps by done.
  rewrite reverse_cons, reverse_app, reverse_involutive. cbn [reverse].
  change (reverse [c]) with [c]. cbn [app].
  rewrite <- (String.string_of_list_ascii_of_string (String c (s +:+ String c' ""))).
  cbn [String.list_ascii_of_string]. by rewrite list_ascii_of_string_app.
Qed.

Lemma trim_quoteField (field : string) : trim (quoteField field) = quoteField field.
Proof. unfold quoteField. by apply trim_solid. Qed.

Lemma parseCSV_one_field (field : string) :
  has_char LF field = false →
  parseCSV (one_field_manifest field)
  = {| headers := ["text"]; rows := [ {[ "text" := trim field ]} ] |}.
Proof.
  intros Hf. unfold parseCSV, one_field_manifest, split_lines.
  assert (split_lines_loop ("text" +:+ String LF (quoteField field)) ""
          = ["text"; quoteField field]) as ->.
  { change ("text" +:+ String LF (quoteField field))
      with (String "t" (String "e" (String "x" (String "t" (String LF (quoteField field)))))).
    cbn [split_lines_loop].
    rewrite !(bool_decide_eq_false_2 (_ = LF)) by discriminate.
    rewrite !(bool_decide_eq_false_2 (_ = CR)) by discriminate.
    rewrite bool_decide_eq_true_2 by done.
    rewrite split_lines_loop_no_LF by by rewrite has_char_LF_quoteField.
    done. }
  cbn [head tail default parseCSV_rows].
  rewrite trim_quoteField.
  rewrite (bool_decide_eq_false_2 (quoteField field = "")) by discriminate.
  change (quoteField field) with (quoted_line [field]).
  assert (parseCSVLine (quoted_line [field]) = [field]) as ->.
  { unfold parseCSVLine. by rewrite loop_quoted_line. }
  assert (trim <$> parseCSVLine (id "text") = ["text"]) as -> by reflexivity.
  cbn [fill_row]. by rewrite insert_empty.
Qed.

(** ** Reading a line *)

Lemma loop_plain_field (field rest current : string) (result : list string) :
  has_char dquote field = false → has_char comma field = false →
  parseCSVLine_loop (field +:+ rest) current false result
  = parseCSVLine_loop rest (current +:+ field) false result.
Proof.
  revert current. induction field as [|c field IH]; intros current Hq Hc.
  { by rewrite app_empty_l, app_empty_r. }
  cbn [has_char] in Hq, Hc.
  apply orb_false_iff in Hq as [Hq Hq']. apply orb_false_iff in Hc as [Hc Hc'].
  rewrite app_String. cbn [parseCSVLine_loop]. rewrite Hq, Hc. cbn [andb].
  rewrite IH by done. by rewrite push_char_app.
Qed.

Lemma loop_plain_line (fields : list string) (result : list string) :
  fields ≠ [] →
  Forall (λ f, has_char dquote f = false ∧ has_char comma f = false) fields →
  parseCSVLine_loop (plain_line fields) "" false result = result ++ fields.
Proof.
  revert result. induction fields as [|f fs IH]; intros result Hne Hall; [done|].
  apply Forall_cons in Hall as [[Hq Hc] Hall].
  destruct fs as [|f' fs].
  - cbn [plain_line]. rewrite <- (app_empty_r f) at 1.
    by rewrite loop_plain_field.
  - change (plain_line (f :: f' :: fs)) with (f +:+ String comma (plain_line (f' :: fs))).
    rewrite loop_plain_field by done.
    cbn [parseCSVLine_loop]. rewrite bool_decide_eq_false_2 by discriminate.
    rewrite bool_decide_eq_true_2 by done. cbn [negb andb].
    rewrite IH by done. by rewrite <- app_assoc.
Qed.

(** X1: fields that hold neither a quote nor a comma, joined by commas,
    are read back exactly as they were, empty fields included. *)
Theorem parseCSVLine_plain_fields (fields : list string) :
  fields ≠ [] →
  Forall (λ f, has_char dquote f = false ∧ has_char comma f = false) fields →
  parseCSVLine (plain_line fields) = fields.
Proof. intros Hne Hall. unfold parseCSVLine. by rewrite loop_plain_line. Qed.

Lemma parseCSVLine_plain_fields_witness :
  parseCSVLine (plain_line ["Main_Comp"; "Headline"; ""; " Welcome "])
  = ["Main_Comp"; "Headline"; ""; " Welcome "].
Proof.
  apply parseCSVLine_plain_fields; [discriminate|].
  repeat constructor.
Defined.

Lemma loop_length_bounds (n : nat) :
  ∀ line current inQuotes result,
    String.length line ≤ n →
    length result + 1 ≤ length (parseCSVLine_loop line current inQuotes result)
    ∧ length (parseCSVLine_loop line current inQuotes result)
      ≤ length result + 1 + count_char comma line.
Proof.
  induction n as [|n IH]; intros line current inQuotes result Hlen.
  { destruct line; [|cbn in Hlen; lia]. cbn. rewrite length_app. cbn. lia. }
  destruct line as [|ch rest]; [cbn; rewrite length_app; cbn; lia|].
  cbn [String.length] in Hlen. cbn [parseCSVLine_loop count_char].
  case_bool_decide as Hq.
  - subst ch. rewrite (bool_decide_eq_false_2 (dquote = comma)) by discriminate.
    assert (∀ q, length result + 1 ≤ length (parseCSVLine_loop rest current q result)
                 ∧ length (parseCSVLine_loop rest current q result)
                   ≤ length result + 1 + (0 + count_char comma rest)) as Hrest.
    { intros q. apply IH. lia. }
    destruct rest as [|ch' rest']; [apply Hrest|].
    destruct (inQuotes && bool_decide (ch' = dquote)) eqn:Hesc; [|apply Hrest].
    apply andb_true_iff in Hesc as [_ Hch']. apply bool_decide_eq_true in Hch'. subst ch'.
    cbn [count_char]. rewrite (bool_decide_eq_false_2 (dquote = comma)) by discriminate.
    apply IH. cbn [String.length] in Hlen. lia.
  - destruct (bool_decide (ch = comma) && negb inQuotes) eqn:Hsplit.
    + apply andb_true_iff in Hsplit as [Hc _]. rewrite Hc.
      destruct (IH rest "" inQuotes (result ++ [current])) as [H1 H2]; [lia|].
      rewrite length_app in H1, H2. cbn [length] in H1, H2. lia.
    + destruct (IH rest (push_char current ch) inQuotes result) as [H1 H2]; [lia|].
      destruct (bool_decide (ch = comma)); lia.
Qed.

Lemma loop_length_unquoted (line current : string) (result : list string) :
  has_char dquote line = false →
  length (parseCSVLine_loop line current false result)
  = length result + 1 + count_char comma line.
Proof.
  revert current result. induction line as [|ch rest IH]; intros current result Hq.
  { cbn. rewrite length_app. cbn. lia. }
  cbn [has_char] in Hq. apply orb_false_iff in Hq as [Hq Hq'].
  cbn [parseCSVLine_loop count_char]. rewrite Hq. cbv iota. cbn [negb].
  rewrite andb_true_r. destruct (bool_decide (ch = comma)).
  - rewrite IH by done. rewrite length_app. cbn [length]. lia.
  - rewrite IH by done. lia.
Qed.

(** X2: a line always yields at least one field and never more fields
    than it has commas, plus one; a line without quote characters yields
    exactly that many. *)
Theorem parseCSVLine_field_count (line : string) :
  1 ≤ length (parseCSVLine line)
  ∧ length (parseCSVLine line) ≤ 1 + count_char comma line
  ∧ (has_char dquote line = false →
     length (parseCSVLine line) = 1 + count_char comma line).
Proof.
  unfold parseCSVLine.
  destruct (loop_length_bounds (String.length line) line "" false []) as [H1 H2]; [done|].
  cbn [length] in H1, H2. split; [lia|]. split; [lia|].
  intros Hq. by rewrite loop_length_unquoted.
Qed.

Lemma parseCSVLine_field_count_witness :
  length (parseCSVLine "Main,Headline,text,Hi,") = 1 + count_char comma "Main,Headline,text,Hi,".
Proof.
  apply (proj2 (proj2 (parseCSVLine_field_count "Main,Headline,text,Hi,"))). reflexivity.
Defined.

(** ** Trimming *)

Lemma skip_spaces_no_leading (l : list ascii) : no_leading_space (skip_spaces l).
Proof.
  induction l as [|c l IH]; [done|]. cbn [skip_spaces].
  destruct (is_space c) eqn:Hc; [done|]. exact Hc.
Qed.

Lemma skip_spaces_id (l : list ascii) : no_leading_space l → skip_spaces l = l.
Proof. destruct l as [|c l]; [done|]. cbn. by intros ->. Qed.

Lemma skip_spaces_snoc (l : list ascii) (c : ascii) :
  is_space c = false → ∃ m, skip_spaces (l ++ [c]) = m ++ [c].
Proof.
  intros Hc. induction l as [|a l IH].
  - exists []. cbn. by rewrite Hc.
  - cbn [app skip_spaces]. destruct (is_space a); [done|]. by exists (a :: l).
Qed.

Lemma trim_chars_no_outer (l : list ascii) :
  no_leading_space (trim_chars l) ∧ no_leading_space (reverse (trim_chars l)).
Proof.
  unfold trim_chars. split.
  - pose proof (skip_spaces_no_leading l) as Hlead.
    destruct (skip_spaces l) as [|c A]; [done|]. cbn in Hlead.
    rewrite reverse_cons.
    destruct (skip_spaces_snoc (reverse A) c Hlead) as [m ->].
    by rewrite reverse_app.
  - rewrite reverse_involutive. apply skip_spaces_no_leading.
Qed.

Lemma trim_chars_fixed (l : list ascii) :
  no_leading_space l → no_leading_space (reverse l) → trim_chars l = l.
Proof.
  intros H1 H2. unfold trim_chars.
  by rewrite (skip_spaces_id l H1), (skip_spaces_id _ H2), reverse_involutive.
Qed.

Lemma list_of_trim (s : string) :
  String.list_ascii_of_string (trim s) = trim_chars (String.list_ascii_of_string s).
Proof. unfold trim. apply String.list_ascii_of_string_of_list_ascii. Qed.

(** X3: what [trim] returns neither begins nor ends with white space;
    trimming twice is trimming once; and a string that neither begins nor
    ends with white space is returned as it is, inner white space
    included. *)
Theorem trim_strips_outer_space (s : string) :
  no_outer_space (trim s)
  ∧ trim (trim s) = trim s
  ∧ (no_outer_space s → trim s = s).
Proof.
  assert (∀ t, no_outer_space t → trim t = t) as Hfixed.
  { intros t [H1 H2]. unfold trim. rewrite trim_chars_fixed by done.
    apply String.string_of_list_ascii_of_string. }
  assert (no_outer_space (trim s)) as Hout.
  { unfold no_outer_space. rewrite list_of_trim. apply trim_chars_no_outer. }
  split; [done|]. split; [by apply Hfixed|apply Hfixed].
Qed.

Lemma trim_strips_outer_space_witness :
  trim "Trade  Now" = "Trade  Now".
Proof.
  apply (proj2 (proj2 (trim_strips_outer_space "Trade  Now"))).
  split; reflexivity.
Defined.

(** ** Splitting into lines *)

Lemma has_char_push (c ch : ascii) (s : string) :
  has_char c (push_char s ch) = has_char c s || bool_decide (ch = c).
Proof. unfold push_char. rewrite has_char_app. cbn. by rewrite orb_false_r. Qed.

Lemma split_lines_loop_props (n : nat) :
  ∀ s current, String.length s ≤ n → has_char LF current = false →
    length (split_lines_loop s current) = 1 + count_char LF s
    ∧ Forall (λ l, has_char LF l = false) (split_lines_loop s current).
Proof.
  induction n as [|n IH]; intros s current Hlen Hcur.
  { destruct s; [|cbn in Hlen; lia]. cbn. split; [done|]. by apply Forall_singleton. }
  destruct s as [|ch rest]; [cbn; split; [done|by apply Forall_singleton]|].
  cbn [String.length] in Hlen. cbn [split_lines_loop count_char].
  destruct (bool_decide (ch = LF)) eqn:Hlf.
  { destruct (IH rest "" ltac:(lia) eq_refl) as [H1 H2].
    split; [cbn [length]; lia|by apply Forall_cons]. }
  assert (has_char LF (push_char current ch) = false) as Hpush.
  { by rewrite has_char_push, Hcur, Hlf. }
  destruct (bool_decide (ch = CR)) eqn:Hcr; [|apply IH; [lia|done]].
  destruct rest as [|ch' rest']; [apply IH; [lia|done]|].
  destruct (bool_decide (ch' = LF)) eqn:Hlf'.
  - cbn [count_char]. rewrite Hlf'. cbn [String.length] in Hlen.
    destruct (IH rest' "" ltac:(lia) eq_refl) as [H1 H2].
    split; [cbn [length]; lia|by apply Forall_cons].
  - apply IH; [lia|done].
Qed.

Lemma split_lines_loop_join (s current : string) :
  has_char CR s = false →
  join_lines (split_lines_loop s current) = current +:+ s.
Proof.
  revert current. induction s as [|ch rest IH]; intros current Hcr.
  { cbn. by rewrite app_empty_r. }
  cbn [has_char] in Hcr. apply orb_false_iff in Hcr as [Hch Hrest].
  cbn [split_lines_loop]. rewrite Hch.
  destruct (bool_decide (ch = LF)) eqn:Hlf.
  - apply bool_decide_eq_true in Hlf. subst ch.
    specialize (IH "" Hrest). rewrite app_empty_l in IH.
    destruct (split_lines_loop rest "") as [|l ls] eqn:Hsplit.
    { destruct rest; cbn in Hsplit; repeat case_match; done. }
    change (join_lines (current :: l :: ls))
      with (current +:+ String LF (join_lines (l :: ls))).
    by rewrite IH.
  - rewrite IH by done. by rewrite push_char_app.
Qed.

(** X4: the text is cut into one more line than it has line feeds, and
    no line holds a line feed; when the text holds no carriage return,
    joining the lines with line feeds gives the text back. *)
Theorem split_lines_cuts_at_line_feeds (csvString : string) :
  length (split_lines csvString) = 1 + count_char LF csvString
  ∧ Forall (λ l, has_char LF l = false) (split_lines csvString)
  ∧ (has_char CR csvString = false → join_lines (split_lines csvString) = csvString).
Proof.
  destruct (split_lines_loop_props (String.length csvString) csvString "") as [H1 H2];
    [done..|].
  split; [done|]. split; [done|]. intros Hcr. unfold split_lines.
  by rewrite split_lines_loop_join.
Qed.

Lemma split_lines_cuts_at_line_feeds_witness :
  join_lines (split_lines hello_manifest) = hello_manifest.
Proof.
  apply (proj2 (proj2 (split_lines_cuts_at_line_feeds hello_manifest))). reflexivity.
Defined.

(** ** Rows *)

Lemma fill_row_other (headers values : list string) (row : Row) (h : string) :
  h ∉ headers → fill_row headers values row !! h = row !! h.
Proof.
  revert values row. induction headers as [|h' hs IH]; intros values row Hh; [done|].
  apply not_elem_of_cons in Hh as [Hne Hh].
  cbn [fill_row]. destruct values as [|v vs]; rewrite IH by done;
    by rewrite lookup_insert_ne.
Qed.

Lemma fill_row_lookup (headers values : list string) (row : Row) (i : nat) (h : string) :
  NoDup headers → headers !! i = Some h →
  fill_row headers values row !! h = Some (from_option trim "" (values !! i)).
Proof.
  revert values row i. induction headers as [|h' hs IH]; intros values row i Hnd Hi; [done|].
  apply NoDup_cons in Hnd as [Hh' Hnd]. cbn [fill_row].
  destruct i as [|i].
  - cbn in Hi. simplify_eq.
    destruct values as [|v vs]; rewrite fill_row_other by done;
      by rewrite lookup_insert_eq.
  - cbn in Hi. destruct values as [|v vs]; by rewrite (IH _ _ i).
Qed.

Lemma fill_row_dom (headers values : list string) (row : Row) :
  dom (fill_row headers values row) = list_to_set headers ∪ dom row.
Proof.
  revert values row. induction headers as [|h hs IH]; intros values row.
  { cbn. by rewrite union_empty_l_L. }
  cbn [fill_row list_to_set].
  destruct values as [|v vs]; rewrite IH, dom_insert_L;
    apply set_eq; intros x; rewrite !elem_of_union; tauto.
Qed.

Lemma parseCSV_rows_elem (headers lines : list string) (row : Row) :
  row ∈ parseCSV_rows headers lines →
  ∃ l, l ∈ lines ∧ trim l ≠ "" ∧ row = fill_row headers (parseCSVLine (trim l)) ∅.
Proof.
  induction lines as [|l ls IH]; [by intros ?%elem_of_nil|].
  cbn [parseCSV_rows]. case_bool_decide as Hblank.
  - intros (l' & ? & ?)%IH. exists l'. split; [by right|done].
  - intros [->|Hrow]%elem_of_cons.
    + exists l. split; [left|done].
    + destruct (IH Hrow) as (l' & ? & ?). exists l'. split; [by right|done].
Qed.

(** X5: every row [parseCSV] returns comes from a line after the first
    that is not blank, and has the headers, no more and no fewer, as its
    keys; when no header occurs twice, the value under the i-th header is
    the trimmed i-th field of the line, or the empty string when the line
    has no i-th field. *)
Theorem parseCSV_row_shape (csvString : string) (row : Row) :
  row ∈ rows (parseCSV csvString) →
  dom row = list_to_set (headers (parseCSV csvString))
  ∧ ∃ line, line ∈ tail (split_lines csvString) ∧ trim line ≠ ""
      ∧ (NoDup (headers (parseCSV csvString)) →
         ∀ i h, headers (parseCSV csvString) !! i = Some h →
           row !! h = Some (from_option trim "" (parseCSVLine (trim line) !! i))).
Proof.
  unfold parseCSV. cbn [rows headers].
  intros (l & Hl & Hblank & ->)%parseCSV_rows_elem. split.
  - by rewrite fill_row_dom, dom_empty_L, union_empty_r_L.
  - exists l. split; [done|]. split; [done|]. intros Hnd i h Hi. by apply fill_row_lookup.
Qed.

Lemma parseCSV_row_shape_witness :
  let csv := "comp_name,layer_name,type,en,fr" +:+ String LF "Main,Headline, text " in
  let row := default ∅ (head (rows (parseCSV csv))) in
  dom row = list_to_set (headers (parseCSV csv))
  ∧ ∃ line, line ∈ tail (split_lines csv) ∧ trim line ≠ ""
      ∧ (NoDup (headers (parseCSV csv)) →
         ∀ i h, headers (parseCSV csv) !! i = Some h →
           row !! h = Some (from_option trim "" (parseCSVLine (trim line) !! i))).
Proof.
  intros csv row. apply parseCSV_row_shape.
  assert (rows (parseCSV csv) = [row]) as -> by (vm_compute; reflexivity). left.
Defined.

(** ** Quoted cells *)

Lemma trim_fixed (t : string) : no_outer_space t → trim t = t.
Proof.
  intros [H1 H2]. unfold trim. rewrite trim_chars_fixed by done.
  apply String.string_of_list_ascii_of_string.
Qed.

Lemma has_char_plain_line (c : ascii) (fields : list string) :
  c ≠ comma → Forall (λ f, has_char c f = false) fields →
  has_char c (plain_line fields) = false.
Proof.
  intros Hc. induction 1 as [|f fs Hf _ IH]; [done|].
  destruct fs as [|f' fs]; [done|].
  change (plain_line (f :: f' :: fs)) with (f +:+ String comma (plain_line (f' :: fs))).
  rewrite has_char_app, Hf. cbn [has_char orb]. rewrite IH.
  by rewrite bool_decide_eq_false_2, orb_false_r by done.
Qed.

Lemma has_char_LF_mixed_line (cells : list (bool * string)) :
  Forall (λ cell, has_char LF cell.2 = false) cells →
  has_char LF (mixed_line cells) = false.
Proof.
  assert (∀ cell, has_char LF cell.2 = false → has_char LF (render_cell cell) = false)
    as Hcell.
  { intros [[] f] Hf; [|done]. unfold render_cell. cbn [fst snd] in *.
    by rewrite has_char_LF_quoteField. }
  induction 1 as [|cell cells Hf _ IH]; [done|].
  destruct cells as [|cell' cells]; [by apply Hcell|].
  change (mixed_line (cell :: cell' :: cells))
    with (render_cell cell +:+ String comma (mixed_line (cell' :: cells))).
  rewrite has_char_app, Hcell by done. cbn [has_char orb]. rewrite IH.
  by rewrite bool_decide_eq_false_2, orb_false_r by done.
Qed.

Lemma loop_cell (cell : bool * string) (rest : string) (result : list string) :
  cell_ok cell → after_field rest →
  parseCSVLine_loop (render_cell cell +:+ rest) "" false result
  = parseCSVLine_loop rest cell.2 false result.
Proof.
  destruct cell as [[] f]; unfold render_cell, cell_ok; cbn [fst snd]; intros Hok Hrest.
  - by apply loop_quoted_field.
  - destruct (Hok eq_refl) as [Hq Hc]. by rewrite loop_plain_field.
Qed.

Lemma loop_mixed_line (cells : list (bool * string)) (result : list string) :
  cells ≠ [] → Forall cell_ok cells →
  parseCSVLine_loop (mixed_line cells) "" false result = result ++ (snd <$> cells).
Proof.
  revert result. induction cells as [|cell cells IH]; intros result Hne Hall; [done|].
  apply Forall_cons in Hall as [Hok Hall].
  destruct cells as [|cell' cells].
  - cbn [mixed_line]. rewrite <- (app_empty_r (render_cell cell)).
    by rewrite loop_cell.
  - change (mixed_line (cell :: cell' :: cells))
      with (render_cell cell +:+ String comma (mixed_line (cell' :: cells))).
    rewrite loop_cell by (done || cbn; discriminate).
    cbn [parseCSVLine_loop]. rewrite bool_decide_eq_false_2 by discriminate.
    rewrite bool_decide_eq_true_2 by done. cbn [negb andb].
    rewrite IH by done. by rewrite <- app_assoc.
Qed.

(** A line feed ends the line, whatever stands before it. *)
Lemma split_lines_loop_first (a b current : string) :
  has_char LF a = false → has_char CR a = false →
  split_lines_loop (a +:+ String LF b) current
  = (current +:+ a) :: split_lines_loop b "".
Proof.
  revert current. induction a as [|c a IH]; intros current Hlf Hcr.
  - rewrite app_empty_l, app_empty_r. cbn [split_lines_loop].
    by rewrite bool_decide_eq_true_2.
  - cbn [has_char] in Hlf, Hcr.
    apply orb_false_iff in Hlf as [Hc Hlf]. apply orb_false_iff in Hcr as [Hc' Hcr].
    rewrite app_String. cbn [split_lines_loop]. rewrite Hc, Hc'.
    rewrite IH by done. by rewrite push_char_app.
Qed.

(** C6 (as stated) fails: a quoted field with a comma, a line break and a
    doubled quote is split at the line break, because [parseCSV] cuts the
    text into lines before it looks at quotes. *)
Lemma quoted_line_break_splits_row :
  let field := "He said " +:+ String dquote ("hi" +:+ String dquote ("," +:+ String LF "bye")) in
  length (rows (parseCSV (one_field_manifest field))) = 2
  ∧ rows (parseCSV (one_field_manifest field)) ≠ [ {[ "text" := field ]} ].
Proof.
  intros field. split; [reflexivity|].
  intros H. apply (f_equal length) in H. vm_compute in H. discriminate.
Qed.

(** C6 (amended): on one physical line, cells are read back exactly,
    quoted cells whatever commas and quote characters they hold, with
    each doubled quote unescaped, also next to cells that are not quoted;
    a manifest of a header line and one such line yields one row, which
    has these cells under the headers; and a line feed always ends the
    line, whatever stands before it, an open quote included. *)
Theorem quoted_fields_parse_on_one_line (hs : list string) (cells : list (bool * string))
    (a b : string) :
  (cells ≠ [] → Forall cell_ok cells → parseCSVLine (mixed_line cells) = snd <$> cells)
  ∧ (hs ≠ [] → cells ≠ [] →
     Forall (λ h, has_char dquote h = false ∧ has_char comma h = false
                  ∧ has_char LF h = false ∧ has_char CR h = false) hs →
     Forall cell_ok cells → Forall (λ cell, has_char LF cell.2 = false) cells →
     no_outer_space (mixed_line cells) → mixed_line cells ≠ "" →
     parseCSV (plain_line hs +:+ String LF (mixed_line cells))
     = {| headers := trim <$> hs;
          rows := [fill_row (trim <$> hs) (snd <$> cells) ∅] |})
  ∧ (has_char LF a = false → has_char CR a = false →
     split_lines (a +:+ String LF b) = a :: split_lines b).
Proof.
  split; [|split].
  - intros Hne Hok. unfold parseCSVLine. by rewrite loop_mixed_line.
  - intros Hhs Hne Hplain Hok Hlf Houter Hline.
    unfold parseCSV, split_lines.
    rewrite split_lines_loop_first.
    + rewrite split_lines_loop_no_LF by by apply has_char_LF_mixed_line.
      rewrite !app_empty_l. cbn [head tail default parseCSV_rows].
      rewrite trim_fixed by done.
      rewrite bool_decide_eq_false_2 by done.
      unfold parseCSVLine. rewrite loop_mixed_line by done.
      change (id (plain_line hs)) with (plain_line hs).
      rewrite loop_plain_line; [done|done|].
      eapply Forall_impl; [exact Hplain|]. by intros h (? & ? & _).
    + apply has_char_plain_line; [discriminate|].
      eapply Forall_impl; [exact Hplain|]. by intros h (_ & _ & ? & _).
    + apply has_char_plain_line; [discriminate|].
      eapply Forall_impl; [exact Hplain|]. by intros h (_ & _ & _ & ?).
  - intros Hlf Hcr. unfold split_lines. by rewrite split_lines_loop_first.
Qed.

Lemma quoted_fields_parse_on_one_line_witness :
  let said := "He said " +:+ String dquote ("hi" +:+ String dquote ", twice") in
  let hs := ["comp_name"; "layer_name"; "type"; "en"] in
  let cells := [(false, "Main"); (false, "Headline"); (false, "text"); (true, said)] in
  let open := String dquote "He said" in
  parseCSVLine (mixed_line cells) = ["Main"; "Headline"; "text"; said]
  ∧ parseCSV (plain_line hs +:+ String LF (mixed_line cells))
    = {| headers := trim <$> hs;
         rows := [fill_row (trim <$> hs) (snd <$> cells) ∅] |}
  ∧ split_lines (open +:+ String LF "hi") = open :: split_lines "hi".
Proof.
  intros said hs cells open.
  destruct (quoted_fields_parse_on_one_line hs cells open "hi") as (H1 & H2 & H3).
  assert (Forall cell_ok cells) as Hok.
  { unfold cells. repeat first [apply Forall_nil_2 | apply Forall_cons_2];
      unfold cell_ok; cbn [fst snd]; intros H; first [discriminate H | by split]. }
  split; [|split].
  - apply H1; [discriminate|done].
  - apply H2; [discriminate|discriminate| |done| | |discriminate].
    + unfold hs. by repeat first [apply Forall_nil_2 | apply Forall_cons_2].
    + unfold cells. by repeat first [apply Forall_nil_2 | apply Forall_cons_2].
    + split; reflexivity.
  - apply H3; reflexivity.
Defined.

(** ** Language columns *)

Lemma detectLanguages_filter (hs : list string) :
  detectLanguages hs
  = filter (λ h, (toLowerCase h ∉ CONFIG.reservedColumns) ∧ h ≠ "") hs.
Proof.
  induction hs as [|h hs IH]; [done|].
  cbn [detectLanguages]. unfold isReserved. rewrite filter_cons.
  case_bool_decide as Hres; cbn [negb andb].
  - rewrite decide_False by tauto. done.
  - case_bool_decide as Hempty; cbn [negb].
    + rewrite decide_False by tauto. done.
    + rewrite decide_True by tauto. by rewrite IH.
Qed.

(** C7 (as stated) fails: an empty header is no reserved name, yet it is
    not returned. *)
Lemma detectLanguages_drops_empty_header :
  let hs := ["comp_name"; "layer_name"; "type"; "en"; ""] in
  detectLanguages hs = ["en"]
  ∧ filter (λ h, h ∉ CONFIG.reservedColumns) hs = ["en"; ""].
Proof. split; reflexivity. Qed.

(** ** Language suffixes *)

Lemma suffix_char_safe (c : ascii) : suffix_safe (suffix_char c) = true.
Proof. destruct c as [[] [] [] [] [] [] [] []]; reflexivity. Qed.

Lemma suffix_char_fixed (c : ascii) : suffix_char (suffix_char c) = suffix_char c.
Proof. destruct c as [[] [] [] [] [] [] [] []]; reflexivity. Qed.

(** X7: the suffix made from a language name has as many characters as
    the name, all of them among a-z, 0-9 and the underscore; a name that
    is already such a suffix is its own suffix. *)
Theorem langSuffix_is_safe (lang : string) :
  String.length (langSuffix_of lang) = String.length lang
  ∧ all_chars suffix_safe (langSuffix_of lang) = true
  ∧ langSuffix_of (langSuffix_of lang) = langSuffix_of lang.
Proof.
  induction lang as [|c lang (IH1 & IH2 & IH3)]; [done|].
  cbn [langSuffix_of String.length all_chars].
  rewrite IH1, IH2, IH3, suffix_char_safe, suffix_char_fixed. done.
Qed.

(** ** Language labels *)

Lemma label_units_safe (c : ascii) : all_chars label_safe (label_units c) = true.
Proof. destruct c as [[] [] [] [] [] [] [] []]; reflexivity. Qed.

Lemma label_units_fixed (c : ascii) :
  langLabel_of (label_units c) = label_units c.
Proof. destruct c as [[] [] [] [] [] [] [] []]; reflexivity. Qed.

Lemma suffix_label_units (c : ascii) :
  nat_of_ascii c ≠ 223 → langSuffix_of (label_units c) = String (suffix_char c) "".
Proof. destruct c as [[] [] [] [] [] [] [] []]; intros H; try reflexivity; by destruct H. Qed.

Lemma label_units_length (c : ascii) :
  String.length (label_units c) = if bool_decide (nat_of_ascii c = 223) then 2 else 1.
Proof. destruct c as [[] [] [] [] [] [] [] []]; reflexivity. Qed.

Lemma all_chars_app (p : ascii → bool) (s t : string) :
  all_chars p (s +:+ t) = all_chars p s && all_chars p t.
Proof.
  induction s as [|c s IH]; [done|]. rewrite app_String. cbn [all_chars].
  by rewrite IH, andb_assoc.
Qed.

Lemma langLabel_of_app (s t : string) :
  langLabel_of (s +:+ t) = langLabel_of s +:+ langLabel_of t.
Proof.
  induction s as [|c s IH]; [done|]. rewrite app_String. cbn [langLabel_of].
  by rewrite IH, app_assoc_str.
Qed.

Lemma langSuffix_of_app (s t : string) :
  langSuffix_of (s +:+ t) = langSuffix_of s +:+ langSuffix_of t.
Proof.
  induction s as [|c s IH]; [done|]. rewrite app_String. cbn [langSuffix_of].
  by rewrite IH.
Qed.

Lemma length_app_str (s t : string) :
  String.length (s +:+ t) = String.length s + String.length t.
Proof. induction s as [|c s IH]; [done|]. rewrite app_String. cbn. by rewrite IH. Qed.

(** X20: the folder label made from a language name holds only A-Z, 0-9,
    the hyphen and the underscore, and a label is its own label; it has
    one character per character of the name and one more per sharp s,
    which upper-cases to SS; and for a name without a sharp s the label
    fixes the suffix, so that two such languages filed in one folder get
    the same suffix on their comps. *)
Theorem langLabel_is_safe (lang : string) :
  all_chars label_safe (langLabel_of lang) = true
  ∧ langLabel_of (langLabel_of lang) = langLabel_of lang
  ∧ String.length (langLabel_of lang)
    = String.length lang + count_char (ascii_of_nat 223) lang
  ∧ (count_char (ascii_of_nat 223) lang = 0 →
     langSuffix_of (langLabel_of lang) = langSuffix_of lang).
Proof.
  induction lang as [|c lang (IH1 & IH2 & IH3 & IH4)]; [done|].
  cbn [langLabel_of langSuffix_of String.length count_char].
  split; [by rewrite all_chars_app, label_units_safe, IH1|].
  split; [by rewrite langLabel_of_app, label_units_fixed, IH2|].
  split.
  - rewrite length_app_str, label_units_length, IH3.
    destruct (decide (nat_of_ascii c = 223)) as [Hc|Hc].
    + rewrite bool_decide_eq_true_2 by done.
      rewrite bool_decide_eq_true_2; [lia|].
      by rewrite <- Hc, ascii_nat_embedding.
    + rewrite bool_decide_eq_false_2 by done.
      rewrite bool_decide_eq_false_2; [lia|].
      intros ->. apply Hc. reflexivity.
  - intros Hnone. case_bool_decide as Hc; [done|]. cbn in Hnone.
    rewrite langSuffix_of_app, IH4 by done. rewrite suffix_label_units; [done|].
    intros H223. apply Hc. by rewrite <- H223, ascii_nat_embedding.
Qed.

Lemma langLabel_is_safe_witness :
  langSuffix_of (langLabel_of "zh-TW") = langSuffix_of "zh-TW".
Proof.
  apply (proj2 (proj2 (proj2 (langLabel_is_safe "zh-TW")))). reflexivity.
Defined.

(** ** Acyclic projects *)

Lemma ranked_lookup (rank : nat → nat) (st : Project) (c : nat) (comp : CompItem) :
  ranked rank st = true → st !! c = Some comp →
  rank c < length st
  ∧ ∀ l d, l ∈ layers comp → sub_comp l = Some d → d < length st ∧ rank d < rank c.
Proof.
  unfold ranked. rewrite forallb_forall. intros Hall Hc.
  specialize (Hall (c, comp)). cbn in Hall.
  assert (ranked_comp rank st c comp = true) as Hcomp.
  { apply Hall. apply list_elem_of_In. apply list_elem_of_lookup.
    exists c. by rewrite list_lookup_imap, Hc. }
  unfold ranked_comp in Hcomp. apply andb_true_iff in Hcomp as [Hr Hls].
  split; [by apply Nat.ltb_lt|].
  intros l d Hl Hd. rewrite forallb_forall in Hls.
  specialize (Hls l (proj1 (list_elem_of_In _ _) Hl)). rewrite Hd in Hls.
  apply andb_true_iff in Hls as [H1 H2].
  split; by apply Nat.ltb_lt.
Qed.

Lemma ranked_child (rank : nat → nat) (st : Project) (c d : nat) (l : Layer) :
  ranked rank st = true → l ∈ comp_layers st c → sub_comp l = Some d →
  d < length st ∧ rank d < rank c.
Proof.
  intros Hr Hl Hd. unfold comp_layers in Hl.
  destruct (st !! c) as [comp|] eqn:Hc; cbn in Hl; [|by apply elem_of_nil in Hl].
  by eapply (ranked_lookup rank st c comp).
Qed.

Lemma ranked_rank_lt (rank : nat → nat) (st : Project) (c : nat) :
  ranked rank st = true → c < length st → rank c < length st.
Proof.
  intros Hr Hc. destruct (lookup_lt_is_Some_2 st c Hc) as [comp Hcomp].
  by apply (ranked_lookup rank st c comp).
Qed.

(** ** Deep layer search *)

Lemma descend_ext (f g : nat → option Found) (ls : list Layer) :
  (∀ l d, l ∈ ls → sub_comp l = Some d → f d = g d) →
  descend f ls = descend g ls.
Proof.
  induction ls as [|l ls IH]; intros Hfg; [done|].
  cbn [descend]. destruct (sub_comp l) as [d|] eqn:Hd.
  - rewrite (Hfg l d) by (done || left).
    rewrite IH; [done|]. intros l' d' Hl'. apply Hfg. by right.
  - apply IH. intros l' d' Hl'. apply Hfg. by right.
Qed.

Lemma descend_is_Some (f : nat → option Found) (ls : list Layer) :
  (∀ l d, l ∈ ls → sub_comp l = Some d → is_Some (f d)) →
  is_Some (descend f ls).
Proof.
  induction ls as [|l ls IH]; intros Hf; [by eexists|].
  cbn [descend]. destruct (sub_comp l) as [d|] eqn:Hd.
  - destruct (Hf l d) as [[r|] Hr]; [left|done|..]; rewrite Hr; [by eexists|].
    apply IH. intros l' d' Hl'. apply Hf. by right.
  - apply IH. intros l' d' Hl'. apply Hf. by right.
Qed.

(** With a rank at hand, a search that may nest as deep as the rank of
    its comp plus one ends, and nesting deeper changes nothing. *)
Lemma findLayerDeep_at_enough (rank : nat → nat) (st : Project) (n : JsString)
    (depth : nat) (comp : nat) :
  ranked rank st = true → rank comp < depth →
  is_Some (findLayerDeep_at depth st comp n)
  ∧ findLayerDeep_at (S depth) st comp n = findLayerDeep_at depth st comp n.
Proof.
  intros Hr. revert comp. induction depth as [|depth IH]; intros comp Hd; [lia|].
  split.
  - cbn [findLayerDeep_at]. destruct (list_find _ _) as [[i ?]|]; [by eexists|].
    apply descend_is_Some. intros l d Hl Hsub.
    destruct (ranked_child rank st comp d l Hr Hl Hsub) as [_ Hlt].
    apply IH. lia.
  - change (findLayerDeep_at (S (S depth)) st comp n)
      with (match list_find (λ l, Some (layer_name l) = n) (comp_layers st comp) with
            | Some (i, _) => Some (Some (comp, i))
            | None => descend (λ sub, findLayerDeep_at (S depth) st sub n)
                        (comp_layers st comp)
            end).
    cbn [findLayerDeep_at]. destruct (list_find _ _) as [[i ?]|]; [done|].
    apply descend_ext. intros l d Hl Hsub.
    destruct (ranked_child rank st comp d l Hr Hl Hsub) as [_ Hlt].
    apply IH. lia.
Qed.

Lemma findLayerDeep_at_stable (rank : nat → nat) (st : Project) (n : JsString)
    (depth depth' : nat) (comp : nat) :
  ranked rank st = true → rank comp < depth → depth ≤ depth' →
  findLayerDeep_at depth' st comp n = findLayerDeep_at depth st comp n.
Proof.
  intros Hr Hd Hle. induction Hle as [|depth' Hle IH]; [done|].
  rewrite <- IH. apply (findLayerDeep_at_enough rank); [done|lia].
Qed.

(** The search as one equation: the shallow pass over all layers of the
    comp, and only when it finds nothing the sub-comps in layer order. *)
Lemma findLayerDeep_unfold (rank : nat → nat) (st : Project) (comp : nat) (n : JsString) :
  ranked rank st = true → comp < length st →
  findLayerDeep st comp n
  = match list_find (λ l, Some (layer_name l) = n) (comp_layers st comp) with
    | Some (i, _) => Some (Some (comp, i))
    | None => descend (λ sub, findLayerDeep st sub n) (comp_layers st comp)
    end.
Proof.
  intros Hr Hc. unfold findLayerDeep.
  destruct (length st) as [|k] eqn:Hlen; [lia|].
  cbn [findLayerDeep_at]. destruct (list_find _ _) as [[i ?]|]; [done|].
  apply descend_ext. intros l d Hl Hsub.
  destruct (ranked_child rank st comp d l Hr Hl Hsub) as [Hd Hlt].
  pose proof (ranked_rank_lt rank st comp Hr) as Hrc. rewrite Hlen in Hrc.
  symmetry. apply (findLayerDeep_at_enough rank); [done|]. lia.
Qed.

Lemma findLayerDeep_is_Some (rank : nat → nat) (st : Project) (comp : nat) (n : JsString) :
  ranked rank st = true → comp < length st →
  is_Some (findLayerDeep st comp n).
Proof.
  intros Hr Hc. apply (findLayerDeep_at_enough rank); [done|].
  by apply ranked_rank_lt.
Qed.

Lemma descend_found (f : nat → option Found) (ls : list Layer) (r : nat * nat) :
  descend f ls = Some (Some r) →
  ∃ l d, l ∈ ls ∧ sub_comp l = Some d ∧ f d = Some (Some r).
Proof.
  induction ls as [|l ls IH]; intros H; [done|].
  cbn [descend] in H. destruct (sub_comp l) as [d|] eqn:Hd.
  - destruct (f d) as [[r'|]|] eqn:Hfd; [| |done].
    + exists l, d. split; [left|]. by simplify_eq.
    + destruct (IH H) as (l' & d' & ? & ? & ?). exists l', d'. split; [by right|done].
  - destruct (IH H) as (l' & d' & ? & ? & ?). exists l', d'. split; [by right|done].
Qed.

(** What is found carries the name that was asked for. *)
Lemma findLayerDeep_at_named (depth : nat) (st : Project) (comp : nat) (n : JsString)
    (c i : nat) :
  findLayerDeep_at depth st comp n = Some (Some (c, i)) →
  ∃ l, comp_layers st c !! i = Some l ∧ Some (layer_name l) = n.
Proof.
  revert comp. induction depth as [|depth IH]; intros comp H; [done|].
  cbn [findLayerDeep_at] in H.
  destruct (list_find _ _) as [[j l]|] eqn:Hfind.
  - simplify_eq. apply list_find_Some in Hfind as (Hl & Hn & _). by exists l.
  - apply descend_found in H as (l & d & _ & _ & H). by eapply IH.
Qed.

(** C5 (as stated) fails: the shallow pass does not look at what a layer
    is. A layer that holds a sub-comp and carries the name is returned
    before the text layer of that name inside the sub-comp. *)
Lemma findLayerDeep_returns_comp_layer :
  let st := [ {| name := "Main"; parentFolder := [];
                 layers := [AVLayer "Headline" (CompSource 1)] |};
              {| name := "Sub"; parentFolder := [];
                 layers := [TextLayer "Headline" "Hello"] |} ] in
  ∃ c i l, findLayerDeep st 0 (Some "Headline") = Some (Some (c, i))
           ∧ comp_layers st c !! i = Some l
           ∧ sub_comp l = Some 1.
Proof. intros st. by exists 0, 0, (AVLayer "Headline" (CompSource 1)). Qed.

(** The second loop, when every search it makes ends: the result of the
    first sub-comp, in layer order, whose search finds something. *)
Lemma descend_first (f : nat → option Found) (ls : list Layer) :
  (∀ l d, l ∈ ls → sub_comp l = Some d → is_Some (f d)) →
  descend f ls
  = match list_find (λ d, f d ≠ Some None) (omap sub_comp ls) with
    | Some (_, d) => f d
    | None => Some None
    end.
Proof.
  induction ls as [|l ls IH]; intros Hends; [done|].
  assert (descend f ls
          = match list_find (λ d, f d ≠ Some None) (omap sub_comp ls) with
            | Some (_, d) => f d
            | None => Some None
            end) as IH' by (apply IH; intros l' d' Hl'; apply Hends; by right).
  cbn [descend omap list_omap]. destruct (sub_comp l) as [d|] eqn:Hd; [|exact IH'].
  change (list_omap Layer nat sub_comp ls) with (omap sub_comp ls).
  cbn [list_find]. destruct (Hends l d) as [r Hr]; [left|done|].
  rewrite Hr. destruct r as [r|].
  - by rewrite decide_True, Hr.
  - rewrite decide_False by (by intros H; apply H). rewrite IH'.
    by destruct (list_find _ _) as [[j d']|].
Qed.

(** C5 (amended): in a project without cyclic nesting the search ends and
    is two-phase: first the layers of the root itself, in order, matching
    any layer of that name, whatever it holds; only when none matches, the
    sub-comps in layer order, each searched the same way, and the result
    is that of the first sub-comp whose search finds something. The find
    is returned with the comp that owns it. *)
Theorem findLayerDeep_two_phase (rank : nat → nat) (st : Project) (comp : nat)
    (layerName : JsString) :
  ranked rank st = true → comp < length st →
  is_Some (findLayerDeep st comp layerName)
  ∧ findLayerDeep st comp layerName
    = match list_find (λ l, Some (layer_name l) = layerName) (comp_layers st comp) with
      | Some (i, _) => Some (Some (comp, i))
      | None =>
          match list_find (λ sub, findLayerDeep st sub layerName ≠ Some None)
                  (omap sub_comp (comp_layers st comp)) with
          | Some (_, sub) => findLayerDeep st sub layerName
          | None => Some None
          end
      end
  ∧ ∀ owner i, findLayerDeep st comp layerName = Some (Some (owner, i)) →
      ∃ l, comp_layers st owner !! i = Some l ∧ Some (layer_name l) = layerName.
Proof.
  intros Hr Hc. split; [by apply (findLayerDeep_is_Some rank)|].
  split; [|intros owner i; apply findLayerDeep_at_named].
  rewrite (findLayerDeep_unfold rank) by done.
  destruct (list_find _ (comp_layers st comp)) as [[i l]|]; [done|].
  apply descend_first. intros l d Hl Hd.
  apply (findLayerDeep_is_Some rank); [done|].
  by destruct (ranked_child rank st comp d l Hr Hl Hd).
Qed.

Lemma findLayerDeep_two_phase_witness :
  findLayerDeep headline_in_second 0 (Some "Headline") = Some (Some (2, 0)).
Proof.
  destruct (findLayerDeep_two_phase (λ c, match c with 0 => 1 | _ => 0 end)
              headline_in_second 0 (Some "Headline")) as (_ & Heq & _);
    [reflexivity | cbn; lia |].
  rewrite Heq. reflexivity.
Defined.

(** ** What the deep search finds *)

Lemma descend_none (f : nat → option Found) (ls : list Layer) :
  descend f ls = Some None →
  ∀ l d, l ∈ ls → sub_comp l = Some d → f d = Some None.
Proof.
  induction ls as [|l ls IH]; intros H l' d Hl' Hd; [by apply elem_of_nil in Hl'|].
  cbn [descend] in H. destruct (sub_comp l) as [d'|] eqn:Hd'.
  - destruct (f d') as [[r|]|] eqn:Hfd; [done| |done].
    apply elem_of_cons in Hl' as [->|Hl']; [congruence|by eapply IH].
  - apply elem_of_cons in Hl' as [->|Hl']; [congruence|by eapply IH].
Qed.

Lemma descend_all_none (f : nat → option Found) (ls : list Layer) :
  (∀ l d, l ∈ ls → sub_comp l = Some d → f d = Some None) →
  descend f ls = Some None.
Proof.
  induction ls as [|l ls IH]; intros H; [done|].
  cbn [descend]. destruct (sub_comp l) as [d|] eqn:Hd.
  - rewrite (H l d) by (done || left). apply IH. intros l' d' Hl'. apply H. by right.
  - apply IH. intros l' d' Hl'. apply H. by right.
Qed.

Lemma findLayerDeep_at_owner (depth : nat) (st : Project) (comp : nat) (n : JsString)
    (owner i : nat) :
  findLayerDeep_at depth st comp n = Some (Some (owner, i)) →
  rtc (child st) comp owner.
Proof.
  revert comp. induction depth as [|depth IH]; intros comp H; [done|].
  cbn [findLayerDeep_at] in H. destruct (list_find _ _) as [[j l]|]; [by simplify_eq|].
  apply descend_found in H as (l & d & Hl & Hd & H).
  eapply rtc_l; [by exists l|by apply IH].
Qed.

Lemma findLayerDeep_none_iff (rank : nat → nat) (st : Project) (n : JsString) (comp : nat) :
  ranked rank st = true → comp < length st →
  findLayerDeep st comp n = Some None
  ↔ ∀ d l, rtc (child st) comp d → l ∈ comp_layers st d → Some (layer_name l) ≠ n.
Proof.
  intros Hr. remember (rank comp) as k eqn:Hk. revert comp Hk.
  induction (lt_wf k) as [k _ IH]. intros comp -> Hcomp.
  rewrite (findLayerDeep_unfold rank) by done.
  assert (∀ l d, l ∈ comp_layers st comp → sub_comp l = Some d →
            findLayerDeep st d n = Some None
            ↔ ∀ d' l', rtc (child st) d d' → l' ∈ comp_layers st d' →
                Some (layer_name l') ≠ n) as Hkids.
  { intros l d Hl Hd. destruct (ranked_child rank st comp d l Hr Hl Hd) as [Hdlt Hdr].
    by apply (IH (rank d)). }
  split.
  - intros H. destruct (list_find _ _) as [[j l]|] eqn:Hfind; [done|].
    intros d l [<-|(y & (ly & Hly & Hy) & Hyd)]%rtc_inv Hl.
    + apply list_find_None in Hfind. rewrite Forall_forall in Hfind. by apply Hfind.
    + eapply (proj1 (Hkids ly y Hly Hy)); [|done..].
      exact (descend_none (λ sub, findLayerDeep st sub n) _ H ly y Hly Hy).
  - intros H. destruct (list_find _ _) as [[j l]|] eqn:Hfind.
    + apply list_find_Some in Hfind as (Hj & Hn & _). exfalso.
      apply (H comp l); [done|by eapply list_elem_of_lookup_2|done].
    + apply descend_all_none. intros l d Hl Hd. cbv beta. apply (Hkids l d Hl Hd).
      intros d' l' Hd'. apply H. eapply rtc_l; [by exists l|done].
Qed.

(** X10: in an acyclic project the deep search is exhaustive: it reports
    nothing found exactly when no comp nested in the root at any depth,
    the root included, has a layer of the name asked for; and the comp it
    returns a layer of is the root or nested in it. *)
Theorem findLayerDeep_is_exhaustive (rank : nat → nat) (st : Project) (comp : nat)
    (layerName : JsString) :
  ranked rank st = true → comp < length st →
  (findLayerDeep st comp layerName = Some None
   ↔ ∀ d l, rtc (child st) comp d → l ∈ comp_layers st d → Some (layer_name l) ≠ layerName)
  ∧ ∀ owner i, findLayerDeep st comp layerName = Some (Some (owner, i)) →
      rtc (child st) comp owner.
Proof.
  intros Hr Hcomp. split; [by apply (findLayerDeep_none_iff rank)|].
  intros owner i. apply findLayerDeep_at_owner.
Qed.

Lemma findLayerDeep_is_exhaustive_witness :
  (findLayerDeep nested 0 (Some "Subtitle") = Some None
   ↔ ∀ d l, rtc (child nested) 0 d → l ∈ comp_layers nested d →
       Some (layer_name l) ≠ Some "Subtitle")
  ∧ ∀ owner i, findLayerDeep nested 0 (Some "Subtitle") = Some (Some (owner, i)) →
      rtc (child nested) 0 owner.
Proof.
  apply (findLayerDeep_is_exhaustive nested_rank); [reflexivity|cbn; lia].
Defined.

(** ** Comp tree discovery *)

Lemma valid_child (st : Project) :
  valid_sources st = true → ∀ c d, child st c d → d < length st.
Proof.
  unfold valid_sources, child, comp_layers. rewrite forallb_forall.
  intros Hall c d (l & Hl & Hd).
  destruct (st !! c) as [comp|] eqn:Hc; cbn in Hl; [|by apply elem_of_nil in Hl].
  specialize (Hall comp). rewrite forallb_forall in Hall.
  assert (In comp st) as Hin by (apply list_elem_of_In; by eapply list_elem_of_lookup_2).
  specialize (Hall Hin l (proj1 (list_elem_of_In _ _) Hl)).
  rewrite Hd in Hall. by apply Nat.ltb_lt.
Qed.

Lemma ranked_valid (rank : nat → nat) (st : Project) :
  ranked rank st = true → valid_sources st = true.
Proof.
  intros Hr. unfold valid_sources. apply forallb_forall. intros comp Hin.
  apply list_elem_of_In, list_elem_of_lookup in Hin as [c Hc].
  apply forallb_forall. intros l Hl. apply list_elem_of_In in Hl.
  destruct (sub_comp l) as [d|] eqn:Hd; [|done].
  apply Nat.ltb_lt. by eapply (ranked_lookup rank st c comp).
Qed.

Section discovery.
Variable st : Project.
Hypothesis Hvalid : ∀ c d, child st c d → d < length st.

Lemma tidy_length (collected : list nat) :
  tidy st collected → length collected ≤ length st.
Proof.
  intros [Hnd Hlt]. trans (length (seq 0 (length st))); [|by rewrite length_seq].
  apply submseteq_length, NoDup_submseteq; [done|].
  intros x Hx. apply elem_of_seq. specialize (Hlt x Hx). lia.
Qed.

Lemma tidy_snoc (collected : list nat) (x : nat) :
  tidy st collected → x < length st → x ∉ collected → tidy st (collected ++ [x]).
Proof.
  intros [Hnd Hlt] Hx Hnew. split.
  - apply NoDup_app. split; [done|]. split; [|apply NoDup_singleton].
    intros y Hy ->%list_elem_of_singleton. done.
  - intros y [Hy | ->%list_elem_of_singleton]%elem_of_app; auto.
Qed.

Lemma scan_discovers (depth : nat) :
  (∀ comp collected, tidy st collected → length st - length collected < depth →
     ∃ collected', discoverAllSubComps_at depth st comp collected = Some collected'
                   ∧ discovered st (comp_layers st comp) collected collected') →
  ∀ ls collected,
    (∀ l d, l ∈ ls → sub_comp l = Some d → d < length st) →
    tidy st collected → length st - length collected ≤ depth →
    ∃ collected', scan (discoverAllSubComps_at depth st) ls collected = Some collected'
                  ∧ discovered st ls collected collected'.
Proof.
  intros IHvisit. induction ls as [|l ls IH]; intros collected Hls Htidy Hdepth.
  { exists collected. split; [done|]. split; [done|]. split; [done|].
    split; [intros ?? []%elem_of_nil|done]. }
  assert (∀ l' d, l' ∈ ls → sub_comp l' = Some d → d < length st) as Hls'.
  { intros l' d Hl'. apply Hls. by right. }
  cbn [scan]. destruct (sub_comp l) as [subComp|] eqn:Hsub.
  - case_bool_decide as Hin.
    + destruct (IH collected Hls' Htidy Hdepth) as (c' & Hc' & Hpre & Ht & Hlay & Hclo).
      exists c'. split; [done|]. split; [done|]. split; [done|]. split; [|done].
      intros l' d [-> | Hl']%elem_of_cons Hd; [|by eapply Hlay].
      simplify_eq. by eapply elem_of_prefix.
    + assert (subComp < length st) as Hlt by (eapply Hls; [left|done]).
      pose proof (tidy_snoc collected subComp Htidy Hlt Hin) as Htidy1.
      pose proof (tidy_length _ Htidy1) as Hlen1. rewrite length_app in Hlen1.
      cbn [length] in Hlen1.
      destruct (IHvisit subComp (collected ++ [subComp]) Htidy1)
        as (c1 & Hc1 & Hpre1 & Ht1 & Hlay1 & Hclo1).
      { rewrite length_app. cbn [length]. lia. }
      rewrite Hc1. cbn [mbind option_bind].
      pose proof (prefix_length _ _ Hpre1) as Hlen. rewrite length_app in Hlen.
      destruct (IH c1 Hls' Ht1) as (c2 & Hc2 & Hpre2 & Ht2 & Hlay2 & Hclo2); [lia|].
      assert (subComp ∈ c1) as Hsub1.
      { eapply elem_of_prefix; [|done]. apply elem_of_app. right. left. }
      exists c2. split; [done|]. split.
      { etrans; [|done]. etrans; [|done]. by apply prefix_app_r. }
      split; [done|]. split.
      * intros l' d [-> | Hl']%elem_of_cons Hd; [|by eapply Hlay2].
        simplify_eq. by eapply elem_of_prefix.
      * intros x d Hx Hnew Hchild.
        destruct (decide (x ∈ c1)) as [Hx1|Hx1]; [|by eapply Hclo2].
        eapply elem_of_prefix; [|done].
        destruct (decide (x = subComp)) as [->|Hne].
        -- destruct Hchild as (l' & Hl' & Hd). by eapply Hlay1.
        -- eapply Hclo1; [done| |done].
           intros [? | ?%list_elem_of_singleton]%elem_of_app; done.
  - destruct (IH collected Hls' Htidy Hdepth) as (c' & Hc' & Hpre & Ht & Hlay & Hclo).
    exists c'. split; [done|]. split; [done|]. split; [done|]. split; [|done].
    intros l' d [-> | Hl']%elem_of_cons Hd; [congruence|by eapply Hlay].
Qed.

Lemma discoverAllSubComps_at_discovers (depth : nat) (comp : nat) (collected : list nat) :
  tidy st collected → length st - length collected < depth →
  ∃ collected', discoverAllSubComps_at depth st comp collected = Some collected'
                ∧ discovered st (comp_layers st comp) collected collected'.
Proof.
  revert comp collected. induction depth as [|depth IH]; intros comp collected Ht Hd; [lia|].
  cbn [discoverAllSubComps_at]. apply scan_discovers; [done| |done|lia].
  intros l d Hl Hsub. apply (Hvalid comp d). by exists l.
Qed.

(** A visit never leaves a set of comps that is closed under nesting. *)
Lemma scan_within (S : nat → Prop) (visit : nat → list nat → option (list nat)) :
  (∀ comp collected collected', S comp → Forall S collected →
     visit comp collected = Some collected' → Forall S collected') →
  ∀ ls collected collected',
    (∀ l d, l ∈ ls → sub_comp l = Some d → S d) → Forall S collected →
    scan visit ls collected = Some collected' → Forall S collected'.
Proof.
  intros Hvisit. induction ls as [|l ls IH]; intros collected collected' Hls Hcol Hscan.
  { cbn in Hscan. by simplify_eq. }
  assert (∀ l' d, l' ∈ ls → sub_comp l' = Some d → S d) as Hls'.
  { intros l' d Hl'. apply Hls. by right. }
  cbn [scan] in Hscan. destruct (sub_comp l) as [subComp|] eqn:Hsub; [|by eapply IH].
  case_bool_decide; [by eapply IH|].
  destruct (visit subComp (collected ++ [subComp])) as [c1|] eqn:Hc1; [|done].
  cbn in Hscan. eapply (IH c1); [done| |done].
  assert (S subComp) as HS by (eapply Hls; [left|done]).
  eapply Hvisit; [done| |done]. apply Forall_app. split; [done|]. by apply Forall_singleton.
Qed.

Lemma discoverAllSubComps_at_within (S : nat → Prop) (depth : nat) :
  (∀ x d, S x → child st x d → S d) →
  ∀ comp collected collected', (∀ d, child st comp d → S d) → Forall S collected →
    discoverAllSubComps_at depth st comp collected = Some collected' →
    Forall S collected'.
Proof.
  intros Hclosed. induction depth as [|depth IH]; intros comp collected collected' Hc Hcol H;
    [done|].
  cbn [discoverAllSubComps_at] in H. eapply (scan_within S); [| |done..].
  - intros sub c c' Hsub. apply IH. intros d. by apply Hclosed.
  - intros l d Hl Hd. apply Hc. by exists l.
Qed.

(** Discovery ends on every project, whatever its nesting, and returns
    each reachable sub-comp once. *)
Lemma discoverAllSubComps_total (comp : nat) :
  ∃ allSubComps, discoverAllSubComps st comp = Some allSubComps
                 ∧ tidy st allSubComps
                 ∧ (∀ d, child st comp d → d ∈ allSubComps)
                 ∧ (∀ x d, x ∈ allSubComps → child st x d → d ∈ allSubComps).
Proof.
  destruct (discoverAllSubComps_at_discovers (S (length st)) comp [])
    as (c' & Hc' & _ & Ht & Hlay & Hclo).
  { split; [apply NoDup_nil_2|]. intros x []%elem_of_nil. }
  { cbn. lia. }
  exists c'. split; [done|]. split; [done|]. split.
  - intros d (l & Hl & Hd). by eapply Hlay.
  - intros x d Hx. apply Hclo; [done|]. intros []%elem_of_nil.
Qed.

End discovery.

(** ** What discovery returns *)

(** X8: in a project whose layers all point at comps of the project,
    discovery returns, each once, exactly the comps nested in the given
    comp at any depth. *)
Theorem discovery_is_reachability (st : Project) (comp : nat) :
  valid_sources st = true →
  ∃ allSubComps,
    discoverAllSubComps st comp = Some allSubComps
    ∧ NoDup allSubComps
    ∧ ∀ x, x ∈ allSubComps ↔ tc (child st) comp x.
Proof.
  intros Hvalid.
  destruct (discoverAllSubComps_total st (valid_child st Hvalid) comp)
    as (all & Hall & [Hnd Hlt] & Hroot & Hclosed).
  exists all. split; [done|]. split; [done|]. intros x. split.
  - revert x. apply Forall_forall. unfold discoverAllSubComps in Hall.
    eapply (discoverAllSubComps_at_within st (λ x, tc (child st) comp x)); [| | |exact Hall].
    + intros y d Hy Hyd. by eapply tc_r.
    + intros d Hd. by apply tc_once.
    + by apply Forall_nil.
  - intros Hpath.
    assert (∀ y z, tc (child st) y z → (∀ d, child st y d → d ∈ all) → z ∈ all) as Hin.
    { clear Hpath. intros y z Hyz. induction Hyz as [y z Hyz | y w z Hyw _ IH]; intros Hy.
      - by apply Hy.
      - apply IH. intros d. apply Hclosed. by apply Hy. }
    by apply (Hin comp x).
Qed.

Lemma discovery_is_reachability_witness :
  ∃ allSubComps,
    discoverAllSubComps mutual 0 = Some allSubComps
    ∧ NoDup allSubComps
    ∧ ∀ x, x ∈ allSubComps ↔ tc (child mutual) 0 x.
Proof. apply discovery_is_reachability. reflexivity. Defined.

(** ** Finding comps and folders *)

(** X18: [findComp] returns the first comp that bears the name, and
    nothing exactly when no comp bears it; where the names are pairwise
    different, looking a comp up by its own name gives that comp. *)
Theorem findComp_finds_first (st : Project) (n : string) :
  match findComp st n with
  | Some c => c < length st ∧ comp_name st c = n ∧ ∀ j, j < c → comp_name st j ≠ n
  | None => n ∉ name <$> st
  end
  ∧ (NoDup (name <$> st) → ∀ c, c < length st → findComp st (comp_name st c) = Some c).
Proof.
  assert (∀ n, match findComp st n with
               | Some c => c < length st ∧ comp_name st c = n
                           ∧ ∀ j, j < c → comp_name st j ≠ n
               | None => n ∉ name <$> st
               end) as Hfirst.
  { clear n. intros n. unfold findComp.
    destruct (list_find _ _) as [[c comp]|] eqn:Hfind; cbn [fmap option_fmap option_map fst].
    - apply list_find_Some in Hfind as (Hc & Hn & Hbefore).
      split; [by eapply lookup_lt_Some|]. split; [unfold comp_name; by rewrite Hc|].
      intros j Hj. unfold comp_name.
      destruct (st !! j) as [y|] eqn:Hy; [by eapply Hbefore|].
      apply lookup_ge_None in Hy. apply lookup_lt_Some in Hc. lia.
    - intros (comp & Hn & Hcomp)%list_elem_of_fmap.
      apply list_find_None in Hfind. rewrite Forall_forall in Hfind.
      by apply (Hfind comp). }
  split; [apply Hfirst|]. intros Hnames c Hc.
  specialize (Hfirst (comp_name st c)).
  destruct (lookup_lt_is_Some_2 st c Hc) as [comp Hcomp].
  destruct (findComp st (comp_name st c)) as [c'|].
  - destruct Hfirst as (Hc' & Hn & _). f_equal.
    destruct (lookup_lt_is_Some_2 st c' Hc') as [comp' Hcomp'].
    unfold comp_name in Hn. rewrite Hcomp, Hcomp' in Hn. cbn in Hn.
    apply (NoDup_lookup (name <$> st) c' c (name comp)); [done|..].
    + by rewrite list_lookup_fmap, Hcomp', <- Hn.
    + by rewrite list_lookup_fmap, Hcomp.
  - exfalso. apply Hfirst. apply list_elem_of_fmap. exists comp.
    split; [unfold comp_name; by rewrite Hcomp|by eapply list_elem_of_lookup_2].
Qed.

(** X19: [findOrCreateFolder] keeps every folder and adds at most one;
    the folder it returns has the name and the parent asked for and is
    the first such folder; asked again, it returns the same folder and
    adds nothing. *)
Theorem findOrCreateFolder_reuses (folders : list FolderItem) (n : string)
    (parent : option nat) :
  let folders' := (findOrCreateFolder folders n parent).1 in
  let folder := (findOrCreateFolder folders n parent).2 in
  folders `prefix_of` folders'
  ∧ length folders' ≤ S (length folders)
  ∧ folders' !! folder = Some {| folder_name := n; folder_parent := parent |}
  ∧ (∀ j f, j < folder → folders' !! j = Some f →
       ¬ (folder_parent f = parent ∧ folder_name f = n))
  ∧ findOrCreateFolder folders' n parent = (folders', folder).
Proof.
  unfold findOrCreateFolder.
  destruct (list_find _ folders) as [[i f]|] eqn:Hfind; cbn [fst snd].
  - pose proof Hfind as (Hi & [Hp Hn] & Hbefore)%list_find_Some.
    split; [done|]. split; [lia|]. split; [by destruct f; cbn in *; subst|].
    split; [intros j g Hj Hg; by eapply Hbefore|]. by rewrite Hfind.
  - pose proof Hfind as Hnone%list_find_None. rewrite Forall_forall in Hnone.
    split; [by apply prefix_app_r|]. split; [rewrite length_app; cbn; lia|].
    split; [by rewrite lookup_app_r, Nat.sub_diag|]. split.
    + intros j f Hj Hf. rewrite lookup_app_l in Hf by done.
      apply Hnone. by eapply list_elem_of_lookup_2.
    + rewrite list_find_app_r by done. cbn [list_find].
      rewrite decide_True by done. by cbn.
Qed.

(** ** The replacement loop *)

(** C8: a row whose value for the language is absent or empty is counted
    as skipped and nothing else changes: the project, and so every layer
    of it, the other counts and the error log are as before. *)
Theorem empty_value_is_skipped (host : Host) (lang : string)
    (allDupes : gmap string nat) (r : Run) (row : Row) :
  row !! lang = None ∨ row !! lang = Some "" →
  ∃ r', apply_row host lang allDupes r row = Some r'
        ∧ project r' = project r
        ∧ skipped (stats r') = S (skipped (stats r))
        ∧ success (stats r') = success (stats r)
        ∧ errors (stats r') = errors (stats r)
        ∧ errorLog r' = errorLog r.
Proof.
  intros Hvalue. exists (skip r). split; [|done].
  unfold apply_row. by destruct Hvalue as [-> | ->].
Qed.

Lemma empty_value_is_skipped_witness :
  let r := {| project := two_headlines;
              stats := {| success := 0; skipped := 0; errors := 0 |};
              errorLog := [] |} in
  let row : Row := {[ "comp_name" := "Main"; "layer_name" := "Headline"; "fr" := "" ]} in
  ∃ r', apply_row {| fileExists := λ _, true; importFile := λ _, true |}
          "fr" {[ "Main" := 0 ]} r row = Some r'
        ∧ project r' = project r
        ∧ skipped (stats r') = S (skipped (stats r))
        ∧ success (stats r') = success (stats r)
        ∧ errors (stats r') = errors (stats r)
        ∧ errorLog r' = errorLog r.
Proof.
  intros r row. apply empty_value_is_skipped. right. reflexivity.
Defined.

Lemma row_type_raw (row : Row) :
  row_type row
  = toLowerCase (if bool_decide (default "" (row !! "type") = "") then "text"
                 else default "" (row !! "type")).
Proof. unfold row_type. destruct (row !! "type") as [t|]; [|done]. done. Qed.

Lemma isFootageType_raw (row : Row) :
  isFootageType (row_type row) = true
  ↔ toLowerCase (default "" (row !! "type")) = "footage"
    ∨ toLowerCase (default "" (row !! "type")) = "image".
Proof.
  rewrite row_type_raw. unfold isFootageType.
  rewrite orb_true_iff, !bool_decide_eq_true.
  case_bool_decide as Ht; [|done]. rewrite Ht. cbn. split; intros [[=]|[=]].
Qed.

(** C10: once the layer of a row is found, the replacement is chosen by
    the [type] cell as it stands in the manifest, lower-cased: "footage"
    and "image", in any case of letters, go to [replaceFootage]; every
    other value, an empty or a missing cell among them, goes to
    [replaceText]. A failure is logged under the lower-cased type, "text"
    for an empty or a missing cell. *)
Theorem type_dispatch (host : Host) (lang : string) (allDupes : gmap string nat)
    (r : Run) (row : Row) (value : string) (dupeMaster comp i : nat) (layer : Layer) :
  row !! lang = Some value → value ≠ "" →
  allDupes !! js_str (row !! "comp_name") = Some dupeMaster →
  findLayerDeep (project r) dupeMaster (row !! "layer_name") = Some (Some (comp, i)) →
  comp_layers (project r) comp !! i = Some layer →
  let type := default "" (row !! "type") in
  let failed := fail r (msg_failed lang (js_str (row !! "layer_name"))
                          (comp_name (project r) comp)
                          (toLowerCase (if bool_decide (type = "") then "text" else type))) in
  (toLowerCase type = "footage" ∨ toLowerCase type = "image" →
   apply_row host lang allDupes r row
   = Some (match replaceFootage host layer value with
           | Some layer' => succeed r comp i layer'
           | None => failed
           end))
  ∧ (toLowerCase type ≠ "footage" → toLowerCase type ≠ "image" →
     apply_row host lang allDupes r row
     = Some (match replaceText layer value with
             | Some layer' => succeed r comp i layer'
             | None => failed
             end)).
Proof.
  intros Hvalue Hne Hdupe Hfound Hlayer type failed.
  assert (apply_row host lang allDupes r row
          = Some (replace_layer host lang r row comp i layer value)) as Happly.
  { unfold apply_row. rewrite Hvalue, Hdupe, Hfound. cbn [mbind option_bind].
    rewrite Hlayer. by destruct value. }
  rewrite Happly. unfold replace_layer, failed, type. rewrite <- row_type_raw.
  split.
  - intros H. by rewrite (proj2 (isFootageType_raw row) H).
  - intros H1 H2. destruct (isFootageType (row_type row)) eqn:Hf; [|done].
    apply isFootageType_raw in Hf as [?|?]; done.
Qed.

Lemma type_dispatch_witness :
  let logo := {| project := with_logo;
                 stats := {| success := 0; skipped := 0; errors := 0 |};
                 errorLog := [] |} in
  let image : Row := {[ "comp_name" := "Main"; "layer_name" := "Logo";
                        "type" := "Image"; "en" := "new.png" ]} in
  let r := {| project := two_headlines;
              stats := {| success := 0; skipped := 0; errors := 0 |};
              errorLog := [] |} in
  let asset : Row := {[ "comp_name" := "Main"; "layer_name" := "Headline";
                        "type" := "asset"; "en" := "Hi" ]} in
  apply_row any_file "en" {[ "Main" := 0 ]} logo image
  = Some (succeed logo 0 0 (AVLayer "Logo" (FootageSource "new.png")))
  ∧ apply_row any_file "en" {[ "Main" := 0 ]} r asset
    = Some (succeed r 1 0 (TextLayer "Headline" "Hi")).
Proof.
  intros logo image r asset.
  assert ("new.png" ≠ "") as Hpng by discriminate.
  assert ("Hi" ≠ "") as Hhi by discriminate.
  assert (({[ "Main" := 0 ]} : gmap string nat) !! js_str (image !! "comp_name") = Some 0)
    as Hdupe by reflexivity.
  assert (({[ "Main" := 0 ]} : gmap string nat) !! js_str (asset !! "comp_name") = Some 0)
    as Hdupe' by reflexivity.
  assert (findLayerDeep (project logo) 0 (image !! "layer_name") = Some (Some (0, 0)))
    as Hfound by reflexivity.
  assert (findLayerDeep (project r) 0 (asset !! "layer_name") = Some (Some (1, 0)))
    as Hfound' by reflexivity.
  split.
  - apply (proj1 (type_dispatch any_file "en" {[ "Main" := 0 ]} logo image "new.png" 0 0 0
                    (AVLayer "Logo" (FootageSource "old.png"))
                    eq_refl Hpng Hdupe Hfound eq_refl)).
    right. reflexivity.
  - apply (proj2 (type_dispatch any_file "en" {[ "Main" := 0 ]} r asset "Hi" 0 1 0
                    (TextLayer "Headline" "A") eq_refl Hhi Hdupe' Hfound' eq_refl)).
    + vm_compute. discriminate.
    + vm_compute. discriminate.
Defined.

(** *** Counts and the error log *)

Lemma fail_capped (r : Run) (msg : string) : log_capped r → log_capped (fail r msg).
Proof.
  unfold log_capped, fail. cbn [errorLog stats errors]. intros H.
  destruct (length (errorLog r) <? 20) eqn:Hlt.
  - apply Nat.ltb_lt in Hlt. rewrite length_app. cbn [length]. lia.
  - apply Nat.ltb_ge in Hlt. lia.
Qed.

(** What one row does to the counts and to the log. *)
Lemma apply_row_counts (host : Host) (lang : string) (allDupes : gmap string nat)
    (r r' : Run) (row : Row) :
  apply_row host lang allDupes r row = Some r' →
  handled r' = S (handled r)
  ∧ ((errors (stats r') = errors (stats r) ∧ errorLog r' = errorLog r)
     ∨ ∃ msg, r' = fail r msg).
Proof.
  unfold apply_row. intros H.
  assert (∀ msg, handled (fail r msg) = S (handled r)) as Hfail
    by (intros; unfold handled; cbn; lia).
  assert (handled (skip r) = S (handled r)) as Hskip by (unfold handled; cbn; lia).
  destruct (row !! lang) as [value|]; [|simplify_eq; split; [done|by left]].
  destruct value as [|ch value]; [simplify_eq; split; [done|by left]|].
  destruct (allDupes !! _) as [dupeMaster|]; [|simplify_eq; split; [done|by right; eexists]].
  destruct (findLayerDeep _ _ _) as [[[comp i]|]|]; cbn in H; [| |done].
  - simplify_eq. unfold replace_layer.
    destruct (if isFootageType _ then _ else _).
    + split; [unfold handled; cbn; lia|by left].
    + split; [done|by right; eexists].
  - simplify_eq. split; [done|by right; eexists].
Qed.

Lemma apply_rows_counts (host : Host) (lang : string) (allDupes : gmap string nat)
    (rows : list Row) (r r' : Run) :
  apply_rows host lang allDupes r rows = Some r' → log_capped r →
  log_capped r' ∧ handled r' = handled r + length rows.
Proof.
  revert r. induction rows as [|row rows IH]; intros r H Hcap.
  - cbn in H. simplify_eq. split; [done|]. cbn. lia.
  - cbn [apply_rows] in H.
    destruct (apply_row host lang allDupes r row) as [r1|] eqn:Hrow; [|done].
    cbn in H. apply apply_row_counts in Hrow as [Hh Hlog].
    assert (log_capped r1) as Hcap1.
    { destruct Hlog as [[He Hl] | [msg ->]]; [|by apply fail_capped].
      unfold log_capped in *. by rewrite He, Hl. }
    destruct (IH r1 H Hcap1) as [? Hh']. split; [done|]. cbn. lia.
Qed.

(** ** What one row does to the project *)

Lemma replaceText_name (layer layer' : Layer) (v : string) :
  replaceText layer v = Some layer' →
  layer_name layer' = layer_name layer ∧ sub_comp layer' = sub_comp layer
  ∧ layer' = TextLayer (layer_name layer) v.
Proof. destruct layer; cbn; intros; by simplify_eq. Qed.

Lemma replaceFootage_name (host : Host) (layer layer' : Layer) (v : string) :
  replaceFootage host layer v = Some layer' → layer_name layer' = layer_name layer.
Proof.
  unfold replaceFootage. destruct (negb _); [done|]. destruct (negb _); [done|].
  destruct layer; intros; by simplify_eq.
Qed.

Lemma set_layer_lookup (st : Project) (comp i : nat) (layer' : Layer) (c : nat) :
  comp_name (set_layer st comp i layer') c = comp_name st c
  ∧ comp_layers (set_layer st comp i layer') c
    = if decide (comp = c) then <[i := layer']> (comp_layers st c) else comp_layers st c.
Proof.
  unfold set_layer, comp_name, comp_layers. case_decide as Hc.
  - subst c. rewrite list_lookup_alter_eq. by destruct (st !! comp).
  - by rewrite list_lookup_alter_ne.
Qed.

Lemma set_layer_names (st : Project) (comp i : nat) (layer' old : Layer) (c : nat) :
  comp_layers st comp !! i = Some old → layer_name layer' = layer_name old →
  layer_name <$> comp_layers (set_layer st comp i layer') c
  = layer_name <$> comp_layers st c.
Proof.
  intros Hold Hname. rewrite (proj2 (set_layer_lookup st comp i layer' c)).
  case_decide as Hc; [|done]. subst c.
  rewrite list_fmap_insert, Hname. apply list_insert_id.
  by rewrite list_lookup_fmap, Hold.
Qed.

(** X12: a row never adds, removes, renames or reorders anything: after
    it the project has as many comps as before, each under its old name,
    with layers of the same names in the same order. Unless the row is
    counted as a success, the project is exactly as it was. *)
Theorem row_keeps_names (host : Host) (lang : string) (allDupes : gmap string nat)
    (r r' : Run) (row : Row) :
  apply_row host lang allDupes r row = Some r' →
  length (project r') = length (project r)
  ∧ (∀ c, comp_name (project r') c = comp_name (project r) c
          ∧ layer_name <$> comp_layers (project r') c
            = layer_name <$> comp_layers (project r) c)
  ∧ (success (stats r') = success (stats r) → project r' = project r).
Proof.
  unfold apply_row. intros H.
  destruct (row !! lang) as [[|ch value]|]; [by simplify_eq| |by simplify_eq].
  destruct (allDupes !! _) as [dupeMaster|]; [|by simplify_eq].
  destruct (findLayerDeep _ _ _) as [[[comp i]|]|]; cbn [mbind option_bind] in H;
    [|by simplify_eq|done].
  simplify_eq. unfold replace_layer.
  destruct (comp_layers (project r) comp !! i) as [old|] eqn:Hold; cbn [default].
  - assert (∀ layer', layer_name layer' = layer_name old →
              length (project (succeed r comp i layer')) = length (project r)
              ∧ (∀ c, comp_name (project (succeed r comp i layer')) c = comp_name (project r) c
                      ∧ layer_name <$> comp_layers (project (succeed r comp i layer')) c
                        = layer_name <$> comp_layers (project r) c)
              ∧ (success (stats (succeed r comp i layer')) = success (stats r) →
                 project (succeed r comp i layer') = project r)) as Hok.
    { intros layer' Hname. cbn [succeed project stats success].
      split; [unfold set_layer; by rewrite length_alter|]. split; [|lia].
      intros c. split; [apply set_layer_lookup|by eapply set_layer_names]. }
    destruct (isFootageType _).
    + destruct (replaceFootage _ _ _) as [layer'|] eqn:Hrep; [|done].
      by eapply Hok, replaceFootage_name.
    + destruct (replaceText _ _) as [layer'|] eqn:Hrep; [|done].
      eapply Hok. by apply replaceText_name in Hrep as [? _].
  - assert (replaceText (PlainLayer "") (String ch value) = None) as -> by done.
    assert (replaceFootage host (PlainLayer "") (String ch value) = None) as ->.
    { unfold replaceFootage. by repeat destruct (negb _). }
    by destruct (isFootageType _).
Qed.

Lemma row_keeps_names_witness :
  let r := {| project := two_headlines;
              stats := {| success := 0; skipped := 0; errors := 0 |};
              errorLog := [] |} in
  let row : Row := {[ "comp_name" := "Main"; "layer_name" := "Headline"; "en" := "Hi" ]} in
  let r' := succeed r 1 0 (TextLayer "Headline" "Hi") in
  length (project r') = length (project r)
  ∧ (∀ c, comp_name (project r') c = comp_name (project r) c
          ∧ layer_name <$> comp_layers (project r') c
            = layer_name <$> comp_layers (project r) c)
  ∧ (success (stats r') = success (stats r) → project r' = project r).
Proof.
  intros r row r'.
  apply (row_keeps_names any_file "en" {[ "Main" := 0 ]} r r' row). reflexivity.
Defined.

(** ** Running a text row again *)

Lemma list_find_shape (n : JsString) (ls1 ls2 : list Layer) :
  Forall2 (λ a b, layer_name a = layer_name b ∧ sub_comp a = sub_comp b) ls1 ls2 →
  fst <$> list_find (λ l, Some (layer_name l) = n) ls1
  = fst <$> list_find (λ l, Some (layer_name l) = n) ls2.
Proof.
  induction 1 as [|a b ls1 ls2 [Hn _] _ IH]; [done|].
  cbn [list_find]. rewrite Hn. destruct (decide _); [done|].
  destruct (list_find _ ls1) as [[i1 x1]|], (list_find _ ls2) as [[i2 x2]|];
    cbn in *; by simplify_eq.
Qed.

Lemma descend_shape (f1 f2 : nat → option Found) (ls1 ls2 : list Layer) :
  Forall2 (λ a b, layer_name a = layer_name b ∧ sub_comp a = sub_comp b) ls1 ls2 →
  (∀ d, f1 d = f2 d) → descend f1 ls1 = descend f2 ls2.
Proof.
  intros Hls Hf. induction Hls as [|a b ls1 ls2 [_ Hs] _ IH]; [done|].
  cbn [descend]. rewrite Hs, IH. destruct (sub_comp b); [by rewrite Hf|done].
Qed.

Lemma findLayerDeep_at_shape (st1 st2 : Project) (n : JsString) (depth : nat) :
  same_shape st1 st2 →
  ∀ comp, findLayerDeep_at depth st1 comp n = findLayerDeep_at depth st2 comp n.
Proof.
  intros [_ Hshape]. induction depth as [|depth IH]; intros comp; [done|].
  cbn [findLayerDeep_at].
  pose proof (list_find_shape n _ _ (Hshape comp)) as Hfind.
  rewrite (descend_shape _ (λ sub, findLayerDeep_at depth st2 sub n) _ _ (Hshape comp) IH).
  destruct (list_find _ (comp_layers st1 comp)) as [[i1 x1]|],
    (list_find _ (comp_layers st2 comp)) as [[i2 x2]|]; cbn in Hfind; by simplify_eq.
Qed.

Lemma set_layer_same_shape (st : Project) (comp i : nat) (layer' old : Layer) :
  comp_layers st comp !! i = Some old →
  layer_name layer' = layer_name old → sub_comp layer' = sub_comp old →
  same_shape (set_layer st comp i layer') st.
Proof.
  intros Hold Hn Hs. split; [unfold set_layer; by rewrite length_alter|].
  intros c. rewrite (proj2 (set_layer_lookup st comp i layer' c)).
  case_decide as Hc; [subst c|by apply Forall_Forall2_diag, Forall_forall].
  apply Forall2_same_length_lookup_2; [by rewrite length_insert|].
  intros j a b Ha Hb.
  apply list_lookup_insert_Some in Ha as [(-> & -> & _) | [_ Ha]]; by simplify_eq.
Qed.

Lemma set_layer_twice (st : Project) (comp i : nat) (layer' : Layer) :
  set_layer (set_layer st comp i layer') comp i layer' = set_layer st comp i layer'.
Proof.
  unfold set_layer. rewrite list_alter_alter_eq. apply list_alter_ext; [|done].
  intros c _. cbn. by rewrite list_insert_insert_eq.
Qed.

(** X16: a text row that succeeded can be read back and run again.
    After it, the search of the same tree for the same name finds a text
    layer of that name whose text is the row's value, and running the
    row once more succeeds and leaves the project as it is. *)
Theorem text_row_reads_back (host : Host) (lang : string) (allDupes : gmap string nat)
    (r r1 : Run) (row : Row) :
  isFootageType (row_type row) = false →
  apply_row host lang allDupes r row = Some r1 →
  success (stats r1) = S (success (stats r)) →
  ∃ dupeMaster value comp i n,
    row !! lang = Some value
    ∧ allDupes !! js_str (row !! "comp_name") = Some dupeMaster
    ∧ row !! "layer_name" = Some n
    ∧ findLayerDeep (project r1) dupeMaster (row !! "layer_name") = Some (Some (comp, i))
    ∧ comp_layers (project r1) comp !! i = Some (TextLayer n value)
    ∧ apply_row host lang allDupes r1 row
      = Some (succeed r1 comp i (TextLayer n value))
    ∧ project (succeed r1 comp i (TextLayer n value)) = project r1.
Proof.
  intros Htype Hrun Hsucc.
  assert (∀ x, Some x = Some r1 → success (stats x) = success (stats r) → False) as Hno
    by (intros x [= <-]; lia).
  unfold apply_row in Hrun.
  destruct (row !! lang) as [[|ch value]|] eqn:Hvalue;
    [exfalso; by eapply Hno| |exfalso; by eapply Hno].
  destruct (allDupes !! _) as [dupeMaster|] eqn:Hdupe;
    [|exfalso; by eapply Hno].
  destruct (findLayerDeep _ _ _) as [[[comp i]|]|] eqn:Hfound; cbn [mbind option_bind] in Hrun;
    [|exfalso; by eapply Hno|done].
  destruct (findLayerDeep_at_named _ _ _ _ _ _ Hfound) as (old & Hold & Hname).
  rewrite Hold in Hrun. cbn [default from_option id] in Hrun. unfold replace_layer in Hrun.
  rewrite Htype in Hrun.
  destruct (replaceText old (String ch value)) as [layer'|] eqn:Hrep;
    [|exfalso; by eapply Hno].
  apply replaceText_name in Hrep as (Hn & Hs & ->). simplify_eq.
  pose proof (set_layer_same_shape (project r) comp i _ old Hold Hn Hs) as Hshape.
  assert (comp_layers (project (succeed r comp i (TextLayer (layer_name old) (String ch value))))
            comp !! i = Some (TextLayer (layer_name old) (String ch value))) as Hnew.
  { cbn [succeed project]. rewrite (proj2 (set_layer_lookup _ _ _ _ _)).
    rewrite decide_True by done. apply list_lookup_insert_eq. by eapply lookup_lt_Some. }
  assert (findLayerDeep (project (succeed r comp i
                                    (TextLayer (layer_name old) (String ch value))))
            dupeMaster (row !! "layer_name") = Some (Some (comp, i))) as Hfound'.
  { unfold findLayerDeep in *. cbn [succeed project].
    rewrite (proj1 Hshape). by rewrite (findLayerDeep_at_shape _ _ _ _ Hshape). }
  exists dupeMaster, (String ch value), comp, i, (layer_name old).
  split; [done|]. split; [done|]. split; [done|]. split; [done|]. split; [done|].
  split.
  - unfold apply_row. rewrite Hvalue, Hdupe, Hfound'. cbn [mbind option_bind].
    rewrite Hnew. cbn [default from_option id]. unfold replace_layer. by rewrite Htype.
  - cbn [succeed project]. apply set_layer_twice.
Qed.

Lemma text_row_reads_back_witness :
  let r := {| project := two_headlines;
              stats := {| success := 0; skipped := 0; errors := 0 |};
              errorLog := [] |} in
  let row : Row := {[ "comp_name" := "Main"; "layer_name" := "Headline"; "en" := "Hi" ]} in
  let r1 := succeed r 1 0 (TextLayer "Headline" "Hi") in
  ∃ dupeMaster value comp i n,
    row !! "en" = Some value
    ∧ ({[ "Main" := 0 ]} : gmap string nat) !! js_str (row !! "comp_name") = Some dupeMaster
    ∧ row !! "layer_name" = Some n
    ∧ findLayerDeep (project r1) dupeMaster (row !! "layer_name") = Some (Some (comp, i))
    ∧ comp_layers (project r1) comp !! i = Some (TextLayer n value)
    ∧ apply_row any_file "en" {[ "Main" := 0 ]} r1 row
      = Some (succeed r1 comp i (TextLayer n value))
    ∧ project (succeed r1 comp i (TextLayer n value)) = project r1.
Proof.
  intros r row r1.
  apply (text_row_reads_back any_file "en" {[ "Main" := 0 ]} r r1 row); reflexivity.
Defined.

(** ** Footage rows *)

Lemma replaceFootage_Some (host : Host) (layer layer' : Layer) (filePath : string) :
  replaceFootage host layer filePath = Some layer' →
  fileExists host filePath = true ∧ importFile host filePath = true
  ∧ layer' = AVLayer (layer_name layer) (FootageSource filePath).
Proof.
  unfold replaceFootage. destruct (fileExists _ _); [|done]. destruct (importFile _ _); [|done].
  cbn [negb]. destruct layer; intros; by simplify_eq.
Qed.

(** X22: a footage or image row counts as a success only for a file that
    exists and that the host imports; the layer the search found in the
    copy of the row's comp then shows that file, under its old name.
    When the file does not exist the row is an error and the project is
    as it was. *)
Theorem footage_row_needs_file (host : Host) (lang : string) (allDupes : gmap string nat)
    (r r1 : Run) (row : Row) :
  isFootageType (row_type row) = true →
  apply_row host lang allDupes r row = Some r1 →
  (success (stats r1) = S (success (stats r)) →
   ∃ dupeMaster filePath comp i n,
     row !! lang = Some filePath
     ∧ allDupes !! js_str (row !! "comp_name") = Some dupeMaster
     ∧ row !! "layer_name" = Some n
     ∧ findLayerDeep (project r) dupeMaster (row !! "layer_name") = Some (Some (comp, i))
     ∧ fileExists host filePath = true ∧ importFile host filePath = true
     ∧ comp_layers (project r1) comp !! i = Some (AVLayer n (FootageSource filePath)))
  ∧ (∀ filePath, row !! lang = Some filePath → filePath ≠ "" →
       fileExists host filePath = false →
       project r1 = project r ∧ success (stats r1) = success (stats r)
       ∧ errors (stats r1) = S (errors (stats r))).
Proof.
  intros Htype Hrun.
  assert (∀ x, Some x = Some r1 → success (stats x) = success (stats r) →
            success (stats r1) ≠ S (success (stats r))) as Hno
    by (intros x [= <-]; lia).
  unfold apply_row in Hrun.
  destruct (row !! lang) as [[|ch value]|] eqn:Hvalue.
  1, 3: split; [intros Hs; exfalso; by eapply Hno|intros fp ? ?; by simplify_eq].
  destruct (allDupes !! _) as [dupeMaster|] eqn:Hdupe.
  2: { split; [intros Hs; exfalso; by eapply Hno|]. by intros; simplify_eq. }
  destruct (findLayerDeep _ _ _) as [[[comp i]|]|] eqn:Hfound; cbn [mbind option_bind] in Hrun;
    [| |done].
  2: { split; [intros Hs; exfalso; by eapply Hno|]. by intros; simplify_eq. }
  destruct (findLayerDeep_at_named _ _ _ _ _ _ Hfound) as (old & Hold & Hname).
  rewrite Hold in Hrun. cbn [default from_option id] in Hrun. unfold replace_layer in Hrun.
  rewrite Htype in Hrun.
  destruct (replaceFootage host old (String ch value)) as [layer'|] eqn:Hrep.
  - apply replaceFootage_Some in Hrep as (Hex & Himp & ->). simplify_eq. split.
    + intros _. exists dupeMaster, (String ch value), comp, i, (layer_name old).
      split; [done|]. split; [done|]. split; [done|]. split; [done|]. split; [done|].
      split; [done|]. cbn [succeed project].
      rewrite (proj2 (set_layer_lookup _ _ _ _ _)), decide_True by done.
      apply list_lookup_insert_eq. by eapply lookup_lt_Some.
    + intros fp ? _ Hfp. simplify_eq. congruence.
  - simplify_eq. split; [intros Hs; exfalso; by eapply Hno|]. by intros.
Qed.

Lemma footage_row_needs_file_witness :
  let r := {| project := [ {| name := "Main"; parentFolder := [];
                              layers := [AVLayer "Logo" (FootageSource "old.png")] |} ];
              stats := {| success := 0; skipped := 0; errors := 0 |};
              errorLog := [] |} in
  let row : Row := {[ "comp_name" := "Main"; "layer_name" := "Logo"; "type" := "image";
                      "en" := "new.png" ]} in
  let r1 := succeed r 0 0 (AVLayer "Logo" (FootageSource "new.png")) in
  (success (stats r1) = S (success (stats r)) →
   ∃ dupeMaster filePath comp i n,
     row !! "en" = Some filePath
     ∧ ({[ "Main" := 0 ]} : gmap string nat) !! js_str (row !! "comp_name") = Some dupeMaster
     ∧ row !! "layer_name" = Some n
     ∧ findLayerDeep (project r) dupeMaster (row !! "layer_name") = Some (Some (comp, i))
     ∧ fileExists any_file filePath = true ∧ importFile any_file filePath = true
     ∧ comp_layers (project r1) comp !! i = Some (AVLayer n (FootageSource filePath)))
  ∧ (∀ filePath, row !! "en" = Some filePath → filePath ≠ "" →
       fileExists any_file filePath = false →
       project r1 = project r ∧ success (stats r1) = success (stats r)
       ∧ errors (stats r1) = S (errors (stats r))).
Proof.
  intros r row r1.
  apply (footage_row_needs_file any_file "en" {[ "Main" := 0 ]} r r1 row); reflexivity.
Defined.

(** ** The project during a run *)

Lemma comp_name_app (st news : Project) (c : nat) :
  c < length st → comp_name (st ++ news) c = comp_name st c.
Proof. intros Hc. unfold comp_name. by rewrite lookup_app_l. Qed.

Lemma comp_layers_app (st news : Project) (c : nat) :
  c < length st → comp_layers (st ++ news) c = comp_layers st c.
Proof. intros Hc. unfold comp_layers. by rewrite lookup_app_l. Qed.

Lemma child_app (st news : Project) (c d : nat) :
  c < length st → child (st ++ news) c d ↔ child st c d.
Proof. intros Hc. unfold child. by rewrite comp_layers_app. Qed.

Lemma redirected_sub_comp (st : Project) (dupeMap : gmap string nat) (l : Layer) (v : nat) :
  sub_comp (redirected st dupeMap l) = Some v →
  ∃ d, sub_comp l = Some d
       ∧ (dupeMap !! comp_name st d = Some v
          ∨ (dupeMap !! comp_name st d = None ∧ v = d)).
Proof.
  destruct l as [n t | n src | n]; [done| |done].
  destruct src as [d|f]; [|done].
  cbn [redirected]. destruct (dupeMap !! comp_name st d) as [dupe|] eqn:Hd;
    intros Hv; exists d; cbv in Hv; simplify_eq; auto.
Qed.

Lemma child_lookup (st : Project) (c d : nat) :
  child st c d ↔ ∃ comp l, st !! c = Some comp ∧ l ∈ layers comp ∧ sub_comp l = Some d.
Proof.
  unfold child, comp_layers. split.
  - intros (l & Hl & Hd). destruct (st !! c) as [comp|]; [|by apply elem_of_nil in Hl].
    by exists comp, l.
  - intros (comp & l & -> & Hl & Hd). by exists l.
Qed.

Lemma grown_start (st0 : Project) : valid_sources st0 = true → grown st0 st0.
Proof.
  intros Hv. split; [done|by apply valid_child|].
  intros c d Hc (comp & _ & Hcomp & _)%child_lookup.
  apply lookup_lt_Some in Hcomp. lia.
Qed.

Lemma grown_original (st0 st : Project) (c : nat) :
  grown st0 st → c < length st0 →
  comp_name st c = comp_name st0 c ∧ comp_layers st c = comp_layers st0 c.
Proof.
  intros [[k ->] _ _] Hc. by rewrite comp_name_app, comp_layers_app.
Qed.

Lemma grown_append (st0 st news : Project) :
  grown st0 st →
  Forall (links_within (length st) (length (st ++ news))) news →
  grown st0 (st ++ news).
Proof.
  intros [Hpre Hval Hclo] Hnews. rewrite Forall_forall in Hnews.
  pose proof (prefix_length _ _ Hpre) as Hlen.
  assert (∀ c d, child (st ++ news) c d →
            (c < length st ∧ child st c d) ∨ (length st ≤ d < length (st ++ news))) as Hcases.
  { intros c d (comp & l & Hcomp & Hl & Hd)%child_lookup.
    apply lookup_app_Some in Hcomp as [Hcomp | [Hge Hcomp]].
    - left. split; [by eapply lookup_lt_Some|]. apply child_lookup. by exists comp, l.
    - right. apply (Hnews comp) with (l := l); [|done..]. by eapply list_elem_of_lookup_2. }
  split.
  - etrans; [done|]. by apply prefix_app_r.
  - intros c d [[_ Hcd] | ?]%Hcases; [|lia].
    specialize (Hval c d Hcd). rewrite length_app. lia.
  - intros c d Hc [[_ Hcd] | ?]%Hcases; [by eapply Hclo|lia].
Qed.

Section run_grown.
Variable rank : nat → nat.
Variable st0 : Project.
Hypothesis Hranked : ranked rank st0 = true.

Lemma original_child (st : Project) (c d : nat) :
  grown st0 st → c < length st0 → child st c d →
  d < length st0 ∧ rank d < rank c.
Proof.
  intros [[k ->] _ _] Hc Hcd. apply child_app in Hcd as (l & Hl & Hd); [|done].
  by eapply ranked_child.
Qed.

(** A search that starts in a copy ends in a copy. *)
Lemma findLayerDeep_at_copy (depth : nat) (st : Project) (comp : nat) (n : JsString)
    (c i : nat) :
  grown st0 st → length st0 ≤ comp →
  findLayerDeep_at depth st comp n = Some (Some (c, i)) → length st0 ≤ c.
Proof.
  intros Hg. revert comp. induction depth as [|depth IH]; intros comp Hcomp H; [done|].
  cbn [findLayerDeep_at] in H. destruct (list_find _ _) as [[j l]|]; [by simplify_eq|].
  apply descend_found in H as (l & d & Hl & Hd & H).
  apply (IH d); [|done]. apply (grown_closed _ _ Hg comp); [done|by exists l].
Qed.

Lemma elem_of_insert_layer (ls : list Layer) (i : nat) (l' l : Layer) :
  l ∈ <[i := l']> ls → l = l' ∨ l ∈ ls.
Proof.
  intros [j Hj]%list_elem_of_lookup.
  apply list_lookup_insert_Some in Hj as [(-> & -> & _) | [_ Hj]]; [by left|].
  right. by eapply list_elem_of_lookup_2.
Qed.

(** Writing a layer that holds no comp into a copy. *)
Lemma set_layer_grown (st : Project) (comp i : nat) (layer' : Layer) :
  grown st0 st → length st0 ≤ comp → sub_comp layer' = None →
  grown st0 (set_layer st comp i layer').
Proof.
  intros [[k ->] Hval Hclo] Hcomp Hnone.
  assert (∀ c d, child (set_layer (st0 ++ k) comp i layer') c d → child (st0 ++ k) c d)
    as Hless.
  { intros c d (cmp & l & Hc & Hl & Hd)%child_lookup. apply child_lookup.
    unfold set_layer in Hc. destruct (decide (comp = c)) as [->|Hne].
    - rewrite list_lookup_alter_eq in Hc.
      destruct ((st0 ++ k) !! c) as [old|] eqn:Hold; [|done].
      cbn in Hc. simplify_eq. cbn [layers] in Hl.
      apply elem_of_insert_layer in Hl as [->|Hl]; [congruence|].
      by exists old, l.
    - rewrite list_lookup_alter_ne in Hc by done. by exists cmp, l. }
  split.
  - unfold set_layer. rewrite alter_app_r_alt by done. by apply prefix_app_r.
  - intros c d Hcd%Hless. unfold set_layer. rewrite length_alter. by eapply Hval.
  - intros c d Hc Hcd%Hless. by eapply Hclo.
Qed.

Lemma set_layer_prefix (st : Project) (comp i : nat) (layer' : Layer) :
  length st0 ≤ comp → st0 `prefix_of` st → st0 `prefix_of` set_layer st comp i layer'.
Proof.
  intros Hcomp [k ->]. unfold set_layer.
  rewrite alter_app_r_alt by done. by apply prefix_app_r.
Qed.

Lemma replaceText_leaf (layer layer' : Layer) (v : string) :
  replaceText layer v = Some layer' → sub_comp layer' = None.
Proof. destruct layer; cbn; intros; by simplify_eq. Qed.

Lemma replaceFootage_leaf (host : Host) (layer layer' : Layer) (v : string) :
  replaceFootage host layer v = Some layer' → sub_comp layer' = None.
Proof.
  unfold replaceFootage. destruct (negb _); [done|]. destruct (negb _); [done|].
  destruct layer; intros; by simplify_eq.
Qed.

Lemma apply_row_grown (host : Host) (lang : string) (allDupes : gmap string nat)
    (r r' : Run) (row : Row) :
  grown st0 (project r) →
  entries_within (length st0) (length (project r)) allDupes →
  apply_row host lang allDupes r row = Some r' →
  grown st0 (project r') ∧ length (project r') = length (project r).
Proof.
  intros Hg Hent. unfold apply_row.
  destruct (row !! lang) as [[|ch value]|]; [by intros; simplify_eq| |by intros; simplify_eq].
  destruct (allDupes !! _) as [dupeMaster|] eqn:Hdupe; [|by intros; simplify_eq].
  destruct (findLayerDeep _ _ _) as [[[comp i]|]|] eqn:Hfind; cbn [mbind option_bind];
    [|by intros; simplify_eq|done].
  intros. simplify_eq. unfold replace_layer.
  assert (length st0 ≤ comp) as Hcomp.
  { eapply findLayerDeep_at_copy; [done| |exact Hfind]. by eapply Hent. }
  destruct (isFootageType _).
  - destruct (replaceFootage _ _ _) as [layer'|] eqn:Hrep; [|done].
    cbn [succeed project]. split; [|by unfold set_layer; rewrite length_alter].
    apply set_layer_grown; [done..|by eapply replaceFootage_leaf].
  - destruct (replaceText _ _) as [layer'|] eqn:Hrep; [|done].
    cbn [succeed project]. split; [|by unfold set_layer; rewrite length_alter].
    apply set_layer_grown; [done..|by eapply replaceText_leaf].
Qed.

Lemma apply_rows_grown (host : Host) (lang : string) (allDupes : gmap string nat)
    (rows : list Row) (r r' : Run) :
  grown st0 (project r) →
  entries_within (length st0) (length (project r)) allDupes →
  apply_rows host lang allDupes r rows = Some r' →
  grown st0 (project r').
Proof.
  revert r. induction rows as [|row rows IH]; intros r Hg Hent H.
  { cbn in H. by simplify_eq. }
  cbn [apply_rows] in H.
  destruct (apply_row host lang allDupes r row) as [r1|] eqn:Hrow; [|done].
  cbn in H. destruct (apply_row_grown _ _ _ _ _ _ Hg Hent Hrow) as [Hg1 Hlen].
  apply (IH r1); [done| |done]. by rewrite Hlen.
Qed.

End run_grown.

Lemma findComp_lt (st : Project) (n : string) (c : nat) :
  findComp st n = Some c → c < length st ∧ comp_name st c = n.
Proof.
  unfold findComp. destruct (list_find _ _) as [[i comp]|] eqn:Hfind; [|done].
  cbn. intros. simplify_eq. apply list_find_Some in Hfind as (Hc & Hn & _).
  split; [by eapply lookup_lt_Some|]. unfold comp_name. by rewrite Hc.
Qed.

Lemma find_masters_lt (st : Project) (masterList : list string) (masters : list nat) :
  find_masters st masterList = Some (inr masters) →
  Forall2 (λ n m, findComp st n = Some m) masterList masters.
Proof.
  revert masters. induction masterList as [|n ns IH]; intros masters H.
  { cbn in H. simplify_eq. constructor. }
  cbn [find_masters] in H. destruct (findComp st n) as [c|] eqn:Hc; [|done].
  destruct (discoverAllSubComps st c); [|done]. cbn [mbind option_bind] in H.
  destruct (find_masters st ns) as [[missing|comps]|]; cbn in H; [done| |done].
  simplify_eq. constructor; [done|]. by apply IH.
Qed.

Lemma find_masters_comps (st : Project) (masterList : list string) (masters : list nat) :
  find_masters st masterList = Some (inr masters) → Forall (λ m, m < length st) masters.
Proof.
  intros Hfind%find_masters_lt. induction Hfind as [|n m ns ms Hnm _ IH]; [done|].
  constructor; [|done]. by apply findComp_lt in Hnm as [? _].
Qed.

Lemma find_masters_missing (st : Project) (masterList : list string) (n : string) :
  find_masters st masterList = Some (inl n) → n ∈ masterList ∧ findComp st n = None.
Proof.
  induction masterList as [|m ms IH]; intros H; [done|].
  cbn [find_masters] in H. destruct (findComp st m) as [c|] eqn:Hc.
  - destruct (discoverAllSubComps st c); [|done]. cbn [mbind option_bind] in H.
    destruct (find_masters st ms) as [[missing|comps]|]; cbn in H; [|done..].
    simplify_eq. destruct IH as [? ?]; [done|]. split; [by right|done].
  - simplify_eq. split; [left|done].
Qed.

Section redirected_stable.
Variable st : Project.

Lemma redirected_stable (news : Project) (dupeMap dupeMapF : gmap string nat) (l : Layer) :
  (∀ d, sub_comp l = Some d → d < length st ∧ is_Some (dupeMap !! comp_name st d)) →
  dupeMap ⊆ dupeMapF →
  redirected (st ++ news) dupeMap l = redirected st dupeMapF l.
Proof.
  intros Hkid Hsub. destruct l as [n t | n [d|f] | n]; try done.
  destruct (Hkid d eq_refl) as [Hd [v Hv]]. cbn [redirected].
  rewrite comp_name_app by done.
  by rewrite Hv, (lookup_weaken _ _ _ _ Hv Hsub).
Qed.

End redirected_stable.

Lemma Forall2_fmap_same {A B : Type} (P : A → B → Prop) (f : A → B) (l : list A) :
  Forall (λ x, P x (f x)) l → Forall2 P l (f <$> l).
Proof. induction 1; constructor; done. Qed.

Lemma redirected_relinked (st : Project) (dupeMap : gmap string nat) (l : Layer) :
  (∀ s, sub_comp l = Some s → is_Some (dupeMap !! comp_name st s)) →
  relinked st dupeMap l (redirected st dupeMap l).
Proof.
  intros Hkid. unfold relinked. destruct l as [n t | n [s|f] | n]; try done.
  destruct (Hkid s eq_refl) as [ds Hds]. cbn [sub_comp layer_source redirected layer_name].
  rewrite Hds. by exists ds.
Qed.

Lemma redirected_name (st : Project) (dupeMap : gmap string nat) (l : Layer) :
  layer_name (redirected st dupeMap l) = layer_name l.
Proof.
  destruct l as [?|? [src|?]|?]; try done. cbn [redirected].
  by destruct (dupeMap !! _).
Qed.

Lemma redirected_names_sub_comp (st : Project) (dupeMap : gmap string nat) (l : Layer) :
  sub_comp (redirected st dupeMap l)
  = (λ d, default d (dupeMap !! comp_name st d)) <$> sub_comp l.
Proof.
  destruct l as [?|? [src|?]|?]; try done. cbn.
  by destruct (dupeMap !! _).
Qed.

Lemma list_find_redirected (st : Project) (dupeMap : gmap string nat) (n : JsString)
    (ls : list Layer) :
  fst <$> list_find (λ l, Some (layer_name l) = n) (redirected st dupeMap <$> ls)
  = fst <$> list_find (λ l, Some (layer_name l) = n) ls.
Proof.
  induction ls as [|l ls IH]; [done|].
  cbn [fmap list_fmap list_find]. rewrite redirected_name. destruct (decide _); [done|].
  change (list_fmap Layer Layer (redirected st dupeMap) ls) with (redirected st dupeMap <$> ls).
  destruct (list_find _ (redirected st dupeMap <$> ls)) as [[i1 x1]|],
    (list_find _ ls) as [[i2 x2]|]; cbn in *; by simplify_eq.
Qed.

(** ** Runs that end *)

Lemma ranked_intro (rank : nat → nat) (st : Project) :
  (∀ c comp, st !! c = Some comp →
     rank c < length st
     ∧ ∀ l d, l ∈ layers comp → sub_comp l = Some d → d < length st ∧ rank d < rank c) →
  ranked rank st = true.
Proof.
  intros H. unfold ranked. apply forallb_forall. intros [c comp] Hin.
  apply list_elem_of_In, list_elem_of_lookup in Hin as [i Hi].
  rewrite list_lookup_imap in Hi. destruct (st !! i) as [comp'|] eqn:Hc; [|done].
  cbn in Hi. simplify_eq. destruct (H c comp Hc) as [Hrank Hkids].
  unfold ranked_comp. cbn [fst snd]. apply andb_true_iff. split; [by apply Nat.ltb_lt|].
  apply forallb_forall. intros l Hl. apply list_elem_of_In in Hl.
  destruct (sub_comp l) as [d|] eqn:Hd; [|done].
  destruct (Hkids l d Hl Hd). apply andb_true_iff. split; by apply Nat.ltb_lt.
Qed.

Lemma set_layer_ranked (rank : nat → nat) (st : Project) (comp i : nat) (layer' : Layer) :
  ranked rank st = true → sub_comp layer' = None →
  ranked rank (set_layer st comp i layer') = true.
Proof.
  intros Hr Hnone. apply ranked_intro. intros c cmp Hc.
  unfold set_layer in *. rewrite length_alter.
  destruct (decide (comp = c)) as [->|Hne].
  - rewrite list_lookup_alter_eq in Hc. destruct (st !! c) as [old|] eqn:Hold; [|done].
    cbn in Hc. simplify_eq. destruct (ranked_lookup rank st c old Hr Hold) as [Hrank Hkids].
    split; [done|]. cbn [layers]. intros l d Hl Hd.
    apply list_elem_of_lookup in Hl as [j Hj].
    apply list_lookup_insert_Some in Hj as [(_ & -> & _) | [_ Hj]]; [congruence|].
    apply (Hkids l d); [by eapply list_elem_of_lookup_2|done].
  - rewrite list_lookup_alter_ne in Hc by done. by apply (ranked_lookup rank st c cmp).
Qed.

Lemma distinct_comp_names (st : Project) (l : list nat) :
  NoDup (name <$> st) → NoDup l → Forall (λ c, c < length st) l →
  NoDup (comp_name st <$> l).
Proof.
  intros Hnames Hl Hlt. rewrite Forall_forall in Hlt.
  apply NoDup_fmap_2_strong; [|done]. intros x y Hx Hy Hxy.
  destruct (lookup_lt_is_Some_2 st x (Hlt x Hx)) as [cx Hcx].
  destruct (lookup_lt_is_Some_2 st y (Hlt y Hy)) as [cy Hcy].
  unfold comp_name in Hxy. rewrite Hcx, Hcy in Hxy. cbn in Hxy.
  apply (NoDup_lookup (name <$> st) x y (name cx)); [done|..].
  - by rewrite list_lookup_fmap, Hcx.
  - by rewrite list_lookup_fmap, Hcy, Hxy.
Qed.

Section run_settled.
Variable st0 : Project.

Lemma apply_row_settled (host : Host) (lang : string) (allDupes : gmap string nat)
    (r : Run) (row : Row) :
  settled st0 (project r) →
  entries_within (length st0) (length (project r)) allDupes →
  ∃ r', apply_row host lang allDupes r row = Some r'
        ∧ settled st0 (project r') ∧ length (project r') = length (project r).
Proof.
  intros [Hg [rank' Hr']] Hent.
  assert (∀ msg, settled st0 (project (fail r msg))) as Hfail by (by split; [|exists rank']).
  unfold apply_row.
  destruct (row !! lang) as [[|ch value]|];
    [by eexists; split; [|split; [split; [|exists rank']|]]| |
     by eexists; split; [|split; [split; [|exists rank']|]]].
  destruct (allDupes !! _) as [dupeMaster|] eqn:Hdupe; [|by eexists].
  destruct (findLayerDeep_is_Some rank' (project r) dupeMaster (row !! "layer_name") Hr')
    as [found Hfound]; [by eapply Hent|].
  rewrite Hfound. cbn [mbind option_bind]. destruct found as [[comp i]|]; [|by eexists].
  eexists. split; [done|]. unfold replace_layer.
  assert (length st0 ≤ comp) as Hcomp.
  { eapply (findLayerDeep_at_copy st0); [done| |exact Hfound]. by eapply Hent. }
  assert (∀ layer', sub_comp layer' = None →
            settled st0 (set_layer (project r) comp i layer')
            ∧ length (set_layer (project r) comp i layer') = length (project r)) as Hset.
  { intros layer' Hnone. split; [|by unfold set_layer; rewrite length_alter].
    split; [by apply set_layer_grown|]. exists rank'. by apply set_layer_ranked. }
  destruct (isFootageType _).
  - destruct (replaceFootage _ _ _) as [layer'|] eqn:Hrep; [|by split].
    cbn [succeed project]. by eapply Hset, replaceFootage_leaf.
  - destruct (replaceText _ _) as [layer'|] eqn:Hrep; [|by split].
    cbn [succeed project]. by eapply Hset, replaceText_leaf.
Qed.

Lemma apply_rows_settled (host : Host) (lang : string) (allDupes : gmap string nat)
    (rows : list Row) (r : Run) :
  settled st0 (project r) →
  entries_within (length st0) (length (project r)) allDupes →
  ∃ r', apply_rows host lang allDupes r rows = Some r' ∧ settled st0 (project r').
Proof.
  revert r. induction rows as [|row rows IH]; intros r Hs Hent; [by exists r|].
  cbn [apply_rows].
  destruct (apply_row_settled host lang allDupes r row Hs Hent) as (r1 & -> & Hs1 & Hlen).
  cbn [mbind option_bind]. apply IH; [done|]. by rewrite Hlen.
Qed.

Lemma apply_rows_settled_length (host : Host) (lang : string) (allDupes : gmap string nat)
    (rows : list Row) (r : Run) :
  settled st0 (project r) →
  entries_within (length st0) (length (project r)) allDupes →
  ∃ r', apply_rows host lang allDupes r rows = Some r'
        ∧ settled st0 (project r') ∧ length (project r') = length (project r).
Proof.
  revert r. induction rows as [|row rows IH]; intros r Hs Hent; [by exists r|].
  cbn [apply_rows].
  destruct (apply_row_settled host lang allDupes r row Hs Hent)
    as (r1 & -> & Hs1 & Hlen).
  cbn [mbind option_bind]. destruct (IH r1) as (r' & Hrun & Hs' & Hlen'); [done|by rewrite Hlen|].
  exists r'. split; [done|]. split; [done|]. lia.
Qed.

End run_settled.

Lemma find_masters_total (st : Project) (masterList : list string) :
  valid_sources st = true → is_Some (find_masters st masterList).
Proof.
  intros Hv. induction masterList as [|n ns [rest Hrest]]; [by eexists|].
  cbn [find_masters]. destruct (findComp st n) as [comp|]; [|by eexists].
  destruct (discoverAllSubComps_total st (valid_child st Hv) comp) as (all & -> & _).
  cbn [mbind option_bind]. rewrite Hrest. by eexists.
Qed.

Lemma masterCompNames_from_elem (rows : list Row) (seen : list string) (n : string) :
  n ∈ seen ∨ (∃ row, row ∈ rows ∧ js_str (row !! "comp_name") = n) →
  n ∈ masterCompNames_from rows seen.
Proof.
  revert seen. induction rows as [|row rows IH]; intros seen H.
  { destruct H as [?|(row & []%elem_of_nil & _)]. done. }
  cbn [masterCompNames_from]. apply IH.
  destruct H as [Hseen | (row' & [->|Hrow']%elem_of_cons & Hn)].
  - left. case_bool_decide; [done|]. apply elem_of_app. by left.
  - left. subst n. case_bool_decide; [done|]. apply elem_of_app. right. left.
  - right. by exists row'.
Qed.

Lemma masterCompNames_from_inv (rows : list Row) (seen : list string) (n : string) :
  n ∈ masterCompNames_from rows seen →
  n ∈ seen ∨ ∃ row, row ∈ rows ∧ js_str (row !! "comp_name") = n.
Proof.
  revert seen. induction rows as [|row rows IH]; intros seen; [by left|].
  cbn [masterCompNames_from]. intros [Hseen | (row' & Hrow' & Hn)]%IH.
  - case_bool_decide; [by left|].
    apply elem_of_app in Hseen as [?| ->%list_elem_of_singleton]; [by left|].
    right. exists row. split; [left|done].
  - right. exists row'. split; [by right|done].
Qed.

Lemma masterCompNames_from_NoDup (rows : list Row) (seen : list string) :
  NoDup seen → NoDup (masterCompNames_from rows seen).
Proof.
  revert seen. induction rows as [|row rows IH]; intros seen Hnd; [done|].
  cbn [masterCompNames_from]. apply IH. case_bool_decide as Hin; [done|].
  apply NoDup_app. split; [done|]. split; [|apply NoDup_singleton].
  by intros x Hx ->%list_elem_of_singleton.
Qed.

Lemma layerCheck_total (rank : nat → nat) (st : Project) (rows : list Row) :
  ranked rank st = true →
  (∀ row, row ∈ rows → is_Some (findComp st (js_str (row !! "comp_name")))) →
  is_Some (layerCheck st rows).
Proof.
  intros Hr. induction rows as [|row rows IH]; intros Hrows; [by eexists|].
  cbn [layerCheck]. destruct (Hrows row) as [c Hc]; [left|]. rewrite Hc.
  change (default 0 (Some c)) with c.
  destruct (findLayerDeep_is_Some rank st c (row !! "layer_name") Hr) as [found ->].
  { by apply findComp_lt in Hc as [? _]. }
  cbn [mbind option_bind]. destruct IH as [rest ->]; [|by eexists].
  intros row' Hrow'. apply Hrows. by right.
Qed.

(** ** How many comps a run makes *)

Lemma scan_ext (visit1 visit2 : nat → list nat → option (list nat)) (ls : list Layer) :
  (∀ l d collected, l ∈ ls → sub_comp l = Some d → visit1 d collected = visit2 d collected) →
  ∀ collected, scan visit1 ls collected = scan visit2 ls collected.
Proof.
  induction ls as [|l ls IH]; intros Hv collected; [done|].
  assert (∀ collected, scan visit1 ls collected = scan visit2 ls collected) as IH'.
  { apply IH. intros l' d c Hl'. apply Hv. by right. }
  cbn [scan]. destruct (sub_comp l) as [d|] eqn:Hd; [|done].
  destruct (bool_decide _); [done|].
  rewrite (Hv l d); [|left|done]. destruct (visit2 _ _); [|done]. apply IH'.
Qed.

Lemma scan_mono (visit1 visit2 : nat → list nat → option (list nat)) (ls : list Layer) :
  (∀ d collected r, visit1 d collected = Some r → visit2 d collected = Some r) →
  ∀ collected r, scan visit1 ls collected = Some r → scan visit2 ls collected = Some r.
Proof.
  intros Hv. induction ls as [|l ls IH]; intros collected r H; [done|].
  cbn [scan] in *. destruct (sub_comp l) as [d|]; [|by apply IH].
  destruct (bool_decide _); [by apply IH|].
  destruct (visit1 d _) as [c1|] eqn:Hc1; [|done].
  rewrite (Hv _ _ _ Hc1). cbn [mbind option_bind] in *. by apply IH.
Qed.

Lemma discoverAllSubComps_at_mono (st : Project) (depth depth' : nat) :
  depth ≤ depth' →
  ∀ comp collected r, discoverAllSubComps_at depth st comp collected = Some r →
    discoverAllSubComps_at depth' st comp collected = Some r.
Proof.
  revert depth'. induction depth as [|depth IH]; intros depth' Hle comp collected r H;
    [done|].
  destruct depth' as [|depth']; [lia|]. cbn [discoverAllSubComps_at] in *.
  eapply scan_mono; [|done]. apply IH. lia.
Qed.

Section discovery_grown.
Variable rank : nat → nat.
Variable st0 : Project.
Hypothesis Hranked : ranked rank st0 = true.

Lemma discoverAllSubComps_at_grown (st : Project) (depth : nat) :
  grown st0 st →
  ∀ comp collected, comp < length st0 →
    discoverAllSubComps_at depth st comp collected
    = discoverAllSubComps_at depth st0 comp collected.
Proof.
  intros Hg. induction depth as [|depth IH]; intros comp collected Hc; [done|].
  cbn [discoverAllSubComps_at].
  rewrite (proj2 (grown_original st0 st comp Hg Hc)).
  apply scan_ext. intros l d c Hl Hd. apply IH.
  apply (ranked_child rank st0 comp d l Hranked Hl Hd).
Qed.

(** The sub-comps of an original comp are found the same at every
    moment of the run. *)
Lemma discoverAllSubComps_grown (st : Project) (comp : nat) (allSubComps : list nat) :
  grown st0 st → comp < length st0 →
  discoverAllSubComps st0 comp = Some allSubComps →
  discoverAllSubComps st comp = Some allSubComps.
Proof.
  intros Hg Hc H. unfold discoverAllSubComps in *.
  rewrite discoverAllSubComps_at_grown by done.
  eapply discoverAllSubComps_at_mono; [|done].
  pose proof (prefix_length _ _ (grown_prefix _ _ Hg)). lia.
Qed.

End discovery_grown.

Lemma totalNewComps_from_scale (st : Project) (masters : list nat) (k total : nat) :
  totalNewComps_from st masters k total
  = (λ n1, total + k * n1) <$> totalNewComps_from st masters 1 0.
Proof.
  revert k total. induction masters as [|m masters IH]; intros k total.
  { cbn. f_equal. lia. }
  cbn [totalNewComps_from]. destruct (discoverAllSubComps st m) as [all|]; [|done].
  cbn [mbind option_bind]. rewrite (IH k), (IH 1 (0 + _)).
  destruct (totalNewComps_from st masters 1 0); [|done]. cbn. f_equal. lia.
Qed.

Lemma totalNewComps_from_shift (st : Project) (masters : list nat) (k total n : nat) :
  totalNewComps_from st masters k total = Some n →
  ∃ n1, totalNewComps_from st masters 1 0 = Some n1 ∧ n = total + k * n1.
Proof.
  rewrite totalNewComps_from_scale.
  destruct (totalNewComps_from st masters 1 0) as [n1|]; [|done].
  cbn. intros. simplify_eq. by exists n1.
Qed.

Lemma totalNewComps_from_total (st : Project) (masters : list nat) (k total : nat) :
  valid_sources st = true → is_Some (totalNewComps_from st masters k total).
Proof.
  intros Hv. revert total. induction masters as [|m masters IH]; intros total; [by eexists|].
  cbn [totalNewComps_from].
  destruct (discoverAllSubComps_total st (valid_child st Hv) m) as (all & -> & _).
  apply IH.
Qed.

(** ** Searching the copies *)

Section search_copies.
Variable st st' : Project.
Variable dupeMap : gmap string nat.
Variable tree : list nat.
Variable n : JsString.
Hypothesis Hmapped : ∀ x, x ∈ tree → is_Some (dupeMap !! comp_name st x).
Hypothesis Hcopy : ∀ x cx, x ∈ tree → dupeMap !! comp_name st x = Some cx →
  comp_layers st' cx = redirected st dupeMap <$> comp_layers st x.
Hypothesis Hclosed : ∀ x d, x ∈ tree → child st x d → d ∈ tree.

Lemma tree_rtc (x y : nat) : x ∈ tree → rtc (child st) x y → y ∈ tree.
Proof. intros Hx Hxy. induction Hxy as [|x y z Hxy _ IH]; [done|]. by eapply IH, Hclosed. Qed.

Lemma descend_copies (f f' : nat → option Found) (ls : list Layer) :
  (∀ l d, l ∈ ls → sub_comp l = Some d → d ∈ tree) →
  (∀ d cd, d ∈ tree → dupeMap !! comp_name st d = Some cd →
     f' cd = copied_place st dupeMap <$> f d) →
  (∀ d c i, d ∈ tree → f d = Some (Some (c, i)) → c ∈ tree) →
  descend f' (redirected st dupeMap <$> ls) = copied_place st dupeMap <$> descend f ls.
Proof.
  intros Hls Hf Hown. induction ls as [|l ls IH]; [done|].
  cbn [fmap list_fmap descend]. rewrite redirected_names_sub_comp.
  change (list_fmap Layer Layer (redirected st dupeMap) ls) with (redirected st dupeMap <$> ls).
  assert (descend f' (redirected st dupeMap <$> ls) = copied_place st dupeMap <$> descend f ls)
    as IH' by (apply IH; intros l' d' Hl'; apply Hls; by right).
  destruct (sub_comp l) as [d|] eqn:Hd; cbn [fmap option_fmap option_map]; [|done].
  assert (d ∈ tree) as Hdt by (eapply Hls; [left|done]).
  destruct (Hmapped d Hdt) as [cd Hcd]. rewrite Hcd. cbn [default from_option id].
  rewrite (Hf d cd Hdt Hcd).
  destruct (f d) as [[[c i]|]|] eqn:Hfd; cbn [fmap option_fmap option_map]; [|done..].
  destruct (Hmapped c (Hown d c i Hdt Hfd)) as [cc Hcc].
  unfold copied_place. cbn [mbind option_bind]. by rewrite Hcc.
Qed.

Lemma findLayerDeep_at_copies (depth : nat) (x cx : nat) :
  x ∈ tree → dupeMap !! comp_name st x = Some cx →
  findLayerDeep_at depth st' cx n
  = copied_place st dupeMap <$> findLayerDeep_at depth st x n.
Proof.
  revert x cx. induction depth as [|depth IH]; intros x cx Hx Hcx; [done|].
  cbn [findLayerDeep_at]. rewrite (Hcopy x cx Hx Hcx).
  pose proof (list_find_redirected st dupeMap n (comp_layers st x)) as Hfind.
  rewrite (descend_copies (λ sub, findLayerDeep_at depth st sub n)
             (λ sub, findLayerDeep_at depth st' sub n)).
  - destruct (list_find _ (redirected st dupeMap <$> comp_layers st x)) as [[i1 x1]|],
      (list_find _ (comp_layers st x)) as [[i2 x2]|]; cbn in Hfind; simplify_eq; [|done].
    cbn [fmap option_fmap option_map]. unfold copied_place. cbn [mbind option_bind].
    by rewrite Hcx.
  - intros l d Hl Hd. apply (Hclosed x); [done|by exists l].
  - intros d cd Hd Hcd. by apply IH.
  - intros d c i Hd Hfound. apply (tree_rtc d); [done|].
    by eapply findLayerDeep_at_owner.
Qed.

End search_copies.

(** ** Bottom-up ordering *)

Section ordering.
Context {engine : Engine}.
Variable st : Project.
Variable allSubComps : list nat.

Lemma is_processed_true (processed : gset string) (n : string) :
  is_processed processed n = true ↔ inherited n = true ∨ n ∈ processed.
Proof. unfold is_processed. by rewrite orb_true_iff, bool_decide_eq_true. Qed.

Lemma is_processed_false (processed : gset string) (n : string) :
  is_processed processed n = false ↔ inherited n = false ∧ n ∉ processed.
Proof. unfold is_processed. by rewrite orb_false_iff, bool_decide_eq_false. Qed.

Lemma sort_inv_start : sort_inv st allSubComps ∅ [].
Proof.
  split; [by intros ? ?%elem_of_nil | by apply NoDup_nil_2 | |by intros ? ?%elem_of_nil|done].
  intros n. split; [set_solver|]. by intros ?%elem_of_nil.
Qed.

Lemma allChildrenDone_true (processed : gset string) (sc : nat) :
  allChildrenDone st allSubComps processed sc = true
  ↔ ∀ d, child st sc d → d ∈ allSubComps →
      inherited (comp_name st d) = true ∨ comp_name st d ∈ processed.
Proof.
  unfold allChildrenDone. rewrite forallb_forall. split.
  - intros Hall d (l & Hl & Hd) Hin.
    specialize (Hall l (proj1 (list_elem_of_In _ _) Hl)). rewrite Hd in Hall.
    rewrite (bool_decide_eq_true_2 _ Hin) in Hall. cbn [andb] in Hall.
    apply negb_true_iff, negb_false_iff in Hall. by apply is_processed_true.
  - intros Hall l Hl. apply list_elem_of_In in Hl.
    destruct (sub_comp l) as [d|] eqn:Hd; [|done].
    case_bool_decide as Hin; [|done]. cbn [andb].
    rewrite (proj2 (is_processed_true processed (comp_name st d))); [done|].
    apply Hall; [by exists l|done].
Qed.

Lemma allChildrenDone_false (processed : gset string) (sc : nat) :
  allChildrenDone st allSubComps processed sc = false →
  ∃ d, child st sc d ∧ d ∈ allSubComps
       ∧ is_processed processed (comp_name st d) = false.
Proof.
  unfold allChildrenDone, child.
  induction (comp_layers st sc) as [|l ls IH]; [done|].
  cbn [forallb]. intros [Hl | Hls]%andb_false_iff.
  - destruct (sub_comp l) as [d|] eqn:Hd; [|done].
    apply negb_false_iff, andb_true_iff in Hl as [Hin Hnew].
    apply bool_decide_eq_true in Hin. apply negb_true_iff in Hnew.
    exists d. split; [|done]. exists l. split; [left|done].
  - destruct (IH Hls) as (d & (l' & Hl' & Hd) & ?). exists d. split; [|done].
    exists l'. split; [by right|done].
Qed.

Lemma sort_inv_push (processed : gset string) (sortedComps : list nat) (sc : nat) :
  sort_inv st allSubComps processed sortedComps → sc ∈ allSubComps →
  is_processed processed (comp_name st sc) = false →
  allChildrenDone st allSubComps processed sc = true →
  sort_inv st allSubComps ({[comp_name st sc]} ∪ processed) (sortedComps ++ [sc]).
Proof.
  intros [Hsub Hnd Hproc Hown Hord] Hsc [Hord_sc Hnew]%is_processed_false Hdone. split.
  - intros x [Hx | ->%list_elem_of_singleton]%elem_of_app; auto.
  - rewrite fmap_app. apply NoDup_app. split; [done|]. split; [|apply NoDup_singleton].
    intros n Hn ->%list_elem_of_singleton. by apply Hnew, Hproc.
  - intros n. rewrite fmap_app, elem_of_app, elem_of_union, elem_of_singleton, Hproc.
    cbn. rewrite list_elem_of_singleton. tauto.
  - intros x [Hx | ->%list_elem_of_singleton]%elem_of_app; auto.
  - intros i x d Hi Hchild Hd.
    destruct (decide (i < length sortedComps)) as [Hlt|Hge].
    + rewrite lookup_app_l in Hi by done.
      rewrite take_app_le by lia. by eapply Hord.
    + rewrite lookup_app_r in Hi by lia.
      apply list_lookup_singleton_Some in Hi as [Hi ->].
      rewrite take_app_ge by lia.
      replace (i - length sortedComps) with 0 by lia. rewrite take_0, app_nil_r.
      destruct (proj1 (allChildrenDone_true processed x) Hdone d Hchild Hd) as [?|Hin];
        [by left|right; by apply Hproc].
Qed.

Lemma sort_pass_inv (todo : list nat) (processed : gset string) (sortedComps : list nat) :
  (∀ x, x ∈ todo → x ∈ allSubComps) → sort_inv st allSubComps processed sortedComps →
  sort_inv st allSubComps (sort_pass st allSubComps todo processed sortedComps).1
           (sort_pass st allSubComps todo processed sortedComps).2
  ∧ sortedComps `prefix_of` (sort_pass st allSubComps todo processed sortedComps).2.
Proof.
  revert processed sortedComps.
  induction todo as [|sc todo IH]; intros processed sortedComps Htodo Hinv; [done|].
  assert (∀ x, x ∈ todo → x ∈ allSubComps) as Htodo' by (intros; apply Htodo; by right).
  cbn [sort_pass]. destruct (is_processed processed (comp_name st sc)) eqn:Hp; [by apply IH|].
  destruct (allChildrenDone st allSubComps processed sc) eqn:Hdone; [|by apply IH].
  destruct (IH ({[comp_name st sc]} ∪ processed) (sortedComps ++ [sc])) as [H1 H2].
  { done. } { apply sort_inv_push; [done|apply Htodo; left|done..]. }
  split; [done|]. etrans; [|done]. by apply prefix_app_r.
Qed.

(** A comp whose name is still missing and whose sub-comps are all
    named makes the pass add a comp. *)
Lemma sort_pass_grows (todo : list nat) (processed : gset string)
    (sortedComps : list nat) (x : nat) :
  (∀ y, y ∈ todo → y ∈ allSubComps) → sort_inv st allSubComps processed sortedComps →
  x ∈ todo → is_processed processed (comp_name st x) = false →
  allChildrenDone st allSubComps processed x = true →
  length sortedComps < length (sort_pass st allSubComps todo processed sortedComps).2.
Proof.
  revert processed sortedComps.
  induction todo as [|sc todo IH]; intros processed sortedComps Htodo Hinv Hx Hnew Hready.
  { by apply elem_of_nil in Hx. }
  assert (∀ y, y ∈ todo → y ∈ allSubComps) as Htodo' by (intros; apply Htodo; by right).
  cbn [sort_pass]. destruct (is_processed processed (comp_name st sc)) eqn:Hp.
  { apply IH; try done. apply elem_of_cons in Hx as [->|Hx]; [congruence|done]. }
  destruct (allChildrenDone st allSubComps processed sc) eqn:Hdone.
  - destruct (sort_pass_inv todo ({[comp_name st sc]} ∪ processed) (sortedComps ++ [sc]))
      as [_ Hpre]; [done| |].
    { apply sort_inv_push; [done|apply Htodo; left|done..]. }
    apply prefix_length in Hpre. rewrite length_app in Hpre. cbn [length] in Hpre. lia.
  - apply IH; try done. apply elem_of_cons in Hx as [->|Hx]; [congruence|done].
Qed.

Lemma sort_pass_idle (todo : list nat) (processed : gset string) (sortedComps : list nat) :
  (∀ x, x ∈ todo → is_processed processed (comp_name st x) = true) →
  sort_pass st allSubComps todo processed sortedComps = (processed, sortedComps).
Proof.
  induction todo as [|sc todo IH]; intros Hall; [done|].
  cbn [sort_pass]. rewrite Hall by left.
  apply IH. intros. apply Hall. by right.
Qed.

Lemma sort_while_idle (budget : nat) (processed : gset string) (sortedComps : list nat) :
  (∀ x, x ∈ allSubComps → is_processed processed (comp_name st x) = true) →
  sort_while st allSubComps budget processed sortedComps = sortedComps.
Proof.
  induction budget as [|budget IH]; intros Hall; [done|].
  cbn [sort_while]. destruct (_ <? _); [|done].
  rewrite sort_pass_idle by done. by apply IH.
Qed.

(** Whatever the graph, the loop keeps the invariant. *)
Lemma sort_while_inv (budget : nat) (processed : gset string) (sortedComps : list nat) :
  sort_inv st allSubComps processed sortedComps →
  ∃ processed', sort_inv st allSubComps processed' (sort_while st allSubComps budget processed sortedComps).
Proof.
  revert processed sortedComps.
  induction budget as [|budget IH]; intros processed sortedComps Hinv; [by exists processed|].
  cbn [sort_while]. destruct (_ <? _); [|by exists processed].
  destruct (sort_pass st allSubComps allSubComps processed sortedComps) as [p1 s1] eqn:Hpass.
  apply IH. pose proof (sort_pass_inv allSubComps processed sortedComps) as Hstep.
  rewrite Hpass in Hstep. by apply Hstep.
Qed.

Lemma topoSort_inv : ∃ processed, sort_inv st allSubComps processed (topoSort st allSubComps).
Proof. apply sort_while_inv, sort_inv_start. Qed.

Lemma sort_inv_full (processed : gset string) (sortedComps : list nat) :
  sort_inv st allSubComps processed sortedComps → length allSubComps ≤ length sortedComps →
  ∀ x, x ∈ allSubComps → x ∈ sortedComps.
Proof.
  intros [Hsub Hnd _ _ _] Hlen x Hx.
  assert (sortedComps ≡ₚ allSubComps) as Hperm; [|by rewrite Hperm].
  apply submseteq_length_Permutation; [|done].
  apply NoDup_submseteq; [by eapply NoDup_fmap_1|done].
Qed.

(** *** Acyclic sets *)

Variable rank : nat → nat.
Hypothesis Hrank : ∀ x d, x ∈ allSubComps → child st x d → d ∈ allSubComps →
                          rank d < rank x.

Lemma exists_ready (processed : gset string) (x : nat) :
  x ∈ allSubComps → is_processed processed (comp_name st x) = false →
  ∃ y, y ∈ allSubComps ∧ is_processed processed (comp_name st y) = false
       ∧ allChildrenDone st allSubComps processed y = true.
Proof.
  remember (rank x) as k eqn:Hk. revert x Hk.
  induction (lt_wf k) as [k _ IH]. intros x -> Hx Hnew.
  destruct (allChildrenDone st allSubComps processed x) eqn:Hdone; [by exists x|].
  apply allChildrenDone_false in Hdone as (d & Hchild & Hd & Hdnew).
  apply (IH (rank d)) with (x := d); [|done..]. by apply Hrank.
Qed.

Lemma sort_while_complete (budget : nat) (processed : gset string) (sortedComps : list nat) :
  sort_inv st allSubComps processed sortedComps →
  length allSubComps - length sortedComps ≤ budget →
  ∀ x, x ∈ allSubComps →
    inherited (comp_name st x) = true
    ∨ comp_name st x ∈ comp_name st <$> sort_while st allSubComps budget processed sortedComps.
Proof.
  revert processed sortedComps.
  induction budget as [|budget IH]; intros processed sortedComps Hinv Hlen x Hx.
  { cbn [sort_while]. right. apply list_elem_of_fmap_2.
    apply (sort_inv_full processed); [done|lia|done]. }
  cbn [sort_while]. destruct (_ <? _) eqn:Hlt.
  2: { apply Nat.ltb_ge in Hlt. right. apply list_elem_of_fmap_2.
       by apply (sort_inv_full processed). }
  destruct (decide (Forall (λ y, is_processed processed (comp_name st y) = true) allSubComps))
    as [Hall|Hsome].
  - rewrite Forall_forall in Hall.
    rewrite sort_pass_idle by done. rewrite sort_while_idle by done.
    destruct (proj1 (is_processed_true processed _) (Hall x Hx)) as [?|Hin]; [by left|].
    right. by apply (inv_processed _ _ _ _ Hinv).
  - apply not_Forall_Exists in Hsome; [|intros ?; apply _].
    apply Exists_exists in Hsome as (z & Hz & Hznew).
    apply not_true_is_false in Hznew.
    destruct (exists_ready processed z Hz Hznew) as (y & Hy & Hynew & Hready).
    pose proof (sort_pass_inv allSubComps processed sortedComps (λ _ Hin, Hin) Hinv)
      as [Hinv1 _].
    pose proof (sort_pass_grows allSubComps processed sortedComps y
                  (λ _ Hin, Hin) Hinv Hy Hynew Hready) as Hgrow.
    destruct (sort_pass st allSubComps allSubComps processed sortedComps) as [p1 s1].
    cbn [fst snd] in *. apply (IH p1 s1); [done|lia|done].
Qed.

(** On an acyclic set the sort names every comp of the set, but for the
    comps called like an inherited member. *)
Lemma topoSort_complete (x : nat) :
  x ∈ allSubComps →
  inherited (comp_name st x) = true
  ∨ comp_name st x ∈ comp_name st <$> topoSort st allSubComps.
Proof.
  apply sort_while_complete; [apply sort_inv_start|]. cbn [length]. nia.
Qed.

End ordering.

Lemma NoDup_fmap_inj {A B : Type} (f : A → B) (l : list A) (x y : A) :
  NoDup (f <$> l) → x ∈ l → y ∈ l → f x = f y → x = y.
Proof.
  induction l as [|a l IH]; [by intros _ ?%elem_of_nil|].
  rewrite fmap_cons, NoDup_cons. intros [Ha Hnd] Hx Hy Hxy.
  apply elem_of_cons in Hx as [->|Hx]; apply elem_of_cons in Hy as [->|Hy]; [done| | |by apply IH].
  - exfalso. apply Ha. rewrite Hxy. by apply list_elem_of_fmap_2.
  - exfalso. apply Ha. rewrite <- Hxy. by apply list_elem_of_fmap_2.
Qed.

Section ordering_distinct_names.
Context {engine : Engine}.
Variable st : Project.
Variable allSubComps : list nat.
Hypothesis Hnames : NoDup (comp_name st <$> allSubComps).
Hypothesis Hown : Forall (λ x, inherited (comp_name st x) = false) allSubComps.

(** Under pairwise different names, none of them inherited, a sorted
    comp stands behind each of its sub-comps of the set, not only behind
    their names. *)
Lemma sort_inv_strict (processed : gset string) (sortedComps : list nat) (i x d : nat) :
  sort_inv st allSubComps processed sortedComps →
  sortedComps !! i = Some x → child st x d → d ∈ allSubComps →
  ∃ j, j < i ∧ sortedComps !! j = Some d.
Proof.
  intros Hinv Hi Hchild Hd.
  destruct (inv_order _ _ _ _ Hinv i x d Hi Hchild Hd) as [Hin|Hn].
  { rewrite Forall_forall in Hown. rewrite (Hown d Hd) in Hin. discriminate. }
  apply list_elem_of_fmap in Hn as (y & Hyd & Hy).
  apply elem_of_take in Hy as (j & Hj & Hlt).
  assert (y = d) as ->; [|by exists j].
  apply (NoDup_fmap_inj (comp_name st) allSubComps); [done| |done..].
  apply (inv_sub _ _ _ _ Hinv). by eapply list_elem_of_lookup_2.
Qed.

Lemma sort_inv_path (processed : gset string) (sortedComps : list nat) (x y : nat) :
  sort_inv st allSubComps processed sortedComps →
  (∀ a b, a ∈ allSubComps → child st a b → b ∈ allSubComps) →
  tc (child st) x y → x ∈ allSubComps →
  ∀ i, sortedComps !! i = Some x → ∃ j, j < i ∧ sortedComps !! j = Some y.
Proof.
  intros Hinv Hclosed Hpath. induction Hpath as [x y Hxy | x y z Hxy Hyz IH]; intros Hx i Hi.
  - eapply sort_inv_strict; eauto.
  - destruct (sort_inv_strict processed sortedComps i x y) as (j & Hj & Hjy); eauto.
    destruct (IH (Hclosed _ _ Hx Hxy) j Hjy) as (k & Hk & Hkz).
    exists k. split; [lia|done].
Qed.

(** A comp that contains itself, however indirectly, is never sorted. *)
Lemma sort_inv_no_cycle (processed : gset string) (sortedComps : list nat) (x : nat) :
  sort_inv st allSubComps processed sortedComps →
  (∀ a b, a ∈ allSubComps → child st a b → b ∈ allSubComps) →
  x ∈ allSubComps → tc (child st) x x → x ∉ sortedComps.
Proof.
  intros Hinv Hclosed Hx Hcycle Hin.
  apply list_elem_of_lookup in Hin as [i Hi].
  destruct (sort_inv_path processed sortedComps x x Hinv Hclosed Hcycle Hx i Hi)
    as (j & Hj & Hjx).
  assert (NoDup sortedComps) as Hnd by (eapply NoDup_fmap_1, inv_names; done).
  pose proof (NoDup_lookup _ _ _ _ Hnd Hi Hjx). lia.
Qed.

Lemma sorted_Permutation (processed : gset string) (sortedComps : list nat) :
  sort_inv st allSubComps processed sortedComps →
  (∀ x, x ∈ allSubComps → comp_name st x ∈ comp_name st <$> sortedComps) →
  sortedComps ≡ₚ allSubComps.
Proof.
  intros Hinv Hall. apply NoDup_Permutation.
  - eapply NoDup_fmap_1, inv_names; done.
  - by eapply NoDup_fmap_1.
  - intros x. split; [apply (inv_sub _ _ _ _ Hinv)|].
    intros Hx. destruct (proj1 (list_elem_of_fmap _ _ _) (Hall x Hx)) as (y & Hxy & Hy).
    assert (x = y) as ->; [|done].
    apply (NoDup_fmap_inj (comp_name st) allSubComps); [done|done| |done].
    by apply (inv_sub _ _ _ _ Hinv).
Qed.

End ordering_distinct_names.

Section ordering_claims.
Context {engine : Engine}.

Lemma ranked_local (rank : nat → nat) (st : Project) (allSubComps : list nat) :
  ranked rank st = true →
  ∀ x d, x ∈ allSubComps → child st x d → d ∈ allSubComps → rank d < rank x.
Proof.
  intros Hr x d _ (l & Hl & Hd) _. by destruct (ranked_child rank st x d l Hr Hl Hd).
Qed.

Lemma topoSort_children_first_local (rank : nat → nat) (st : Project)
    (allSubComps : list nat) :
  ranked rank st = true →
  NoDup (comp_name st <$> allSubComps) →
  Forall (λ x, inherited (comp_name st x) = false) allSubComps →
  topoSort st allSubComps ≡ₚ allSubComps
  ∧ ∀ i c d, topoSort st allSubComps !! i = Some c → child st c d → d ∈ allSubComps →
      ∃ j, j < i ∧ topoSort st allSubComps !! j = Some d.
Proof.
  intros Hr Hnames Hown.
  destruct (topoSort_inv st allSubComps) as [processed Hinv].
  split.
  - apply (sorted_Permutation st allSubComps Hnames processed); [done|].
    intros x Hx.
    destruct (topoSort_complete st allSubComps rank
                (ranked_local rank st allSubComps Hr) x Hx) as [Hin|?]; [|done].
    rewrite Forall_forall in Hown. rewrite (Hown x Hx) in Hin. discriminate.
  - intros i c d. by apply (sort_inv_strict st allSubComps Hnames Hown processed).
Qed.


Lemma topoSort_is_sound_local (st : Project) (allSubComps : list nat) :
  NoDup (topoSort st allSubComps)
  ∧ NoDup (comp_name st <$> topoSort st allSubComps)
  ∧ (∀ x, x ∈ topoSort st allSubComps →
       x ∈ allSubComps ∧ inherited (comp_name st x) = false)
  ∧ ∀ i x d, topoSort st allSubComps !! i = Some x → child st x d → d ∈ allSubComps →
      inherited (comp_name st d) = true
      ∨ ∃ j y, j < i ∧ topoSort st allSubComps !! j = Some y
               ∧ comp_name st y = comp_name st d.
Proof.
  destruct (topoSort_inv st allSubComps) as [processed [Hsub Hnames Hproc Hown Hord]].
  split; [by eapply NoDup_fmap_1|]. split; [done|]. split; [by split; auto|].
  intros i x d Hi Hxd Hd.
  destruct (Hord i x d Hi Hxd Hd) as [?|Hn]; [by left|right].
  apply list_elem_of_fmap in Hn as (y & Hyd & Hy).
  apply elem_of_take in Hy as (j & Hj & Hlt). by exists j, y.
Qed.

(** X9: whatever the nesting and the names, the order holds comps of the
    given set only, no comp twice, no two comps of one name and no comp
    called like a member that every script object inherits; and every
    comp in it stands behind a comp bearing the name of each of its
    sub-comps that is in the set, unless that name is the name of such a
    member. *)
Theorem topoSort_is_sound (st : Project) (allSubComps : list nat) :
  NoDup (topoSort st allSubComps)
  ∧ NoDup (comp_name st <$> topoSort st allSubComps)
  ∧ (∀ x, x ∈ topoSort st allSubComps →
       x ∈ allSubComps ∧ inherited (comp_name st x) = false)
  ∧ ∀ i x d, topoSort st allSubComps !! i = Some x → child st x d → d ∈ allSubComps →
      inherited (comp_name st d) = true
      ∨ ∃ j y, j < i ∧ topoSort st allSubComps !! j = Some y
               ∧ comp_name st y = comp_name st d.
Proof. apply topoSort_is_sound_local. Qed.

End ordering_claims.

(** ** Duplication *)

Lemma redirected_app (st news : Project) (dupeMap : gmap string nat) (l : Layer) :
  (∀ d, sub_comp l = Some d → d < length st) →
  redirected (st ++ news) dupeMap l = redirected st dupeMap l.
Proof.
  intros Hkid. destruct l as [n t | n [d|f] | n]; try done.
  cbn [redirected]. by rewrite comp_name_app by by apply Hkid.
Qed.

Section duplication.
Context {engine : Engine}.

Lemma relink_Some (st : Project) (dupeMap : gmap string nat) (l l' : Layer) :
  relink st dupeMap l = Some l' → l' = redirected st dupeMap l.
Proof.
  destruct l as [n t | n [d|f] | n]; cbn [relink redirected]; try by intros; simplify_eq.
  destruct (dupeMap !! comp_name st d); [by intros; simplify_eq|].
  destruct (inherited _); by intros; simplify_eq.
Qed.

Lemma relink_own (st : Project) (dupeMap : gmap string nat) (l l' : Layer) (d : nat) :
  relink st dupeMap l = Some l' → sub_comp l = Some d →
  is_Some (dupeMap !! comp_name st d) ∨ inherited (comp_name st d) = false.
Proof.
  destruct l as [n t | n [s|f] | n]; try done. cbn. intros H ?. simplify_eq.
  destruct (dupeMap !! comp_name st d); [by left; eexists|].
  destruct (inherited _); [done|by right].
Qed.

Lemma relink_total (st : Project) (dupeMap : gmap string nat) (l : Layer) :
  (∀ d, sub_comp l = Some d →
     is_Some (dupeMap !! comp_name st d) ∨ inherited (comp_name st d) = false) →
  relink st dupeMap l = Some (redirected st dupeMap l).
Proof.
  destruct l as [n t | n [d|f] | n]; try done. intros Hkid. cbn [relink redirected].
  destruct (Hkid d eq_refl) as [[v Hv]|Hown]; [by rewrite Hv|].
  rewrite Hown. by destruct (dupeMap !! _).
Qed.

Lemma relink_layers_returns (st : Project) (dupeMap : gmap string nat) (ls ls' : list Layer) :
  relink_layers st dupeMap ls = (ls', false) →
  ls' = redirected st dupeMap <$> ls
  ∧ ∀ l d, l ∈ ls → sub_comp l = Some d →
      is_Some (dupeMap !! comp_name st d) ∨ inherited (comp_name st d) = false.
Proof.
  revert ls'. induction ls as [|l ls IH]; intros ls' H.
  { cbn in H. simplify_eq. split; [done|]. by intros l d ?%elem_of_nil. }
  cbn [relink_layers] in H. destruct (relink st dupeMap l) as [l1|] eqn:Hl; [|done].
  destruct (relink_layers st dupeMap ls) as [ls1 raised]. simplify_eq.
  destruct (IH ls1 eq_refl) as [-> Hown]. split.
  - cbn [fmap list_fmap]. f_equal. by apply relink_Some.
  - intros l' d [->|Hl']%elem_of_cons Hd; [by eapply relink_own|by eapply Hown].
Qed.

Lemma relink_layers_total (st : Project) (dupeMap : gmap string nat) (ls : list Layer) :
  (∀ l d, l ∈ ls → sub_comp l = Some d →
     is_Some (dupeMap !! comp_name st d) ∨ inherited (comp_name st d) = false) →
  relink_layers st dupeMap ls = (redirected st dupeMap <$> ls, false).
Proof.
  induction ls as [|l ls IH]; intros Hown; [done|].
  cbn [relink_layers]. rewrite relink_total by (intros d; apply Hown; left).
  rewrite IH; [done|]. intros l' d Hl'. apply Hown. by right.
Qed.

(** What a duplication that returns has made, whatever the layers
    hold. *)
Lemma duplicate_into_made (st : Project) (original : nat) (langSuffix : string)
    (folder : list string) (dupeMap : gmap string nat) (st' : Project)
    (dupeMap' : gmap string nat) :
  duplicate_into st original langSuffix folder dupeMap = Returns (st', dupeMap') →
  dupeMap' = <[comp_name st original := length st]> dupeMap
  ∧ ∃ st1, st' = st ++ [ {| name := comp_name st original +:+ "_" +:+ langSuffix;
                            parentFolder := folder;
                            layers := redirected st1 dupeMap' <$> comp_layers st original |} ].
Proof.
  unfold duplicate_into. cbn [layers name].
  destruct (relink_layers _ _ _) as [layers' raised] eqn:Hloop.
  destruct raised; [done|]. intros. simplify_eq. split; [done|].
  apply relink_layers_returns in Hloop as [-> _]. by eexists.
Qed.

(** A duplication that raises leaves its copy behind. *)
Lemma duplicate_into_Raises (st : Project) (original : nat) (langSuffix : string)
    (folder : list string) (dupeMap : gmap string nat) (st' : Project) :
  duplicate_into st original langSuffix folder dupeMap = Raises st' →
  ∃ copy, st' = st ++ [copy].
Proof.
  unfold duplicate_into. destruct (relink_layers _ _ _) as [layers' raised].
  destruct raised; [|done]. intros. simplify_eq. by eexists.
Qed.

(** A duplication that returns has redirected every layer, and none of
    the sub-comps bears an inherited name that the map lacks. *)
Lemma duplicate_into_Returns (st : Project) (original : nat) (langSuffix : string)
    (folder : list string) (dupeMap : gmap string nat) (st' : Project)
    (dupeMap' : gmap string nat) :
  (∀ d, child st original d → d < length st) →
  duplicate_into st original langSuffix folder dupeMap = Returns (st', dupeMap') →
  dupeMap' = <[comp_name st original := length st]> dupeMap
  ∧ st' = st ++ [copy_of st langSuffix dupeMap' folder original]
  ∧ ∀ d, child st original d →
      is_Some (dupeMap' !! comp_name st d) ∨ inherited (comp_name st d) = false.
Proof.
  intros Hkids. unfold duplicate_into. cbn [layers name].
  destruct (relink_layers _ _ _) as [layers' raised] eqn:Hloop.
  destruct raised; [done|]. intros. simplify_eq.
  apply relink_layers_returns in Hloop as [-> Hown]. split; [done|]. split.
  - unfold copy_of. do 3 f_equal. apply Forall_fmap_ext_1, Forall_forall.
    intros l Hl. apply redirected_app. intros d Hd. apply Hkids. by exists l.
  - intros d (l & Hl & Hd). specialize (Hown l d Hl Hd).
    by rewrite comp_name_app in Hown by (apply Hkids; by exists l).
Qed.

Lemma duplicate_into_total (st : Project) (original : nat) (langSuffix : string)
    (folder : list string) (dupeMap : gmap string nat) :
  (∀ d, child st original d →
     d < length st
     ∧ (is_Some (<[comp_name st original := length st]> dupeMap !! comp_name st d)
        ∨ inherited (comp_name st d) = false)) →
  duplicate_into st original langSuffix folder dupeMap
  = Returns (st ++ [copy_of st langSuffix (<[comp_name st original := length st]> dupeMap)
                      folder original],
             <[comp_name st original := length st]> dupeMap).
Proof.
  intros Hkids. unfold duplicate_into. cbn [layers name].
  rewrite relink_layers_total.
  - unfold copy_of. do 5 f_equal. apply Forall_fmap_ext_1, Forall_forall.
    intros l Hl. apply redirected_app. intros d Hd. apply Hkids. by exists l.
  - intros l d Hl Hd. destruct (Hkids d) as [Hlt Hown]; [by exists l|].
    by rewrite comp_name_app.
Qed.

(** One duplication that returns, when every sub-comp of the original
    bears an inherited name, a name of the map or the original's name: the
    copy only points at entries of the new map. *)
Lemma duplicate_into_links (st : Project) (original : nat) (langSuffix : string)
    (folder : list string) (dupeMap : gmap string nat) (lo : nat) (st' : Project)
    (dupeMap' : gmap string nat) :
  original < length st → lo ≤ length st →
  entries_within lo (length st) dupeMap →
  (∀ d, child st original d →
     d < length st
     ∧ (inherited (comp_name st d) = true ∨ comp_name st d ∈ dom dupeMap
        ∨ comp_name st d = comp_name st original)) →
  duplicate_into st original langSuffix folder dupeMap = Returns (st', dupeMap') →
  ∃ copy,
    st' = st ++ [copy]
    ∧ dupeMap' = <[comp_name st original := length st]> dupeMap
    ∧ links_within lo (S (length st)) copy
    ∧ entries_within lo (S (length st)) dupeMap'.
Proof.
  intros Horig Hlo Hdm Hkids Hrun.
  apply duplicate_into_Returns in Hrun as (-> & -> & Hown); [|intros d Hd; by apply Hkids].
  eexists. split; [done|]. split; [done|].
  assert (entries_within lo (S (length st)) (<[comp_name st original := length st]> dupeMap))
    as Hdm'.
  { intros key v. rewrite lookup_insert. case_decide.
    - intros. simplify_eq. lia.
    - intros Hv. specialize (Hdm key v Hv). lia. }
  split; [|done].
  intros l' v Hl' Hv. cbn [copy_of layers] in Hl'.
  apply list_elem_of_fmap in Hl' as (l & -> & Hl).
  apply redirected_sub_comp in Hv as (d & Hd & Hcase).
  destruct Hcase as [Hin | [Hnone ->]]; [by eapply Hdm'|].
  exfalso. destruct (Hkids d) as [Hdlt Hdname]; [by exists l|].
  destruct (Hown d) as [[v Hv]|Hnot]; [by exists l|congruence|].
  apply not_elem_of_dom in Hnone. apply Hnone.
  rewrite dom_insert, elem_of_union, elem_of_singleton.
  destruct Hdname as [?|[?| ->]]; [congruence|auto..].
Qed.

Section duplicate_sorted_links.
Variable st0 : Project.
Variable langSuffix : string.
Variable folder : list string.

(** The sub-comp loop, when every comp of [todo] is a comp of [st0] whose
    sub-comps bear inherited names or the names of comps that come
    earlier: if the loop returns, all copies point at copies only; if it
    raises, what was there is still there. *)
Lemma duplicate_sorted_links (todo done : list nat) (news : Project)
    (dupeMap : gmap string nat) :
  entries_within (length st0) (length (st0 ++ news)) dupeMap →
  dom dupeMap = list_to_set (comp_name st0 <$> done) →
  (∀ i c, todo !! i = Some c →
     c < length st0
     ∧ ∀ d, child st0 c d →
         d < length st0
         ∧ (inherited (comp_name st0 d) = true
            ∨ comp_name st0 d ∈ comp_name st0 <$> (done ++ take i todo))) →
  match duplicate_sorted (st0 ++ news) todo langSuffix folder dupeMap with
  | Returns (st', dupeMap') =>
      ∃ news',
        st' = st0 ++ news ++ news'
        ∧ Forall (links_within (length st0) (length st')) news'
        ∧ entries_within (length st0) (length st') dupeMap'
        ∧ dom dupeMap' = list_to_set (comp_name st0 <$> (done ++ todo))
  | Raises st' => (st0 ++ news) `prefix_of` st'
  end.
Proof.
  revert done news dupeMap.
  induction todo as [|c todo IH]; intros done news dupeMap Hdm Hdom Htodo.
  { cbn [duplicate_sorted]. exists []. rewrite !app_nil_r. by split. }
  destruct (Htodo 0 c eq_refl) as [Hc Hkids]. rewrite take_0, app_nil_r in Hkids.
  cbn [duplicate_sorted].
  destruct (duplicate_into (st0 ++ news) c langSuffix folder dupeMap)
    as [[st1 dupeMap1]|st1] eqn:Hdup.
  2: { apply duplicate_into_Raises in Hdup as [copy ->]. by apply prefix_app_r. }
  apply (duplicate_into_links _ _ _ _ _ (length st0)) in Hdup
    as (copy & -> & -> & Hcopy & Hdm'); [|rewrite length_app; lia..|done|].
  2: { intros d Hd. apply child_app in Hd; [|done].
       destruct (Hkids d Hd) as [Hdlt Hdn]. split; [rewrite length_app; lia|].
       rewrite !comp_name_app by done. destruct Hdn as [?|Hdn]; [by left|].
       right. left. rewrite Hdom. by apply elem_of_list_to_set. }
  rewrite comp_name_app in Hdm' |- * by done.
  replace ((st0 ++ news) ++ [copy]) with (st0 ++ (news ++ [copy])) by by rewrite app_assoc.
  assert (S (length (st0 ++ news)) = length (st0 ++ news ++ [copy])) as Hlen.
  { rewrite !length_app. cbn. lia. }
  rewrite Hlen in Hcopy, Hdm'.
  specialize (IH (done ++ [c]) (news ++ [copy])
                (<[comp_name st0 c := length (st0 ++ news)]> dupeMap)).
  destruct (duplicate_sorted (st0 ++ news ++ [copy]) todo langSuffix folder _)
    as [[st2 dupeMap2]|st2].
  - destruct IH as (news' & -> & Hnews & Hent & Hdom'); [done| | |].
    { rewrite dom_insert_L, Hdom, fmap_app, list_to_set_app_L.
      cbn [fmap list_fmap list_to_set]. rewrite union_empty_r_L. apply union_comm_L. }
    { intros i c' Hi. destruct (Htodo (S i) c' Hi) as [Hc' Hkids']. split; [done|].
      intros d Hd. destruct (Hkids' d Hd) as [? Hn]. split; [done|].
      by rewrite <- app_assoc. }
    exists (copy :: news').
    replace (st0 ++ news ++ copy :: news') with (st0 ++ (news ++ [copy]) ++ news')
      by by rewrite <- !app_assoc.
    split; [done|]. split; [|split; [done|]].
    + apply Forall_cons. split; [|done].
      intros l v Hl Hv. specialize (Hcopy l v Hl Hv). rewrite !length_app in *. lia.
    + rewrite Hdom'. by rewrite <- app_assoc.
  - etrans; [|apply IH].
    + rewrite (app_assoc st0). by apply prefix_app_r.
    + done.
    + rewrite dom_insert_L, Hdom, fmap_app, list_to_set_app_L.
      cbn [fmap list_fmap list_to_set]. rewrite union_empty_r_L. apply union_comm_L.
    + intros i c' Hi. destruct (Htodo (S i) c' Hi) as [Hc' Hkids']. split; [done|].
      intros d Hd. destruct (Hkids' d Hd) as [? Hn]. split; [done|].
      by rewrite <- app_assoc.
Qed.

End duplicate_sorted_links.

Section duplicateFullTree_grown.
Variable rank : nat → nat.
Variable st0 : Project.
Hypothesis Hranked : ranked rank st0 = true.

(** Duplicating the tree of an original comp: a pass that returns keeps
    the project [grown], and the map it returns names copies only; a pass
    that raises leaves what was there. *)
Lemma duplicateFullTree_grown (st : Project) (masterComp : nat) (langSuffix : string)
    (langFolder precompFolder : list string) :
  grown st0 st → masterComp < length st0 →
  ∃ c,
    duplicateFullTree st masterComp langSuffix langFolder precompFolder = Some c
    ∧ match c with
      | Returns (st', dupeMap) =>
          grown st0 st' ∧ st `prefix_of` st'
          ∧ entries_within (length st0) (length st') dupeMap
      | Raises st' => st `prefix_of` st'
      end.
Proof.
  intros Hgrown Hmaster.
  pose proof (prefix_length _ _ (grown_prefix _ _ Hgrown)) as Hlen0.
  destruct (discoverAllSubComps_total st (grown_valid _ _ Hgrown) masterComp)
    as (all & Hall & [Hnd Hlt] & Hroot & Hclosed).
  assert (Forall (λ c, c < length st0) all) as Horig.
  { unfold discoverAllSubComps in Hall.
    eapply (discoverAllSubComps_at_within st (λ c, c < length st0)); [| | |exact Hall].
    - intros x d Hx Hxd. by destruct (original_child rank st0 Hranked st x d Hgrown Hx Hxd).
    - intros d Hd. by destruct (original_child rank st0 Hranked st masterComp d Hgrown Hmaster Hd).
    - by apply Forall_nil. }
  rewrite Forall_forall in Horig.
  destruct (topoSort_inv st all) as [processed Hinv].
  assert (∀ x, x ∈ all → inherited (comp_name st x) = true
                         ∨ comp_name st x ∈ comp_name st <$> topoSort st all) as Hcomplete.
  { apply (topoSort_complete st all rank). intros x d Hx Hxd _.
    by destruct (original_child rank st0 Hranked st x d Hgrown (Horig x Hx) Hxd). }
  unfold duplicateFullTree. rewrite Hall. cbn [mbind option_bind].
  eexists. split; [done|]. unfold replicate.
  pose proof (duplicate_sorted_links st langSuffix precompFolder (topoSort st all) [] [] ∅)
    as Hsub.
  rewrite !app_nil_r in Hsub.
  destruct (duplicate_sorted st (topoSort st all) langSuffix precompFolder ∅)
    as [[st1 dupeMap]|st1]; [|apply Hsub].
  2: { intros key v. by rewrite lookup_empty. }
  2: { by rewrite dom_empty_L. }
  2: { intros i c Hi.
       assert (c ∈ all) as Hc by (eapply (inv_sub _ _ _ _ Hinv), list_elem_of_lookup_2; done).
       split; [by apply Hlt|]. intros d Hcd. split; [by eapply Hlt, Hclosed|].
       rewrite app_nil_l. eapply (inv_order _ _ _ _ Hinv); [done..|by eapply Hclosed]. }
  destruct Hsub as (news & -> & Hnews & Hent & Hdom).
  { intros key v. by rewrite lookup_empty. }
  { by rewrite dom_empty_L. }
  { intros i c Hi.
    assert (c ∈ all) as Hc by (eapply (inv_sub _ _ _ _ Hinv), list_elem_of_lookup_2; done).
    split; [by apply Hlt|]. intros d Hcd. split; [by eapply Hlt, Hclosed|].
    rewrite app_nil_l. eapply (inv_order _ _ _ _ Hinv); [done..|by eapply Hclosed]. }
  rewrite app_nil_l in Hnews, Hent, Hdom |- *.
  destruct (duplicate_into (st ++ news) masterComp langSuffix langFolder dupeMap)
    as [[st2 dupeMap2]|st2] eqn:Hdup.
  2: { apply duplicate_into_Raises in Hdup as [copy ->].
       rewrite <- app_assoc. by apply prefix_app_r. }
  apply (duplicate_into_links _ _ _ _ _ (length st)) in Hdup
    as (copy & -> & -> & Hcopy & Hent'); [|rewrite length_app; lia..|done|].
  2: { intros d Hd. apply child_app in Hd; [|lia].
       pose proof (Hroot d Hd) as Hdin.
       split; [rewrite length_app; specialize (Hlt d Hdin); lia|].
       rewrite !comp_name_app by first [by apply Hlt|lia].
       destruct (Hcomplete d Hdin) as [?|Hin]; [by left|].
       right. left. rewrite Hdom. by apply elem_of_list_to_set. }
  assert (length ((st ++ news) ++ [copy]) = S (length (st ++ news))) as Hlen'.
  { rewrite (length_app _ [copy]). cbn. lia. }
  split; [|split].
  - rewrite <- app_assoc. apply grown_append; [done|].
    apply Forall_app. rewrite app_assoc, Hlen'. split.
    + eapply Forall_impl; [done|]. intros comp Hcomp l v Hl Hv.
      specialize (Hcomp l v Hl Hv). lia.
    + apply Forall_singleton. intros l v Hl Hv. specialize (Hcopy l v Hl Hv).
      rewrite length_app in *. lia.
  - rewrite <- app_assoc. by apply prefix_app_r.
  - rewrite Hlen'. intros key v Hv. specialize (Hent' key v Hv). lia.
Qed.

End duplicateFullTree_grown.

(** ** Duplication, exactly *)

Section replicate_exact.
Variable st : Project.
Variable langSuffix : string.

(** One duplication, when the sub-comps of the original all have their
    copy and the original's name is new to the map. *)
Lemma duplicate_into_exact (news : Project) (done : list nat) (dupeMap : gmap string nat)
    (c : nat) (folder : list string) :
  length news = length done → c < length st →
  (∀ j x, done !! j = Some x → dupeMap !! comp_name st x = Some (length st + j)) →
  comp_name st c ∉ comp_name st <$> done →
  (∀ d, child st c d → d < length st ∧ d ∈ done) →
  ∃ copy,
    duplicate_into (st ++ news) c langSuffix folder dupeMap
    = Returns (st ++ news ++ [copy], <[comp_name st c := length st + length done]> dupeMap)
    ∧ ∀ dupeMapF, <[comp_name st c := length st + length done]> dupeMap ⊆ dupeMapF →
        copy = copy_of st langSuffix dupeMapF folder c.
Proof.
  intros Hlen Hc Hdm Hnew Hkids.
  assert (∀ d, child st c d →
            is_Some (<[comp_name st c := length st + length done]> dupeMap
                       !! comp_name st d)) as Hown.
  { intros d Hd. destruct (Hkids d Hd) as [Hdlt Hdone].
    apply list_elem_of_lookup in Hdone as [j Hj].
    rewrite lookup_insert_ne; [by rewrite (Hdm j d Hj)|].
    intros Heq. apply Hnew. rewrite Heq. apply list_elem_of_fmap_2.
    by eapply list_elem_of_lookup_2. }
  rewrite duplicate_into_total.
  2: { intros d Hd. apply child_app in Hd; [|done]. destruct (Hkids d Hd) as [Hdlt _].
       split; [rewrite length_app; lia|]. left.
       rewrite !comp_name_app by done. rewrite length_app, Hlen. by apply Hown. }
  rewrite comp_name_app by done. rewrite length_app, Hlen.
  eexists. split; [by rewrite <- app_assoc|].
  intros dupeMapF Hsub. unfold copy_of.
  rewrite comp_name_app, comp_layers_app by done. f_equal.
  apply Forall_fmap_ext_1, Forall_forall. intros l Hl.
  apply redirected_stable; [|done].
  intros d Hd. destruct (Hkids d) as [Hdlt _]; [by exists l|]. split; [done|].
  apply Hown. by exists l.
Qed.

Lemma duplicate_sorted_exact (folder : list string) (todo done : list nat)
    (news : Project) (dupeMap : gmap string nat) :
  length news = length done →
  (∀ j x, done !! j = Some x → dupeMap !! comp_name st x = Some (length st + j)) →
  dom dupeMap = list_to_set (comp_name st <$> done) →
  NoDup (comp_name st <$> (done ++ todo)) →
  (∀ i c, todo !! i = Some c →
     c < length st ∧ ∀ d, child st c d → d < length st ∧ d ∈ done ++ take i todo) →
  ∃ dupeMap',
    dupeMap ⊆ dupeMap'
    ∧ (∀ j x, (done ++ todo) !! j = Some x →
         dupeMap' !! comp_name st x = Some (length st + j))
    ∧ dom dupeMap' = list_to_set (comp_name st <$> (done ++ todo))
    ∧ ∀ dupeMapF, dupeMap' ⊆ dupeMapF →
        duplicate_sorted (st ++ news) todo langSuffix folder dupeMap
        = Returns (st ++ news ++ (copy_of st langSuffix dupeMapF folder <$> todo), dupeMap').
Proof.
  revert done news dupeMap.
  induction todo as [|c todo IH]; intros done news dupeMap Hlen Hdm Hdom Hnd Htodo.
  { exists dupeMap. rewrite !app_nil_r. split; [done|]. split; [done|]. split; [done|].
    intros dupeMapF _. cbn [duplicate_sorted fmap list_fmap]. by rewrite app_nil_r. }
  destruct (Htodo 0 c eq_refl) as [Hc Hkids]. rewrite take_0, app_nil_r in Hkids.
  assert (comp_name st c ∉ comp_name st <$> done) as Hnew.
  { rewrite fmap_app, fmap_cons in Hnd. apply NoDup_app in Hnd as (_ & Hnd & _).
    intros Hin. apply (Hnd _ Hin). left. }
  destruct (duplicate_into_exact news done dupeMap c folder Hlen Hc Hdm Hnew Hkids)
    as (copy & Hdup & Hcopy).
  set (dupeMap1 := <[comp_name st c := length st + length done]> dupeMap) in *.
  assert (dupeMap ⊆ dupeMap1) as Hsub1.
  { apply insert_subseteq, not_elem_of_dom. rewrite Hdom.
    by rewrite elem_of_list_to_set. }
  destruct (IH (done ++ [c]) (news ++ [copy]) dupeMap1)
    as (dupeMap' & Hsub' & Hdm' & Hdom' & Hrun).
  { rewrite !length_app. cbn. lia. }
  { intros j x [Hj | [Hj Hx]]%lookup_app_Some.
    - eapply lookup_weaken; [|done]. by apply Hdm.
    - apply list_lookup_singleton_Some in Hx as [Hx ->].
      unfold dupeMap1. rewrite lookup_insert_eq. f_equal. lia. }
  { unfold dupeMap1. rewrite dom_insert_L, Hdom, fmap_app, list_to_set_app_L.
    cbn [fmap list_fmap list_to_set]. rewrite union_empty_r_L. apply union_comm_L. }
  { by rewrite <- app_assoc. }
  { intros i c' Hi. destruct (Htodo (S i) c' Hi) as [Hc' Hkids']. split; [done|].
    intros d Hd. destruct (Hkids' d Hd) as [? Hin]. split; [done|].
    by rewrite <- app_assoc. }
  exists dupeMap'. split; [by etrans|]. rewrite <- app_assoc in Hdm', Hdom'.
  split; [done|]. split; [done|].
  intros dupeMapF HsubF. cbn [duplicate_sorted]. rewrite Hdup.
  replace (st ++ news ++ [copy]) with (st ++ (news ++ [copy])) by done.
  rewrite (Hrun dupeMapF HsubF). rewrite (Hcopy dupeMapF) by by etrans.
  by rewrite <- !app_assoc.
Qed.

(** Steps 3 to 5 on a tree of comps with pairwise different names,
    given an order that puts sub-comps first. *)
Lemma replicate_exact (masterComp : nat) (allSubComps sortedComps : list nat)
    (langFolder precompFolder : list string) :
  (∀ x, x ∈ masterComp :: allSubComps → x < length st) →
  (∀ x d, x ∈ masterComp :: allSubComps → child st x d → d ∈ allSubComps) →
  NoDup (comp_name st <$> masterComp :: allSubComps) →
  sortedComps ≡ₚ allSubComps →
  (∀ i c d, sortedComps !! i = Some c → child st c d →
     ∃ j, j < i ∧ sortedComps !! j = Some d) →
  ∃ dupeMap,
    replicate st masterComp sortedComps langSuffix langFolder precompFolder
    = Returns (st ++ (copy_of st langSuffix dupeMap precompFolder <$> sortedComps)
                  ++ [copy_of st langSuffix dupeMap langFolder masterComp], dupeMap)
    ∧ (∀ j x, sortedComps !! j = Some x →
         dupeMap !! comp_name st x = Some (length st + j))
    ∧ dupeMap !! comp_name st masterComp = Some (length st + length sortedComps)
    ∧ dom dupeMap = list_to_set (comp_name st <$> masterComp :: allSubComps).
Proof.
  intros Hlt Hclosed Hnames Hperm Horder.
  assert (NoDup (comp_name st <$> sortedComps)
          ∧ comp_name st masterComp ∉ comp_name st <$> sortedComps) as [Hnd Hmaster].
  { rewrite fmap_cons, NoDup_cons, <- Hperm in Hnames. tauto. }
  destruct (duplicate_sorted_exact precompFolder sortedComps [] [] ∅)
    as (dupeMap' & _ & Hdm' & Hdom' & Hrun); [done|done|by rewrite dom_empty_L|done| |].
  { intros i c Hi.
    assert (c ∈ allSubComps) as Hc by (rewrite <- Hperm; by eapply list_elem_of_lookup_2).
    split; [apply Hlt; by right|]. intros d Hd.
    split; [apply Hlt; right; eapply Hclosed; [by right|done]|].
    destruct (Horder i c d Hi Hd) as (j & Hj & Hjd).
    rewrite app_nil_l. apply elem_of_take. by exists j. }
  rewrite app_nil_l in Hdm', Hdom'.
  destruct (duplicate_into_exact (copy_of st langSuffix dupeMap' precompFolder <$> sortedComps)
              sortedComps dupeMap' masterComp langFolder)
    as (copy & Hdup & Hcopy); [by rewrite length_fmap|apply Hlt; left|done|done| |].
  { intros d Hd. assert (d ∈ allSubComps) as Hin by (eapply Hclosed; [left|done]).
    split; [apply Hlt; by right|by rewrite Hperm]. }
  set (dupeMap := <[comp_name st masterComp := length st + length sortedComps]> dupeMap') in *.
  assert (dupeMap' ⊆ dupeMap) as Hsub.
  { apply insert_subseteq, not_elem_of_dom. rewrite Hdom'.
    by rewrite elem_of_list_to_set. }
  exists dupeMap. split; [|split; [|split]].
  - unfold replicate. specialize (Hrun dupeMap' (reflexivity _)).
    rewrite !app_nil_r in Hrun. rewrite app_nil_l in Hrun. rewrite Hrun.
    rewrite Hdup. do 3 f_equal.
    rewrite (Hcopy dupeMap (reflexivity _)). f_equal.
    apply Forall_fmap_ext_1, Forall_forall. intros c Hc. unfold copy_of. f_equal.
    apply Forall_fmap_ext_1, Forall_forall. intros l Hl.
    rewrite <- (app_nil_r st) at 1. apply redirected_stable; [|done].
    assert (c ∈ allSubComps) as Hcin by by rewrite <- Hperm.
    intros d Hd. assert (d ∈ allSubComps) as Hin.
    { eapply Hclosed; [by right|]. by exists l. }
    split; [apply Hlt; by right|].
    rewrite <- Hperm in Hin. apply list_elem_of_lookup in Hin as [j Hj].
    rewrite (Hdm' j d Hj). by eexists.
  - intros j x Hj. eapply lookup_weaken; [|done]. by apply Hdm'.
  - unfold dupeMap. by rewrite lookup_insert_eq.
  - unfold dupeMap. rewrite dom_insert_L, Hdom', fmap_cons. cbn [list_to_set].
    f_equal. apply set_eq. intros n. rewrite !elem_of_list_to_set. by rewrite Hperm.
Qed.

End replicate_exact.

(** The pass on a tree of comps with pairwise different names, none of
    them inherited, in full: the project it leaves and the map it
    returns. *)
Lemma duplicateFullTree_exact (rank : nat → nat) (st : Project) (masterComp : nat)
    (allSubComps : list nat) (langSuffix : string) (langFolder precompFolder : list string) :
  ranked rank st = true → masterComp < length st →
  discoverAllSubComps st masterComp = Some allSubComps →
  NoDup (comp_name st <$> masterComp :: allSubComps) →
  Forall (λ x, inherited (comp_name st x) = false) (masterComp :: allSubComps) →
  ∃ dupeMap,
    duplicateFullTree st masterComp langSuffix langFolder precompFolder
    = Some (Returns
              (st ++ (copy_of st langSuffix dupeMap precompFolder <$> topoSort st allSubComps)
                  ++ [copy_of st langSuffix dupeMap langFolder masterComp], dupeMap))
    ∧ topoSort st allSubComps ≡ₚ allSubComps
    ∧ (∀ x, x ∈ masterComp :: allSubComps → x < length st)
    ∧ (∀ x d, x ∈ masterComp :: allSubComps → child st x d → d ∈ allSubComps)
    ∧ (∀ i c d, topoSort st allSubComps !! i = Some c → child st c d →
         ∃ j, j < i ∧ topoSort st allSubComps !! j = Some d)
    ∧ (∀ j x, topoSort st allSubComps !! j = Some x →
         dupeMap !! comp_name st x = Some (length st + j))
    ∧ dupeMap !! comp_name st masterComp
      = Some (length st + length (topoSort st allSubComps))
    ∧ dom dupeMap = list_to_set (comp_name st <$> masterComp :: allSubComps).
Proof.
  intros Hr Hmaster Hall Hnames Hown.
  destruct (discoverAllSubComps_total st (valid_child st (ranked_valid rank st Hr)) masterComp)
    as (all & Hall' & [Hnd Hlt] & Hroot & Hclosed).
  rewrite Hall in Hall'. simplify_eq.
  assert (NoDup (comp_name st <$> all)) as Hnames' by by apply NoDup_cons in Hnames as [_ ?].
  apply Forall_cons in Hown as [_ Hown].
  destruct (topoSort_children_first_local rank st all Hr Hnames' Hown) as [Hperm Horder].
  assert (∀ x, x ∈ masterComp :: all → x < length st) as Hlt'.
  { intros x [->|Hx]%elem_of_cons; [done|by apply Hlt]. }
  assert (∀ x d, x ∈ masterComp :: all → child st x d → d ∈ all) as Hclosed'.
  { intros x d [->|Hx]%elem_of_cons; [apply Hroot|by apply Hclosed]. }
  assert (∀ i c d, topoSort st all !! i = Some c → child st c d →
            ∃ j, j < i ∧ topoSort st all !! j = Some d) as Horder'.
  { intros i c d Hi Hcd. apply (Horder i c d Hi Hcd).
    eapply Hclosed; [|done]. rewrite <- Hperm. by eapply list_elem_of_lookup_2. }
  destruct (replicate_exact st langSuffix masterComp all (topoSort st all)
              langFolder precompFolder Hlt' Hclosed' Hnames Hperm Horder')
    as (dupeMap & Hrep & Hdm & Hdmaster & Hdom).
  exists dupeMap. split; [|done].
  unfold duplicateFullTree. rewrite Hall. cbn [mbind option_bind]. by rewrite Hrep.
Qed.

(** X24: when the comps of the tree have pairwise different names, none
    of them the name of a member that every script object inherits (and
    the project is acyclic), the pass returns, leaves every comp that was
    there as it was, and the tree is [fully_relinked]: every comp of it
    has its copy in the map, under the suffixed name and in its folder,
    every layer that held a comp of the tree holds the copy of that comp,
    and no layer of a copy points back into the tree. *)
Theorem duplicateFullTree_relinks (rank : nat → nat) (st : Project) (masterComp : nat)
    (allSubComps : list nat) (langSuffix : string) (langFolder precompFolder : list string) :
  ranked rank st = true → masterComp < length st →
  discoverAllSubComps st masterComp = Some allSubComps →
  NoDup (comp_name st <$> masterComp :: allSubComps) →
  Forall (λ x, inherited (comp_name st x) = false) (masterComp :: allSubComps) →
  ∃ st' dupeMap,
    duplicateFullTree st masterComp langSuffix langFolder precompFolder
    = Some (Returns (st', dupeMap))
    ∧ st `prefix_of` st'
    ∧ fully_relinked st masterComp allSubComps langSuffix langFolder precompFolder
        st' dupeMap.
Proof.
  intros Hr Hmaster Hall Hnames Hown. rename allSubComps into all.
  destruct (duplicateFullTree_exact rank st masterComp all langSuffix langFolder precompFolder
              Hr Hmaster Hall Hnames Hown)
    as (dupeMap & Hrun & Hperm & Hlt' & Hclosed' & _ & Hdm & Hdmaster & _).
  eexists _, dupeMap. split; [exact Hrun|].
  split; [by apply prefix_app_r|].
  assert (∀ s, s ∈ all → ∃ j, dupeMap !! comp_name st s = Some (length st + j)) as Hsub.
  { intros s Hs. rewrite <- Hperm in Hs. apply list_elem_of_lookup in Hs as [j Hj].
    exists j. by apply Hdm. }
  assert (∀ folder c, c ∈ masterComp :: all →
            Forall2 (relinked st dupeMap) (comp_layers st c)
              (layers (copy_of st langSuffix dupeMap folder c))
            ∧ ∀ l' v, l' ∈ layers (copy_of st langSuffix dupeMap folder c) →
                sub_comp l' = Some v → v ∉ masterComp :: all) as Hcopy.
  { intros folder c Hc. unfold copy_of. cbn [layers]. split.
    - apply Forall2_fmap_same, Forall_forall. intros l Hl. apply redirected_relinked.
      intros s Hs. destruct (Hsub s) as [j Hj]; [|by rewrite Hj].
      apply (Hclosed' c); [done|by exists l].
    - intros l' v (l & -> & Hl)%list_elem_of_fmap Hv Hin.
      apply redirected_sub_comp in Hv as (s & Hs & Hcase).
      assert (s ∈ all) as Hsin by (apply (Hclosed' c); [done|by exists l]).
      destruct (Hsub s Hsin) as [j Hj]. rewrite Hj in Hcase.
      destruct Hcase as [? | [? _]]; [|done]. simplify_eq.
      specialize (Hlt' _ Hin). lia. }
  intros c Hc. destruct (decide (c = masterComp)) as [->|Hne].
  - exists (length st + length (topoSort st all)), (copy_of st langSuffix dupeMap langFolder masterComp).
    split; [done|]. split; [lia|]. split.
    { rewrite app_assoc. rewrite lookup_app_r; rewrite length_app, length_fmap; [|lia].
      by replace (length st + length (topoSort st all) - (length st + length (topoSort st all)))
        with 0 by lia. }
    split; [done|]. split; [done|]. by apply Hcopy.
  - apply elem_of_cons in Hc as [?|Hc]; [done|].
    pose proof Hc as Hc'. rewrite <- Hperm in Hc'.
    apply list_elem_of_lookup in Hc' as [j Hj].
    exists (length st + j), (copy_of st langSuffix dupeMap precompFolder c).
    split; [by apply Hdm|]. split; [lia|]. split.
    { rewrite lookup_app_r by lia. replace (length st + j - length st) with j by lia.
      rewrite lookup_app_l by (rewrite length_fmap; by eapply lookup_lt_Some).
      by rewrite list_lookup_fmap, Hj. }
    split; [done|]. split; [done|]. apply Hcopy. by right.
Qed.

End duplication.

Section duplication_shape.
Context {engine : Engine}.

(** ** Cyclic nesting *)

Lemma duplicate_sorted_returns (st0 : Project) (langSuffix : string) (folder : list string)
    (todo : list nat) (news : Project) (dupeMap : gmap string nat) :
  (∀ c, c ∈ todo →
     c < length st0
     ∧ ∀ d, child st0 c d → d < length st0 ∧ inherited (comp_name st0 d) = false) →
  ∃ news' dupeMap',
    duplicate_sorted (st0 ++ news) todo langSuffix folder dupeMap
    = Returns (st0 ++ news ++ news', dupeMap').
Proof.
  revert news dupeMap. induction todo as [|c todo IH]; intros news dupeMap Htodo.
  { exists [], dupeMap. by rewrite app_nil_r. }
  destruct (Htodo c) as [Hc Hkids]; [left|].
  cbn [duplicate_sorted]. rewrite duplicate_into_total.
  2: { intros d Hd. apply child_app in Hd; [|done]. destruct (Hkids d Hd) as [Hdlt Hown].
       split; [rewrite length_app; lia|]. right. by rewrite comp_name_app. }
  rewrite <- app_assoc.
  destruct (IH (news ++ [copy_of (st0 ++ news) langSuffix
                           (<[comp_name (st0 ++ news) c := length (st0 ++ news)]> dupeMap)
                           folder c])
              (<[comp_name (st0 ++ news) c := length (st0 ++ news)]> dupeMap))
    as (news' & dupeMap' & Hrun).
  { intros c' Hc'. apply Htodo. by right. }
  rewrite Hrun. eexists _, dupeMap'. by rewrite <- app_assoc.
Qed.

(** Without inherited names among the sub-comps the pass returns,
    whatever the nesting. *)
Lemma duplicateFullTree_returns (st : Project) (masterComp : nat) (allSubComps : list nat)
    (langSuffix : string) (langFolder precompFolder : list string) :
  valid_sources st = true → masterComp < length st →
  discoverAllSubComps st masterComp = Some allSubComps →
  Forall (λ x, inherited (comp_name st x) = false) allSubComps →
  ∃ st' dupeMap,
    duplicateFullTree st masterComp langSuffix langFolder precompFolder
    = Some (Returns (st', dupeMap)).
Proof.
  intros Hvalid Hmaster Hall Hown. rewrite Forall_forall in Hown.
  destruct (discoverAllSubComps_total st (valid_child st Hvalid) masterComp)
    as (all & Hall' & [Hnd Hlt] & Hroot & Hclosed).
  rewrite Hall in Hall'. simplify_eq.
  destruct (topoSort_inv st all) as [processed Hinv].
  unfold duplicateFullTree. rewrite Hall. cbn [mbind option_bind]. unfold replicate.
  destruct (duplicate_sorted_returns st langSuffix precompFolder (topoSort st all) [] ∅)
    as (news & dupeMap & Hrun).
  { intros c Hc%(inv_sub _ _ _ _ Hinv). split; [by apply Hlt|].
    intros d Hd. specialize (Hclosed c d Hc Hd). split; [by apply Hlt|by apply Hown]. }
  rewrite app_nil_r in Hrun. cbn [app] in Hrun. rewrite Hrun.
  rewrite duplicate_into_total; [by eexists _, _|].
  intros d Hd. apply child_app in Hd; [|done]. specialize (Hroot d Hd).
  split; [rewrite length_app; specialize (Hlt d Hroot); lia|].
  right. rewrite comp_name_app by by apply Hlt. by apply Hown.
Qed.

(** C3 (amended): on every project, cyclic or not, discovery ends and
    returns each sub-comp once, closed under nesting, and
    [duplicateFullTree] ends; it raises no error for a cycle: it returns
    whenever no sub-comp is called like a member that every script object
    inherits. The sort never holds a comp that contains itself (the names
    of the sub-comps being pairwise different and none of them inherited):
    such comps are silently left out of the order. *)
Theorem cyclic_nesting_is_left_out (st : Project) (comp : nat) (langSuffix : string)
    (langFolder precompFolder : list string) :
  valid_sources st = true →
  ∃ allSubComps,
    discoverAllSubComps st comp = Some allSubComps
    ∧ NoDup allSubComps
    ∧ (∀ x d, x ∈ comp :: allSubComps → child st x d → d ∈ allSubComps)
    ∧ is_Some (duplicateFullTree st comp langSuffix langFolder precompFolder)
    ∧ (comp < length st →
       Forall (λ x, inherited (comp_name st x) = false) allSubComps →
       ∃ st' dupeMap,
         duplicateFullTree st comp langSuffix langFolder precompFolder
         = Some (Returns (st', dupeMap)))
    ∧ (NoDup (comp_name st <$> allSubComps) →
       Forall (λ x, inherited (comp_name st x) = false) allSubComps →
       ∀ x, x ∈ allSubComps → tc (child st) x x → x ∉ topoSort st allSubComps).
Proof.
  intros Hvalid.
  destruct (discoverAllSubComps_total st (valid_child st Hvalid) comp)
    as (all & Hall & [Hnd Hlt] & Hroot & Hclosed).
  exists all. split; [done|]. split; [done|]. split.
  { intros x d [->|Hx]%elem_of_cons; [apply Hroot|by apply Hclosed]. }
  split.
  { unfold duplicateFullTree. rewrite Hall. by eexists. }
  split.
  { intros Hcomp Hown. by eapply duplicateFullTree_returns. }
  intros Hnames Hown x Hx Hcycle.
  destruct (topoSort_inv st all) as [processed Hinv].
  by apply (sort_inv_no_cycle st all Hnames Hown processed).
Qed.

(** ** The entries of the map *)

Lemma duplicate_into_named (lo : nat) (st : Project) (original : nat) (langSuffix : string)
    (folder : list string) (dupeMap : gmap string nat) (st' : Project)
    (dupeMap' : gmap string nat) :
  lo ≤ length st → named_copies lo langSuffix st dupeMap →
  duplicate_into st original langSuffix folder dupeMap = Returns (st', dupeMap') →
  named_copies lo langSuffix st' dupeMap' ∧ length st' = S (length st)
  ∧ st `prefix_of` st'.
Proof.
  intros Hlo Hdm (-> & st1 & ->)%duplicate_into_made. split; [|split].
  - intros key d. rewrite lookup_insert. case_decide as Hkey.
    + intros. simplify_eq. rewrite length_app. cbn [length]. split; [lia|].
      unfold comp_name at 1. by rewrite lookup_app_r, Nat.sub_diag.
    + intros Hd. destruct (Hdm key d Hd) as [Hrange Hname].
      rewrite length_app. cbn [length]. split; [lia|].
      by rewrite comp_name_app by lia.
  - rewrite length_app. cbn [length]. lia.
  - by apply prefix_app_r.
Qed.

Lemma duplicate_sorted_named (lo : nat) (langSuffix : string) (folder : list string)
    (sortedComps : list nat) (st : Project) (dupeMap : gmap string nat) (st' : Project)
    (dupeMap' : gmap string nat) :
  lo ≤ length st → named_copies lo langSuffix st dupeMap →
  duplicate_sorted st sortedComps langSuffix folder dupeMap = Returns (st', dupeMap') →
  named_copies lo langSuffix st' dupeMap'
  ∧ length st' = length st + length sortedComps
  ∧ st `prefix_of` st'.
Proof.
  revert st dupeMap. induction sortedComps as [|c cs IH]; intros st dupeMap Hlo Hdm Hrun.
  { cbn in Hrun. simplify_eq. split; [done|]. split; [cbn; lia|done]. }
  cbn [duplicate_sorted] in Hrun.
  destruct (duplicate_into st c langSuffix folder dupeMap) as [[st1 dm1]|st1] eqn:Hdup;
    [|done].
  destruct (duplicate_into_named lo st c langSuffix folder dupeMap st1 dm1 Hlo Hdm Hdup)
    as (Hdm1 & Hlen1 & Hpre1).
  destruct (IH st1 dm1) as (Hdm2 & Hlen2 & Hpre2); [lia|done|done|].
  split; [done|]. split; [cbn [length]; lia|by etrans].
Qed.

(** X11: whatever the nesting and the names, when [duplicateFullTree]
    returns, every entry of its map names a comp made by this very call,
    and that comp is called by the key of the entry followed by "_" and
    the language suffix; the master's name is a key, and its entry is the
    comp made last; the call has added one comp per sorted sub-comp and
    one for the master. *)
Theorem dupeMap_names_new_copies (st st' : Project) (masterComp : nat) (langSuffix : string)
    (langFolder precompFolder : list string) (dupeMap : gmap string nat)
    (allSubComps : list nat) :
  masterComp < length st →
  discoverAllSubComps st masterComp = Some allSubComps →
  duplicateFullTree st masterComp langSuffix langFolder precompFolder
  = Some (Returns (st', dupeMap)) →
  length st' = length st + length (topoSort st allSubComps) + 1
  ∧ dupeMap !! comp_name st masterComp = Some (length st' - 1)
  ∧ ∀ key d, dupeMap !! key = Some d →
      length st ≤ d < length st' ∧ comp_name st' d = key +:+ "_" +:+ langSuffix.
Proof.
  intros Hmaster Hall. unfold duplicateFullTree. rewrite Hall. cbn [mbind option_bind].
  intros Hrun. simplify_eq. unfold replicate in Hrun.
  destruct (duplicate_sorted st (topoSort st allSubComps) langSuffix precompFolder ∅)
    as [[st1 dm1]|st1] eqn:Hsorted; [|done].
  destruct (duplicate_sorted_named (length st) langSuffix precompFolder
              (topoSort st allSubComps) st ∅ st1 dm1) as (Hdm1 & Hlen1 & Hpre);
    [done|done|done|].
  destruct (duplicate_into_named (length st) st1 masterComp langSuffix langFolder dm1
              st' dupeMap) as (Hdm2 & Hlen2 & _); [lia|done|done|].
  split; [lia|]. split; [|done].
  apply duplicate_into_made in Hrun as [-> _].
  destruct Hpre as [k ->]. rewrite comp_name_app by done. rewrite lookup_insert_eq.
  f_equal. lia.
Qed.

(** ** Where the copies are filed *)

Lemma duplicate_into_filed (st news : Project) (original : nat) (langSuffix : string)
    (folder : list string) (dupeMap : gmap string nat) (st' : Project)
    (dupeMap' : gmap string nat) :
  original < length st →
  duplicate_into (st ++ news) original langSuffix folder dupeMap = Returns (st', dupeMap') →
  ∃ copy, st' = st ++ news ++ [copy] ∧ filed st langSuffix folder original copy.
Proof.
  intros Hlt (-> & st1 & ->)%duplicate_into_made. eexists.
  split; [by rewrite <- (assoc_L (++))|].
  split; [|split]; cbn [name parentFolder layers].
  - by rewrite comp_name_app.
  - done.
  - rewrite <- list_fmap_compose, comp_layers_app by done.
    apply list_fmap_ext. intros i l _. apply redirected_name.
Qed.

Lemma duplicate_sorted_filed (langSuffix : string) (folder : list string)
    (sortedComps : list nat) (st news : Project) (dupeMap : gmap string nat) (st' : Project)
    (dupeMap' : gmap string nat) :
  Forall (λ x, x < length st) sortedComps →
  duplicate_sorted (st ++ news) sortedComps langSuffix folder dupeMap
  = Returns (st', dupeMap') →
  ∃ copies, st' = st ++ news ++ copies
            ∧ Forall2 (filed st langSuffix folder) sortedComps copies.
Proof.
  revert news dupeMap. induction sortedComps as [|x xs IH]; intros news dupeMap Hlt Hrun.
  { cbn in Hrun. simplify_eq. exists []. split; [by rewrite app_nil_r|constructor]. }
  apply Forall_cons in Hlt as [Hx Hxs]. cbn [duplicate_sorted] in Hrun.
  destruct (duplicate_into (st ++ news) x langSuffix folder dupeMap) as [[st1 dm1]|st1]
    eqn:Hdup; [|done].
  destruct (duplicate_into_filed st news x langSuffix folder dupeMap st1 dm1 Hx Hdup)
    as (copy & -> & Hcopy).
  rewrite (assoc_L (++) st news) in Hrun. rewrite <- (assoc_L (++) st) in Hrun.
  destruct (IH (news ++ [copy]) dm1 Hxs Hrun) as (copies & -> & Hcopies).
  exists (copy :: copies). split; [|by constructor].
  by rewrite <- (assoc_L (++) news).
Qed.

(** X17: only master comps appear in language folders. In a project
    whose layers all point at comps of the project, a call of
    [duplicateFullTree] that returns has appended one copy per sorted
    sub-comp, in that order, each in the precomp folder, and then the copy
    of the master, in the language folder; every copy is named after its
    original with the suffix and has layers of the same names in the same
    order. *)
Theorem copies_are_filed (st st' : Project) (masterComp : nat) (langSuffix : string)
    (langFolder precompFolder : list string) (dupeMap : gmap string nat) :
  valid_sources st = true → masterComp < length st →
  duplicateFullTree st masterComp langSuffix langFolder precompFolder
  = Some (Returns (st', dupeMap)) →
  ∃ allSubComps copies master,
    discoverAllSubComps st masterComp = Some allSubComps
    ∧ st' = st ++ copies ++ [master]
    ∧ Forall2 (filed st langSuffix precompFolder) (topoSort st allSubComps) copies
    ∧ filed st langSuffix langFolder masterComp master.
Proof.
  intros Hvalid Hmaster.
  destruct (discoverAllSubComps_total st (valid_child st Hvalid) masterComp)
    as (all & Hall & [Hnd Hlt] & _).
  unfold duplicateFullTree. rewrite Hall. cbn [mbind option_bind].
  intros Hrun. simplify_eq. unfold replicate in Hrun.
  destruct (duplicate_sorted st (topoSort st all) langSuffix precompFolder ∅)
    as [[st1 dm1]|st1] eqn:Hsorted; [|done].
  rewrite <- (app_nil_r st) in Hsorted at 1.
  apply duplicate_sorted_filed in Hsorted as (copies & -> & Hcopies).
  2: { apply Forall_forall. intros x Hx. apply Hlt.
       by apply (proj1 (proj2 (proj2 (topoSort_is_sound_local st all)))). }
  cbn [app] in Hrun.
  apply duplicate_into_filed in Hrun as (master & -> & Hfiled); [|done].
  by exists all, copies, master.
Qed.

(** ** Searching the copies *)

(** X23: the search commutes with the duplication. When the comps of the
    tree have pairwise different names, none of them the name of a member
    that every script object inherits (and the project is acyclic), a
    search of the master's copy, right after [duplicateFullTree], finds
    what the same search of the master finds, in the copies: nothing if
    there is nothing, and otherwise the layer at the same position of the
    copy of the comp that owned it. *)
Theorem search_commutes_with_duplication (rank : nat → nat) (st : Project)
    (masterComp : nat) (allSubComps : list nat) (langSuffix : string)
    (langFolder precompFolder : list string) (layerName : JsString) :
  ranked rank st = true → masterComp < length st →
  discoverAllSubComps st masterComp = Some allSubComps →
  NoDup (comp_name st <$> masterComp :: allSubComps) →
  Forall (λ x, inherited (comp_name st x) = false) (masterComp :: allSubComps) →
  ∃ st' dupeMap dupeMaster found,
    duplicateFullTree st masterComp langSuffix langFolder precompFolder
    = Some (Returns (st', dupeMap))
    ∧ dupeMap !! comp_name st masterComp = Some dupeMaster
    ∧ findLayerDeep st masterComp layerName = Some found
    ∧ findLayerDeep st' dupeMaster layerName = Some (copied_place st dupeMap found)
    ∧ (is_Some found → is_Some (copied_place st dupeMap found)).
Proof.
  intros Hr Hmaster Hall Hnames Hown. rename allSubComps into all.
  destruct (duplicateFullTree_exact rank st masterComp all langSuffix langFolder precompFolder
              Hr Hmaster Hall Hnames Hown)
    as (dupeMap & Hrun & Hperm & Hlt & Hclosed & _ & Hdm & Hdmaster & _).
  set (sorted := topoSort st all) in *.
  set (st' := st ++ (copy_of st langSuffix dupeMap precompFolder <$> sorted)
                 ++ [copy_of st langSuffix dupeMap langFolder masterComp]) in *.
  assert (∀ x, x ∈ masterComp :: all →
            ∃ cx, dupeMap !! comp_name st x = Some cx
                  ∧ comp_layers st' cx = redirected st dupeMap <$> comp_layers st x) as Htree.
  { intros x [->|Hx]%elem_of_cons.
    - eexists. split; [exact Hdmaster|]. unfold comp_layers, st'.
      rewrite app_assoc, lookup_app_r; rewrite length_app, length_fmap; [|lia].
      by rewrite Nat.sub_diag.
    - rewrite <- Hperm in Hx. apply list_elem_of_lookup in Hx as [j Hj].
      eexists. split; [by apply Hdm|]. unfold comp_layers, st'.
      rewrite lookup_app_r by lia. rewrite lookup_app_l.
      + replace (length st + j - length st) with j by lia.
        by rewrite list_lookup_fmap, Hj.
      + rewrite length_fmap. apply lookup_lt_Some in Hj. lia. }
  assert (∀ x d, x ∈ masterComp :: all → child st x d → d ∈ masterComp :: all) as Hclosed2.
  { intros x d Hx Hd. right. by apply (Hclosed x). }
  destruct (findLayerDeep_is_Some rank st masterComp layerName Hr Hmaster) as [found Hfound].
  exists st', dupeMap, (length st + length sorted), found.
  split; [done|]. split; [done|]. split; [done|].
  assert (findLayerDeep st' (length st + length sorted) layerName
          = Some (copied_place st dupeMap found)) as Hcopied.
  { unfold findLayerDeep in *.
    rewrite (findLayerDeep_at_copies st st' dupeMap (masterComp :: all) layerName)
      with (x := masterComp).
    - rewrite (findLayerDeep_at_stable rank st layerName (length st) (length st') masterComp),
        Hfound; [done|done|by apply ranked_rank_lt|].
      unfold st'. rewrite length_app. lia.
    - intros x Hx. destruct (Htree x Hx) as (cx & Hcx & _). by exists cx.
    - intros x cx Hx Hcx. destruct (Htree x Hx) as (cx' & Hcx' & Hlayers). congruence.
    - exact Hclosed2.
    - left.
    - done. }
  split; [done|]. intros [[c i] ->].
  assert (c ∈ masterComp :: all) as Hc.
  { apply (tree_rtc st (masterComp :: all) Hclosed2 masterComp); [left|].
    by eapply findLayerDeep_at_owner. }
  destruct (Htree c Hc) as (cc & Hcc & _).
  unfold copied_place. cbn [mbind option_bind]. rewrite Hcc. by eexists.
Qed.

End duplication_shape.

(** ** Whole runs *)

Lemma isFootageType_member (row : Row) :
  isFootageType (row_type row)
  = bool_decide (toLowerCase (default "text" (row !! "type")) ∈ ["footage"; "image"]).
Proof.
  assert (∀ s, isFootageType s = bool_decide (s ∈ ["footage"; "image"])) as Hmember.
  { intros s. unfold isFootageType. apply eq_true_iff_eq.
    rewrite orb_true_iff, !bool_decide_eq_true, !elem_of_cons, elem_of_nil. tauto. }
  unfold row_type. destruct (row !! "type") as [t|]; [|done].
  cbn [default from_option id]. case_bool_decide as Ht; [by rewrite Ht|apply Hmember].
Qed.

Lemma fail_counts (r : Run) (msg : string) :
  project (fail r msg) = project r
  ∧ success (stats (fail r msg)) = success (stats r)
  ∧ skipped (stats (fail r msg)) = skipped (stats r)
  ∧ errors (stats (fail r msg)) = S (errors (stats r))
  ∧ ∃ msg', errorLog (fail r msg)
            = if bool_decide (length (errorLog r) < 20) then errorLog r ++ [msg']
              else errorLog r.
Proof.
  do 4 (split; [done|]). exists msg. unfold fail. cbn [errorLog].
  destruct (length (errorLog r) <? 20) eqn:Hlt.
  - apply Nat.ltb_lt in Hlt. by rewrite bool_decide_eq_true_2.
  - apply Nat.ltb_ge in Hlt. rewrite bool_decide_eq_false_2; [done|lia].
Qed.

(** What one row with a value does: it writes the [substitution] it asks
    for and counts a success, or it counts a failure. *)
Lemma apply_row_substitution (host : Host) (lang : string) (allDupes : gmap string nat)
    (r r' : Run) (row : Row) (value : string) :
  row !! lang = Some value → value ≠ "" →
  apply_row host lang allDupes r row = Some r' →
  match substitution host allDupes (project r) row value with
  | Some (comp, i, layer') => r' = succeed r comp i layer'
  | None =>
      project r' = project r
      ∧ success (stats r') = success (stats r)
      ∧ skipped (stats r') = skipped (stats r)
      ∧ errors (stats r') = S (errors (stats r))
      ∧ ∃ msg, errorLog r' = if bool_decide (length (errorLog r) < 20)
                             then errorLog r ++ [msg] else errorLog r
  end.
Proof.
  intros Hvalue Hne. unfold apply_row, substitution. rewrite Hvalue.
  destruct value as [|ch value]; [done|].
  destruct (allDupes !! _) as [dupeMaster|]; cbn [mbind option_bind];
    [|intros; simplify_eq; apply fail_counts].
  destruct (findLayerDeep _ _ _) as [[[comp i]|]|]; cbn [mbind option_bind mjoin option_join];
    [| intros; simplify_eq; apply fail_counts | done].
  cbn [fst snd]. intros. simplify_eq. unfold replace_layer.
  rewrite isFootageType_member.
  destruct (comp_layers (project r) comp !! i) as [layer|];
    cbn [mbind option_bind default from_option id].
  - destruct (bool_decide _).
    + destruct (replaceFootage _ _ _); cbn [mbind option_bind]; [done|apply fail_counts].
    + destruct (replaceText _ _); cbn [mbind option_bind]; [done|apply fail_counts].
  - destruct (bool_decide _).
    + unfold replaceFootage. destruct (negb _); [apply fail_counts|].
      destruct (negb _); apply fail_counts.
    + apply fail_counts.
Qed.

Lemma own_comp_name `{!Engine} (st : Project) (c : nat) :
  Forall (λ comp, inherited (name comp) = false) st → c < length st →
  inherited (comp_name st c) = false.
Proof.
  intros Hown Hc. destruct (lookup_lt_is_Some_2 st c Hc) as [comp Hcomp].
  unfold comp_name. rewrite Hcomp. cbn.
  rewrite Forall_forall in Hown. apply Hown. by eapply list_elem_of_lookup_2.
Qed.

Section runs.
Context {engine : Engine}.

(** *** The list of master comps *)

Lemma masterList_None (rows : list Row) :
  masterList rows = None
  ↔ ∃ row, row ∈ rows ∧ js_str (row !! "comp_name") = "hasOwnProperty".
Proof.
  unfold masterList. case_bool_decide as Hin.
  - split; [intros _|done].
    apply masterCompNames_from_inv in Hin as [[]%elem_of_nil|?]. done.
  - split; [done|]. intros Hrow. exfalso. apply Hin.
    apply masterCompNames_from_elem. by right.
Qed.

Lemma masterList_Some (rows : list Row) (names : list string) :
  masterList rows = Some names →
  NoDup names
  ∧ ∀ n, n ∈ names ↔ ∃ row, row ∈ rows ∧ js_str (row !! "comp_name") = n.
Proof.
  unfold masterList. case_bool_decide; [done|]. intros. simplify_eq. split.
  - rewrite forIn_Permutation. apply masterCompNames_from_NoDup, NoDup_nil_2.
  - intros n. rewrite forIn_Permutation. split.
    + intros [[]%elem_of_nil|?]%masterCompNames_from_inv. done.
    + intros Hrow. apply masterCompNames_from_elem. by right.
Qed.

Lemma masterList_total (rows : list Row) :
  Forall (λ row, js_str (row !! "comp_name") ≠ "hasOwnProperty") rows →
  is_Some (masterList rows).
Proof.
  intros Hrows. destruct (masterList rows) as [names|] eqn:Hlist; [by eexists|].
  apply masterList_None in Hlist as (row & Hrow & Hname).
  rewrite Forall_forall in Hrows. by destruct (Hrows row Hrow).
Qed.

(** X6: collecting the master comp names raises exactly when some row
    names a comp [hasOwnProperty]; otherwise the list holds every value of
    the [comp_name] column, and nothing else, exactly once, however many
    rows name the same comp and in whatever order the engine visits the
    keys (a row without that column counts as the name "undefined"). *)
Theorem masterList_distinct_names (rows : list Row) :
  (masterList rows = None
   ↔ ∃ row, row ∈ rows ∧ js_str (row !! "comp_name") = "hasOwnProperty")
  ∧ ∀ names, masterList rows = Some names →
      NoDup names
      ∧ ∀ n, n ∈ names ↔ ∃ row, row ∈ rows ∧ js_str (row !! "comp_name") = n.
Proof. split; [apply masterList_None|apply masterList_Some]. Qed.

(** *** The project during a run *)

Section run_grown.
Variable rank : nat → nat.
Variable st0 : Project.
Hypothesis Hranked : ranked rank st0 = true.

Lemma duplicate_masters_grown (masters : list nat) (st : Project) (langSuffix : string)
    (langFolder precompFolder : list string) (allDupes : gmap string nat) :
  grown st0 st → Forall (λ m, m < length st0) masters →
  entries_within (length st0) (length st) allDupes →
  ∃ c,
    duplicate_masters st masters langSuffix langFolder precompFolder allDupes = Some c
    ∧ match c with
      | Returns (st', allDupes') =>
          grown st0 st' ∧ st `prefix_of` st'
          ∧ entries_within (length st0) (length st') allDupes'
      | Raises st' => st `prefix_of` st'
      end.
Proof.
  revert st allDupes. induction masters as [|m masters IH]; intros st allDupes Hg Hm Hent.
  { exists (Returns (st, allDupes)). by split. }
  apply Forall_cons in Hm as [Hm Hms]. cbn [duplicate_masters].
  destruct (duplicateFullTree_grown rank st0 Hranked st m langSuffix langFolder precompFolder
              Hg Hm) as (c1 & -> & Hc1).
  cbn [mbind option_bind]. destruct c1 as [[st1 dupeMap]|st1]; [|by eexists].
  destruct Hc1 as (Hg1 & Hpre1 & Hent1). case_bool_decide; [by eexists|].
  destruct (IH st1 (dupeMap ∪ allDupes) Hg1 Hms) as (c & -> & Hc).
  { intros key v [Hv | [_ Hv]]%lookup_union_Some_raw; [by eapply Hent1|].
    specialize (Hent key v Hv). apply prefix_length in Hpre1. lia. }
  exists c. split; [done|]. destruct c as [[st' allDupes']|st']; [|by etrans].
  destruct Hc as (? & ? & ?). split; [done|]. split; [by etrans|done].
Qed.

Lemma run_languages_grown (host : Host) (masters : list nat) (rows : list Row)
    (languages : list string) (r : Run) (c : Completion Run) :
  grown st0 (project r) → Forall (λ m, m < length st0) masters →
  run_languages host masters rows r languages = Some c →
  match c with
  | Returns r' => grown st0 (project r')
  | Raises st' => st0 `prefix_of` st'
  end.
Proof.
  intros Hg Hm. revert r Hg. induction languages as [|lang languages IH]; intros r Hg Hrun.
  { cbn in Hrun. by simplify_eq. }
  cbn [run_languages] in Hrun.
  destruct (duplicate_masters_grown masters (project r) (langSuffix_of lang)
              (outputFolder ++ [langLabel_of lang]) precompFolder ∅ Hg Hm)
    as (c1 & Hdup & Hc1).
  { intros key v. by rewrite lookup_empty. }
  rewrite Hdup in Hrun. cbn [mbind option_bind] in Hrun.
  destruct c1 as [[st1 allDupes]|st1].
  - destruct Hc1 as (Hg1 & _ & Hent1).
    destruct (apply_rows host lang allDupes _ rows) as [r1|] eqn:Hrows; [|done].
    cbn in Hrun. apply (IH r1); [|done].
    eapply apply_rows_grown; [| |exact Hrows]; done.
  - simplify_eq. etrans; [apply (grown_prefix _ _ Hg)|done].
Qed.

End run_grown.

(** However a run ends, by returning or by raising, the comps the
    project began with are as they were: the project the run leaves is
    the old one followed by copies. *)
Lemma main_frame (rank : nat → nat) (host : Host) (st : Project)
    (csvContent : string) (confirm : bool) (c : Completion (Project * Outcome)) :
  ranked rank st = true →
  main_script host st csvContent confirm = Some c →
  st `prefix_of` project_left c.
Proof.
  intros Hr. unfold main_script. case_bool_decide; [by intros; simplify_eq|].
  destruct (masterList _) as [names|]; [|by intros; simplify_eq].
  destruct (find_masters _ _) as [[missing|masters]|] eqn:Hfind; cbn [mbind option_bind];
    [by intros; simplify_eq| |done].
  destruct (layerCheck _ _); cbn [mbind option_bind]; [|done].
  destruct confirm; cbn [negb]; [|by intros; simplify_eq].
  destruct (run_languages _ _ _ _ _) as [c1|] eqn:Hrun; cbn [mbind option_bind]; [|done].
  intros. simplify_eq.
  apply (run_languages_grown rank st Hr) in Hrun.
  - destruct c1 as [r|st1]; cbn [project_left]; [by apply (grown_prefix st (project r))|done].
  - cbn [project]. apply grown_start. by eapply ranked_valid.
  - by eapply find_masters_comps.
Qed.

(** *** Counts and the error log *)

Lemma run_languages_counts (host : Host) (masters : list nat) (rows : list Row)
    (languages : list string) (r r' : Run) :
  run_languages host masters rows r languages = Some (Returns r') → log_capped r →
  log_capped r' ∧ handled r' = handled r + length languages * length rows.
Proof.
  revert r. induction languages as [|lang languages IH]; intros r Hrun Hcap.
  - cbn in Hrun. simplify_eq. split; [done|]. cbn. lia.
  - cbn [run_languages] in Hrun.
    destruct (duplicate_masters _ _ _ _ _ _) as [[[st1 allDupes]|st1]|]; [|done..].
    cbn in Hrun.
    destruct (apply_rows host lang allDupes _ rows) as [r1|] eqn:Hrows; [|done].
    cbn in Hrun. apply apply_rows_counts in Hrows as [Hcap1 Hh1]; [|done].
    destruct (IH r1 Hrun Hcap1) as [? Hh']. split; [done|].
    rewrite Hh', Hh1. unfold handled. cbn. lia.
Qed.

(** *** Runs that end *)

Section run_total.
Variable rank : nat → nat.
Variable st0 : Project.
Hypothesis Hranked : ranked rank st0 = true.
Hypothesis Hnames : NoDup (name <$> st0).
Hypothesis Hown : Forall (λ comp, inherited (name comp) = false) st0.

(** In a project whose comps have pairwise different names, none of them
    inherited, duplicating the tree of an original comp returns and keeps
    the project [settled]. *)
Lemma duplicateFullTree_settled (st : Project) (masterComp : nat) (allSubComps : list nat)
    (langSuffix : string) (langFolder precompFolder : list string) :
  settled st0 st → masterComp < length st0 →
  discoverAllSubComps st0 masterComp = Some allSubComps →
  ∃ st' dupeMap,
    duplicateFullTree st masterComp langSuffix langFolder precompFolder
    = Some (Returns (st', dupeMap))
    ∧ settled st0 st'
    ∧ st `prefix_of` st'
    ∧ entries_within (length st0) (length st') dupeMap
    ∧ ("hasOwnProperty" ∉ dom dupeMap)
    ∧ length st' = length st + (1 + length allSubComps).
Proof.
  intros [Hg [rank' Hr']] Hmaster Hall0. rename allSubComps into all.
  pose proof (prefix_length _ _ (grown_prefix _ _ Hg)) as Hlen0.
  pose proof (discoverAllSubComps_grown rank st0 Hranked st masterComp all Hg Hmaster Hall0)
    as Hall.
  destruct (discoverAllSubComps_total st0 (valid_child st0 (ranked_valid rank st0 Hranked))
              masterComp) as (all' & Hall' & [Hnd Hlt] & Hroot & Hclosed).
  assert (all' = all) as -> by congruence.
  assert (Forall (λ c, rank c < rank masterComp) all) as Hbelow.
  { unfold discoverAllSubComps in Hall0.
    eapply (discoverAllSubComps_at_within st0 (λ c, rank c < rank masterComp));
      [| | |exact Hall0].
    - intros x d Hx (l & Hl & Hd).
      destruct (ranked_child rank st0 x d l Hranked Hl Hd). lia.
    - intros d (l & Hl & Hd). by destruct (ranked_child rank st0 masterComp d l Hranked Hl Hd).
    - by apply Forall_nil. }
  assert (comp_name st <$> (masterComp :: all) = comp_name st0 <$> (masterComp :: all))
    as Hsame.
  { apply Forall_fmap_ext_1, Forall_cons. split.
    - by apply grown_original.
    - rewrite Forall_forall. intros x Hx. apply grown_original; [done|]. by apply Hlt. }
  assert (NoDup (comp_name st <$> masterComp :: all)) as Hdistinct.
  { rewrite Hsame. apply distinct_comp_names; [done| |apply Forall_cons; split; [done|]].
    - apply NoDup_cons. split; [|done]. intros Hin.
      rewrite Forall_forall in Hbelow. specialize (Hbelow _ Hin). lia.
    - rewrite Forall_forall. intros x Hx. by apply Hlt. }
  assert (Forall (λ x, inherited (comp_name st x) = false) (masterComp :: all)) as Hnone.
  { apply Forall_forall. intros x Hx.
    assert (x < length st0) as Hx0.
    { apply elem_of_cons in Hx as [->|Hx]; [done|by apply Hlt]. }
    rewrite (proj1 (grown_original st0 st x Hg Hx0)). by apply own_comp_name. }
  destruct (duplicateFullTree_exact rank' st masterComp all langSuffix langFolder precompFolder
              Hr') as (dm & Hrun & Hperm & Hlt' & Hclosed' & Horder & Hdm & _ & Hdom);
    [lia|done|done|done|].
  destruct (duplicateFullTree_grown rank st0 Hranked st masterComp langSuffix langFolder
              precompFolder Hg Hmaster) as (c & Hrun' & Hc).
  rewrite Hrun in Hrun'. simplify_eq. destruct Hc as (Hg' & Hpre & Hent).
  eexists _, dm. split; [done|].
  split; [split; [done|]|].
  2: { split; [done|]. split; [done|]. split.
       - rewrite Hdom, elem_of_list_to_set. intros Hin.
         apply list_elem_of_fmap in Hin as (x & Hx & Hin).
         rewrite Forall_forall in Hnone. specialize (Hnone x Hin).
         rewrite <- Hx, inherited_hasOwnProperty in Hnone. discriminate.
       - rewrite !length_app, length_fmap, Hperm. cbn [length]. lia. }
  set (sorted := topoSort st all) in *.
  exists (λ c, if c <? length st then rank' c else c).
  apply ranked_intro. intros c comp Hc.
  pose proof (lookup_lt_Some _ _ _ Hc) as Hclt.
  apply lookup_app_Some in Hc as [Hc | [Hge Hc]].
  - pose proof (lookup_lt_Some _ _ _ Hc) as Hc'.
    destruct (ranked_lookup rank' st c comp Hr' Hc) as [Hrank Hkids].
    rewrite (proj2 (Nat.ltb_lt _ _) Hc'). split; [rewrite length_app; lia|].
    intros l d Hl Hd. destruct (Hkids l d Hl Hd) as [Hdlt Hdr].
    rewrite (proj2 (Nat.ltb_lt _ _) Hdlt). rewrite length_app. lia.
  - rewrite (proj2 (Nat.ltb_ge _ _) Hge). split; [done|].
    assert (∃ x folder, comp = copy_of st langSuffix dm folder x
              ∧ x ∈ masterComp :: all
              ∧ ∀ d, child st x d → ∃ j, length st + j < c ∧ sorted !! j = Some d)
      as (x & folder & -> & Hx & Hkids).
    { apply lookup_app_Some in Hc as [Hc | [Hge' Hc]].
      - rewrite list_lookup_fmap in Hc.
        destruct (sorted !! (c - length st)) as [x|] eqn:Hx; [|done].
        cbn in Hc. simplify_eq. exists x, precompFolder. split; [done|].
        split; [right; rewrite <- Hperm; by eapply list_elem_of_lookup_2|].
        intros d Hd. destruct (Horder _ x d Hx Hd) as (j & Hj & Hjd).
        exists j. split; [lia|done].
      - apply list_lookup_singleton_Some in Hc as [Hc <-].
        rewrite length_fmap in Hge', Hc.
        exists masterComp, langFolder. split; [done|]. split; [left|].
        intros d Hd. assert (d ∈ sorted) as Hin.
        { rewrite Hperm. eapply Hclosed'; [left|done]. }
        apply list_elem_of_lookup in Hin as [j Hj]. exists j. split; [|done].
        apply lookup_lt_Some in Hj. lia. }
    change (layers (copy_of st langSuffix dm folder x))
      with (redirected st dm <$> comp_layers st x).
    intros l' v (l & -> & Hl)%list_elem_of_fmap Hv.
    apply redirected_sub_comp in Hv as (s & Hs & Hcase).
    destruct (Hkids s) as (j & Hj & Hjs); [by exists l|].
    rewrite (Hdm j s Hjs) in Hcase. destruct Hcase as [? | [? _]]; [|done]. simplify_eq.
    rewrite (proj2 (Nat.ltb_ge _ _)) by lia. lia.
Qed.

Lemma duplicate_masters_count (masters : list nat) (st : Project) (langSuffix : string)
    (langFolder precompFolder : list string) (allDupes : gmap string nat) (n total : nat) :
  settled st0 st → Forall (λ m, m < length st0) masters →
  entries_within (length st0) (length st) allDupes →
  totalNewComps_from st0 masters 1 total = Some n →
  ∃ st' allDupes',
    duplicate_masters st masters langSuffix langFolder precompFolder allDupes
    = Some (Returns (st', allDupes'))
    ∧ settled st0 st'
    ∧ entries_within (length st0) (length st') allDupes'
    ∧ length st' + total = length st + n.
Proof.
  revert st allDupes total.
  induction masters as [|m masters IH]; intros st allDupes total Hs Hm Hent Hn.
  { cbn in Hn. simplify_eq. by exists st, allDupes. }
  apply Forall_cons in Hm as [Hm Hms]. cbn [duplicate_masters totalNewComps_from] in *.
  destruct (discoverAllSubComps st0 m) as [all|] eqn:Hall; [|done].
  cbn [mbind option_bind] in Hn.
  destruct (duplicateFullTree_settled st m all langSuffix langFolder precompFolder Hs Hm Hall)
    as (st1 & dupeMap & Hrun & Hs1 & Hpre1 & Hent1 & Hprop & Hlen1).
  rewrite Hrun. cbn [mbind option_bind]. rewrite bool_decide_eq_false_2 by done.
  assert (entries_within (length st0) (length st1) (dupeMap ∪ allDupes)) as Hent2.
  { intros key v [Hv | [_ Hv]]%lookup_union_Some_raw; [by eapply Hent1|].
    specialize (Hent key v Hv). lia. }
  destruct (IH st1 (dupeMap ∪ allDupes) _ Hs1 Hms Hent2 Hn)
    as (st' & allDupes' & Hrun' & Hs' & Hent' & Hlen').
  exists st', allDupes'. split; [done|]. split; [done|]. split; [done|]. lia.
Qed.

Lemma run_languages_count (host : Host) (masters : list nat) (rows : list Row)
    (languages : list string) (r : Run) (n : nat) :
  settled st0 (project r) → Forall (λ m, m < length st0) masters →
  totalNewComps_from st0 masters 1 0 = Some n →
  ∃ r', run_languages host masters rows r languages = Some (Returns r')
        ∧ settled st0 (project r')
        ∧ length (project r') = length (project r) + length languages * n.
Proof.
  intros Hs Hm Hn. revert r Hs. induction languages as [|lang languages IH]; intros r Hs.
  { exists r. split; [done|]. split; [done|]. cbn. lia. }
  cbn [run_languages].
  destruct (duplicate_masters_count masters (project r) (langSuffix_of lang)
              (outputFolder ++ [langLabel_of lang]) precompFolder ∅ n 0 Hs Hm)
    as (st1 & allDupes & -> & Hs1 & Hent1 & Hlen1); [|done|].
  { intros key v. by rewrite lookup_empty. }
  cbn [mbind option_bind].
  destruct (apply_rows_settled_length st0 host lang allDupes rows
              {| project := st1; stats := stats r; errorLog := errorLog r |} Hs1 Hent1)
    as (r1 & -> & Hs1' & Hlen1').
  cbn [mbind option_bind]. destruct (IH r1 Hs1') as (r' & Hrun & Hs' & Hlen').
  exists r'. split; [done|]. split; [done|]. cbn [project length] in *. lia.
Qed.

End run_total.

Lemma layerCheck_masters (rank : nat → nat) (st : Project) (rows : list Row)
    (names : list string) (masters : list nat) :
  ranked rank st = true → masterList rows = Some names →
  find_masters st names = Some (inr masters) →
  is_Some (layerCheck st rows).
Proof.
  intros Hr Hlist Hfind. apply (layerCheck_total rank); [done|].
  intros row Hrow.
  assert (js_str (row !! "comp_name") ∈ names) as Hin.
  { apply (masterList_Some rows names Hlist). by exists row. }
  apply list_elem_of_lookup in Hin as [i Hi].
  destruct (Forall2_lookup_l _ _ _ _ _ (find_masters_lt _ _ _ Hfind) Hi) as (m & _ & Hm).
  by exists m.
Qed.

Lemma main_complete (rank : nat → nat) (host : Host) (st : Project) (csvContent : string)
    (names : list string) (masters : list nat) :
  ranked rank st = true → NoDup (name <$> st) →
  Forall (λ comp, inherited (name comp) = false) st →
  detectLanguages (headers (parseCSV csvContent)) ≠ [] →
  masterList (rows (parseCSV csvContent)) = Some names →
  find_masters st names = Some (inr masters) →
  ∃ n st' s,
    totalNewComps st masters (length (detectLanguages (headers (parseCSV csvContent))))
    = Some n
    ∧ main_script host st csvContent true = Some (Returns (st', Complete s))
    ∧ settled st st'
    ∧ length st' = length st + n.
Proof.
  intros Hr Hnames Hown Hlangs Hlist Hfind.
  pose proof (ranked_valid rank st Hr) as Hv.
  destruct (totalNewComps_from_total st masters
              (length (detectLanguages (headers (parseCSV csvContent)))) 0 Hv) as [n Hn].
  destruct (totalNewComps_from_shift _ _ _ _ _ Hn) as (n1 & Hn1 & ->).
  unfold main_script. rewrite bool_decide_eq_false_2 by done.
  rewrite Hlist, Hfind. cbn [mbind option_bind].
  destruct (layerCheck_masters rank st _ names masters Hr Hlist Hfind) as [check ->].
  cbn [mbind option_bind negb].
  destruct (run_languages_count rank st Hr Hnames Hown host masters (rows (parseCSV csvContent))
              (detectLanguages (headers (parseCSV csvContent)))
              {| project := st; stats := {| success := 0; skipped := 0; errors := 0 |};
                 errorLog := [] |} n1) as (r & -> & Hs & Hlen).
  - split; [by apply grown_start|by exists rank].
  - by eapply find_masters_comps.
  - done.
  - cbn [mbind option_bind project] in *. eexists _, _, _. split; [done|].
    split; [done|]. split; [done|]. lia.
Qed.

(** In an acyclic project whose comps have pairwise different names,
    none of them inherited, every run returns, unless a row names a comp
    [hasOwnProperty]. *)
Lemma main_total (rank : nat → nat) (host : Host) (st : Project) (csvContent : string)
    (confirm : bool) :
  ranked rank st = true → NoDup (name <$> st) →
  Forall (λ comp, inherited (name comp) = false) st →
  Forall (λ row, js_str (row !! "comp_name") ≠ "hasOwnProperty")
    (rows (parseCSV csvContent)) →
  ∃ st' o, main_script host st csvContent confirm = Some (Returns (st', o))
           ∧ settled st st'.
Proof.
  intros Hr Hnames Hown Hrows.
  assert (settled st st) as Hs0.
  { split; [apply grown_start; by eapply ranked_valid|by exists rank]. }
  destruct (decide (detectLanguages (headers (parseCSV csvContent)) = [])) as [Hnone|Hlangs].
  { unfold main_script. rewrite bool_decide_eq_true_2 by done. by eexists _, _. }
  destruct (masterList_total _ Hrows) as [names Hlist].
  pose proof (ranked_valid rank st Hr) as Hv.
  destruct (find_masters_total st names Hv) as [[missing|masters] Hfind].
  { unfold main_script. rewrite bool_decide_eq_false_2 by done.
    rewrite Hlist, Hfind. by eexists _, _. }
  destruct confirm.
  - destruct (main_complete rank host st csvContent names masters Hr Hnames Hown Hlangs
                Hlist Hfind) as (n & st' & s & _ & Hrun & Hs & _).
    by eexists _, _.
  - unfold main_script. rewrite bool_decide_eq_false_2 by done.
    rewrite Hlist, Hfind. cbn [mbind option_bind].
    destruct (layerCheck_masters rank st _ names masters Hr Hlist Hfind) as [check ->].
    by eexists _, _.
Qed.

(** C2 (amended): in an acyclic project, however a run ends (completed,
    cancelled, refused, or cut short by an error) the project it leaves is
    the one it found followed by new comps: every comp that was there,
    with its name, its folder, its layers and their text and sources, is
    as it was. When the comps have pairwise different names, none of them
    the name of a member that every script object inherits, and no row
    names a comp [hasOwnProperty], the run returns. *)
Theorem originals_untouched (rank : nat → nat) (host : Host) (st : Project)
    (csvContent : string) (confirm : bool) :
  ranked rank st = true →
  (∀ c, main_script host st csvContent confirm = Some c → st `prefix_of` project_left c)
  ∧ (NoDup (name <$> st) →
     Forall (λ comp, inherited (name comp) = false) st →
     Forall (λ row, js_str (row !! "comp_name") ≠ "hasOwnProperty")
       (rows (parseCSV csvContent)) →
     ∃ st' o, main host st csvContent confirm = Some (st', o) ∧ st `prefix_of` st').
Proof.
  intros Hr. split.
  - intros c. by apply (main_frame rank).
  - intros Hnames Hown Hrows.
    destruct (main_total rank host st csvContent confirm Hr Hnames Hown Hrows)
      as (st' & o & Hrun & Hs).
    exists st', o. unfold main. rewrite Hrun. split; [done|].
    apply (grown_prefix _ _ (proj1 Hs)).
Qed.

(** C7 (amended): [detectLanguages] returns, in header order, exactly the
    non-empty headers whose lower-case form is not a reserved column name;
    when there is none, [main] ends at once and the project is as it was. *)
Theorem detectLanguages_exact (host : Host) (st : Project) (csvContent : string)
    (confirm : bool) (hs : list string) :
  detectLanguages hs
  = filter (λ h, (toLowerCase h ∉ CONFIG.reservedColumns) ∧ h ≠ "") hs
  ∧ (detectLanguages (headers (parseCSV csvContent)) = [] →
     main host st csvContent confirm = Some (st, NoLanguageColumns)).
Proof.
  split; [apply detectLanguages_filter|].
  intros Hnone. unfold main, main_script. by rewrite Hnone.
Qed.

(** C9: a row with a value either has its substitution written and is
    counted as a success, or, whatever made the substitution fail (no
    copy of the comp, no layer of the name, a replacement that is
    refused), adds one to the error count and nothing to the other
    counts, leaves the project as it is, and adds its message to the log
    only while the log has fewer than twenty entries; so at the end of a
    run the log holds the first [min errors 20] messages, every row of
    every language has been counted once, and the closing summary shows
    the counts, that log and the number of failures left out. *)
Theorem error_log_capped (host : Host) (lang : string) (allDupes : gmap string nat)
    (r r' : Run) (row : Row) (value : string) (st st' : Project) (csvContent : string)
    (confirm : bool) (s : Summary) :
  (row !! lang = Some value → value ≠ "" →
   apply_row host lang allDupes r row = Some r' →
   match substitution host allDupes (project r) row value with
   | Some (comp, i, layer') => r' = succeed r comp i layer'
   | None =>
       project r' = project r
       ∧ success (stats r') = success (stats r)
       ∧ skipped (stats r') = skipped (stats r)
       ∧ errors (stats r') = S (errors (stats r))
       ∧ ∃ msg, errorLog r' = if bool_decide (length (errorLog r) < 20)
                              then errorLog r ++ [msg] else errorLog r
   end)
  ∧ (main host st csvContent confirm = Some (st', Complete s) →
     length (sum_details s) = sum_errors s `min` 20
     ∧ sum_successful s + sum_skipped s + sum_errors s
       = sum_languages s * length (rows (parseCSV csvContent))
     ∧ sum_more s = if bool_decide (20 < sum_errors s)
                    then Some (sum_errors s - 20) else None).
Proof.
  split; [apply apply_row_substitution|].
  unfold main, main_script. intros Hrun.
  case_bool_decide; [done|].
  destruct (masterList _) as [names|]; [|done].
  destruct (find_masters _ _) as [[missing|masters]|]; cbn in Hrun; [done| |done].
  destruct (layerCheck _ _); cbn in Hrun; [|done].
  destruct confirm; cbn in Hrun; [|done].
  destruct (run_languages _ _ _ _ _) as [[r1|st1]|] eqn:Hlangs; cbn in Hrun; [|done..].
  simplify_eq. apply run_languages_counts in Hlangs as [Hcap Hh]; [|done].
  unfold log_capped in Hcap. unfold handled in Hh.
  cbn [stats success skipped errors] in Hh.
  unfold summary.
  cbn [sum_details sum_errors sum_successful sum_skipped sum_languages sum_more].
  split; [done|]. split; [by rewrite Hh|].
  rewrite Hcap.
  destruct (decide (20 < errors (stats r1))) as [Hgt|Hle].
  - rewrite bool_decide_eq_true_2 by done.
    replace (errors (stats r1) `min` 20) with 20 by lia.
    rewrite (proj2 (Nat.ltb_lt 0 20)) by lia.
    by rewrite (proj2 (Nat.ltb_lt 20 _) Hgt).
  - rewrite bool_decide_eq_false_2 by done.
    replace (errors (stats r1) `min` 20) with (errors (stats r1)) by lia.
    rewrite Nat.ltb_irrefl. by rewrite andb_false_r.
Qed.

(** ** Refusing a manifest *)

(** X13: when the manifest has a language column, no row names a comp
    [hasOwnProperty], and some row names a comp the project does not
    have, the run is refused with the name of a missing comp, whatever
    the user would have answered, and the project is as it was: names are
    checked before anything is made. *)
Theorem missing_comp_is_refused (host : Host) (st : Project) (csvContent : string)
    (confirm : bool) (row : Row) :
  valid_sources st = true →
  detectLanguages (headers (parseCSV csvContent)) ≠ [] →
  Forall (λ row, js_str (row !! "comp_name") ≠ "hasOwnProperty")
    (rows (parseCSV csvContent)) →
  row ∈ rows (parseCSV csvContent) →
  findComp st (js_str (row !! "comp_name")) = None →
  ∃ n, main host st csvContent confirm = Some (st, CompNotFound n)
       ∧ findComp st n = None
       ∧ ∃ row', row' ∈ rows (parseCSV csvContent) ∧ js_str (row' !! "comp_name") = n.
Proof.
  intros Hvalid Hlangs Hrows Hrow Hmissing. unfold main, main_script.
  rewrite bool_decide_eq_false_2 by done.
  destruct (masterList_total _ Hrows) as [names Hlist]. rewrite Hlist.
  destruct (masterList_Some _ _ Hlist) as [_ Hin].
  destruct (find_masters_total st names Hvalid)
    as [[n|masters] Hfind]; rewrite Hfind; cbn [mbind option_bind].
  - apply find_masters_missing in Hfind as [Hn Hnone].
    exists n. split; [done|]. split; [done|]. by apply Hin.
  - exfalso. apply find_masters_lt in Hfind.
    assert (js_str (row !! "comp_name") ∈ names) as Hname by (apply Hin; by exists row).
    apply list_elem_of_lookup in Hname as [i Hi].
    destruct (Forall2_lookup_l _ _ _ _ _ Hfind Hi) as (m & _ & Hm). congruence.
Qed.

(** ** How many comps a run makes *)

(** X14: the confirmation dialog keeps its word. In an acyclic project
    whose comps have pairwise different names, none of them the name of a
    member that every script object inherits, a confirmed run over a
    manifest whose comps all exist returns, and leaves exactly as many new
    comps as the dialog announced with "Will create N comps total": for
    each master comp, itself and its sub-comps, once per language. *)
Theorem main_creates_totalNewComps (rank : nat → nat) (host : Host) (st : Project)
    (csvContent : string) (names : list string) (masters : list nat) :
  ranked rank st = true → NoDup (name <$> st) →
  Forall (λ comp, inherited (name comp) = false) st →
  detectLanguages (headers (parseCSV csvContent)) ≠ [] →
  masterList (rows (parseCSV csvContent)) = Some names →
  find_masters st names = Some (inr masters) →
  ∃ n st' s,
    totalNewComps st masters (length (detectLanguages (headers (parseCSV csvContent))))
    = Some n
    ∧ main host st csvContent true = Some (st', Complete s)
    ∧ length st' = length st + n.
Proof.
  intros Hr Hnames Hown Hlangs Hlist Hfind.
  destruct (main_complete rank host st csvContent names masters Hr Hnames Hown Hlangs
              Hlist Hfind) as (n & st' & s & Hn & Hrun & _ & Hlen).
  exists n, st', s. unfold main. by rewrite Hrun.
Qed.

(** X15: a run leaves a project fit for the next run. In an acyclic
    project whose comps have pairwise different names, none of them the
    name of a member that every script object inherits, every run over a
    manifest that names no comp [hasOwnProperty] returns, and the project
    it leaves is acyclic again, with the layers of the new comps holding
    new comps only; so whatever a later run over any manifest does, and
    however it ends, it keeps every comp of that project as it is. *)
Theorem main_keeps_project_acyclic (rank : nat → nat) (host : Host) (st : Project)
    (csvContent : string) (confirm : bool) :
  ranked rank st = true → NoDup (name <$> st) →
  Forall (λ comp, inherited (name comp) = false) st →
  Forall (λ row, js_str (row !! "comp_name") ≠ "hasOwnProperty")
    (rows (parseCSV csvContent)) →
  ∃ st' o rank',
    main host st csvContent confirm = Some (st', o)
    ∧ ranked rank' st' = true
    ∧ (∀ c d, length st ≤ c → child st' c d → length st ≤ d)
    ∧ (∀ host2 csvContent2 confirm2 c,
         main_script host2 st' csvContent2 confirm2 = Some c →
         st' `prefix_of` project_left c).
Proof.
  intros Hr Hnames Hown Hrows.
  destruct (main_total rank host st csvContent confirm Hr Hnames Hown Hrows)
    as (st' & o & Hrun & [Hg [rank' Hr']]).
  exists st', o, rank'. split; [unfold main; by rewrite Hrun|]. split; [done|]. split.
  - apply (grown_closed _ _ Hg).
  - intros host2 csvContent2 confirm2 c. by apply (main_frame rank').
Qed.

(** ** Runs that make nothing *)

(** X21: a run changes the project only when it ends with the summary.
    A run that ends in any other way leaves the project as it found it;
    a declined dialog never ends with the summary; and a refusal, for
    want of language columns or of a comp, falls whatever the host and
    the answer to the dialog. *)
Theorem main_changes_only_when_complete (host : Host) (st st' : Project)
    (csvContent : string) (confirm : bool) (o : Outcome) :
  main host st csvContent confirm = Some (st', o) →
  ((∀ s, o ≠ Complete s) → st' = st)
  ∧ (confirm = false → ∀ s, o ≠ Complete s)
  ∧ ((∀ s, o ≠ Complete s) → o ≠ Cancelled →
     ∀ host' confirm', main host' st csvContent confirm' = Some (st, o)).
Proof.
  unfold main, main_script. case_bool_decide as Hlangs; cbn [mbind option_bind].
  { intros. simplify_eq. split; [done|]. split; [done|]. by intros _ _ host' confirm'. }
  destruct (masterList _) as [names|]; cbn [mbind option_bind]; [|done].
  destruct (find_masters _ _) as [[missing|masters]|] eqn:Hfind; cbn [mbind option_bind];
    [| |done].
  { intros. simplify_eq. split; [done|]. split; [done|]. by intros _ _ host' confirm'. }
  destruct (layerCheck _ _); cbn [mbind option_bind]; [|done].
  destruct confirm; cbn [negb mbind option_bind].
  - destruct (run_languages _ _ _ _ _) as [[r|st1]|]; cbn [mbind option_bind]; [|done..].
    intros. simplify_eq. split; [intros Hno; by edestruct Hno|].
    split; [done|]. intros Hno. by edestruct Hno.
  - intros. by simplify_eq.
Qed.

End runs.

(** ** The properties on examples *)

Section examples.

(** The examples run on the engine [es3]. *)
#[local] Existing Instance es3.

(** C1: the claim fails on the code, in two ways, both on acyclic trees.
    [dupeMap] and [processed] are keyed by name and read without
    [hasOwnProperty]. Of two different sub-comps of one name only the
    first is copied, and the layer that held the second ends up holding
    the copy of the first; steps 3 to 5 alone, given both sub-comps in
    order, do no better. And a sub-comp called like a member that every
    object inherits counts as processed from the start: it is never
    sorted and never copied, the relink test finds the inherited member
    under its name, and [replaceSource] raises, leaving a copy of the
    master that still holds the original sub-comp. *)
Theorem duplicateFullTree_trips_on_names :
  (ranked (λ c, match c with 0 => 1 | _ => 0 end) namesakes = true
   ∧ discoverAllSubComps namesakes 0 = Some [1; 2]
   ∧ (∃ st' dupeMap,
        duplicateFullTree namesakes 0 "en" ["out"; "EN"] ["out"; "pre"]
        = Some (Returns (st', dupeMap))
        ∧ st' = namesakes
                ++ [ {| name := "Card_en"; parentFolder := ["out"; "pre"];
                        layers := [TextLayer "Headline" "A"] |};
                     {| name := "Main_en"; parentFolder := ["out"; "EN"];
                        layers := [AVLayer "left" (CompSource 3);
                                   AVLayer "right" (CompSource 3)] |} ]
        ∧ ¬ fully_relinked namesakes 0 [1; 2] "en" ["out"; "EN"] ["out"; "pre"] st' dupeMap)
   ∧ (∃ st' dupeMap,
        replicate namesakes 0 [1; 2] "en" ["out"; "EN"] ["out"; "pre"]
        = Returns (st', dupeMap)
        ∧ comp_layers st' 5 = [AVLayer "left" (CompSource 4); AVLayer "right" (CompSource 4)]
        ∧ ¬ fully_relinked namesakes 0 [1; 2] "en" ["out"; "EN"] ["out"; "pre"] st' dupeMap))
  ∧ (ranked (λ c, match c with 0 => 1 | _ => 0 end) shadowed = true
     ∧ discoverAllSubComps shadowed 0 = Some [1]
     ∧ topoSort shadowed [1] = []
     ∧ duplicateFullTree shadowed 0 "en" ["out"; "EN"] ["out"; "pre"]
       = Some (Raises (shadowed
                       ++ [ {| name := "Main_en"; parentFolder := ["out"; "EN"];
                               layers := [AVLayer "a" (CompSource 1)] |} ]))).
Proof.
  split.
  - split; [reflexivity|]. split; [reflexivity|]. split.
    + exists (namesakes
              ++ [ {| name := "Card_en"; parentFolder := ["out"; "pre"];
                      layers := [TextLayer "Headline" "A"] |};
                   {| name := "Main_en"; parentFolder := ["out"; "EN"];
                      layers := [AVLayer "left" (CompSource 3);
                                 AVLayer "right" (CompSource 3)] |} ]),
             {[ "Card" := 3; "Main" := 4 ]}.
      split; [vm_compute; reflexivity|]. split; [reflexivity|].
      intros Hfull. destruct (Hfull 2) as (d & copy & Hd & _ & Hcopy & _ & _ & Hlayers & _).
      { right. right. left. }
      vm_compute in Hd. injection Hd as <-. vm_compute in Hcopy. injection Hcopy as <-.
      vm_compute in Hlayers. inversion Hlayers as [|? ? ? ? Hl _]. discriminate Hl.
    + exists (namesakes
              ++ [ {| name := "Card_en"; parentFolder := ["out"; "pre"];
                      layers := [TextLayer "Headline" "A"] |};
                   {| name := "Card_en"; parentFolder := ["out"; "pre"];
                      layers := [TextLayer "Headline" "B"] |};
                   {| name := "Main_en"; parentFolder := ["out"; "EN"];
                      layers := [AVLayer "left" (CompSource 4);
                                 AVLayer "right" (CompSource 4)] |} ]),
             {[ "Card" := 4; "Main" := 5 ]}.
      split; [vm_compute; reflexivity|]. split; [reflexivity|].
      intros Hfull. destruct (Hfull 1) as (d & copy & Hd & _ & Hcopy & _ & _ & Hlayers & _).
      { right. left. }
      vm_compute in Hd. injection Hd as <-. vm_compute in Hcopy. injection Hcopy as <-.
      vm_compute in Hlayers. inversion Hlayers as [|? ? ? ? Hl _]. discriminate Hl.
  - split; [reflexivity|]. split; [reflexivity|]. split; [reflexivity|].
    vm_compute. reflexivity.
Qed.

(** C2 (as stated) fails: with A and B holding each other, neither is
    sorted, so neither is copied, and the copy of the master still holds
    the original A. The search for the row's layer starts in the copy of
    the master and ends in the original A, whose text is rewritten. *)
Lemma cyclic_original_is_rewritten :
  valid_sources mutual_text = true
  ∧ comp_layers mutual_text 1 = [TextLayer "Headline" "Hello"; AVLayer "b" (CompSource 2)]
  ∧ ∃ st' s,
      main any_file mutual_text hello_manifest true = Some (st', Complete s)
      ∧ comp_layers st' 1 = [TextLayer "Headline" "Hi"; AVLayer "b" (CompSource 2)]
      ∧ ¬ mutual_text `prefix_of` st'.
Proof.
  split; [reflexivity|]. split; [reflexivity|].
  assert (∃ st' s, main any_file mutual_text hello_manifest true = Some (st', Complete s)
                   ∧ comp_layers st' 1
                     = [TextLayer "Headline" "Hi"; AVLayer "b" (CompSource 2)])
    as (st' & s & Hrun & Hlayers).
  { vm_compute. eexists _, _. split; reflexivity. }
  exists st', s. split; [done|]. split; [done|]. clear Hrun.
  intros [k ->]. rewrite comp_layers_app in Hlayers by (cbn; lia).
  vm_compute in Hlayers. discriminate Hlayers.
Qed.

Lemma originals_untouched_witness :
  (∀ c, main_script any_file nested hello_manifest true = Some c →
        nested `prefix_of` project_left c)
  ∧ ∃ st' o, main any_file nested hello_manifest true = Some (st', o)
             ∧ nested `prefix_of` st'.
Proof.
  destruct (originals_untouched nested_rank any_file nested hello_manifest true)
    as [Hframe Hreturns]; [reflexivity|].
  split; [exact Hframe|]. apply Hreturns.
  - apply (bool_decide_unpack (NoDup (name <$> nested))). vm_compute. exact I.
  - apply (bool_decide_unpack (Forall (λ comp, inherited (name comp) = false) nested)).
    vm_compute. exact I.
  - apply (bool_decide_unpack
             (Forall (λ row : Row, js_str (row !! "comp_name") ≠ "hasOwnProperty")
                (rows (parseCSV hello_manifest)))).
    vm_compute. exact I.
Defined.

(** C3 (as stated) fails: with A and B holding each other, discovery
    returns both, the sort gives up with an empty order, and
    [duplicateFullTree] returns a map with the master's copy alone, whose
    layer still points at the original A. No error is raised. When the
    second of the two is called like an inherited member, the first is
    sorted although it contains itself, and the error that is raised is
    that of [replaceSource]. *)
Lemma cyclic_nesting_raises_nothing :
  (tc (child mutual) 1 1
   ∧ discoverAllSubComps mutual 0 = Some [1; 2]
   ∧ topoSort mutual [1; 2] = []
   ∧ duplicateFullTree mutual 0 "en" ["out"; "EN"] ["out"; "pre"]
     = Some (Returns (mutual ++ [ {| name := "Main_en"; parentFolder := ["out"; "EN"];
                                     layers := [AVLayer "a" (CompSource 1)] |} ],
                      {[ "Main" := 3 ]})))
  ∧ (tc (child mutual_shadowed) 1 1
     ∧ discoverAllSubComps mutual_shadowed 0 = Some [1; 2]
     ∧ topoSort mutual_shadowed [1; 2] = [1]
     ∧ duplicateFullTree mutual_shadowed 0 "en" ["out"; "EN"] ["out"; "pre"]
       = Some (Raises (mutual_shadowed
                       ++ [ {| name := "X_en"; parentFolder := ["out"; "pre"];
                               layers := [AVLayer "b" (CompSource 2)] |} ]))).
Proof.
  split.
  - split.
    { eapply tc_l; [|apply tc_once].
      - exists (AVLayer "b" (CompSource 2)). split; [left|done].
      - exists (AVLayer "a" (CompSource 1)). split; [left|done]. }
    split; [reflexivity|]. split; [reflexivity|]. vm_compute. reflexivity.
  - split.
    { eapply tc_l; [|apply tc_once].
      - exists (AVLayer "b" (CompSource 2)). split; [left|done].
      - exists (AVLayer "a" (CompSource 1)). split; [left|done]. }
    split; [reflexivity|]. split; [reflexivity|]. vm_compute. reflexivity.
Qed.

Lemma cyclic_nesting_is_left_out_witness :
  ∃ allSubComps,
    discoverAllSubComps mutual 0 = Some allSubComps
    ∧ NoDup allSubComps
    ∧ (∀ x d, x ∈ 0 :: allSubComps → child mutual x d → d ∈ allSubComps)
    ∧ is_Some (duplicateFullTree mutual 0 "en" ["out"; "EN"] ["out"; "pre"])
    ∧ (0 < length mutual →
       Forall (λ x, inherited (comp_name mutual x) = false) allSubComps →
       ∃ st' dupeMap,
         duplicateFullTree mutual 0 "en" ["out"; "EN"] ["out"; "pre"]
         = Some (Returns (st', dupeMap)))
    ∧ (NoDup (comp_name mutual <$> allSubComps) →
       Forall (λ x, inherited (comp_name mutual x) = false) allSubComps →
       ∀ x, x ∈ allSubComps → tc (child mutual) x x → x ∉ topoSort mutual allSubComps).
Proof.
  apply (cyclic_nesting_is_left_out mutual 0 "en" ["out"; "EN"] ["out"; "pre"]).
  reflexivity.
Defined.



Lemma detectLanguages_exact_witness :
  main {| fileExists := λ _, true; importFile := λ _, true |} []
       "comp_name,layer_name,type" true
  = Some ([], NoLanguageColumns).
Proof.
  apply (detectLanguages_exact _ [] "comp_name,layer_name,type" true []).
  reflexivity.
Defined.

Lemma error_log_capped_witness :
  let r := {| project := with_logo;
              stats := {| success := 0; skipped := 0; errors := 0 |};
              errorLog := [] |} in
  let row : Row := {[ "comp_name" := "Main"; "layer_name" := "Logo";
                      "type" := "text"; "en" := "Hi" ]} in
  (substitution any_file {[ "Main" := 0 ]} with_logo row "Hi" = None
   ∧ ∃ r', apply_row any_file "en" {[ "Main" := 0 ]} r row = Some r'
           ∧ project r' = with_logo
           ∧ success (stats r') = 0 ∧ skipped (stats r') = 0 ∧ errors (stats r') = 1
           ∧ ∃ msg, errorLog r' = [msg])
  ∧ ∃ st' s,
      main any_file nested misses_manifest true = Some (st', Complete s)
      ∧ sum_errors s = 22
      ∧ length (sum_details s) = sum_errors s `min` 20
      ∧ sum_successful s + sum_skipped s + sum_errors s
        = sum_languages s * length (rows (parseCSV misses_manifest))
      ∧ sum_more s = if bool_decide (20 < sum_errors s)
                     then Some (sum_errors s - 20) else None.
Proof.
  intros r row.
  assert (∃ st' s, main any_file nested misses_manifest true = Some (st', Complete s)
                   ∧ sum_errors s = 22) as (st' & s & Hrun & Herr).
  { vm_compute. eexists _, _. split; reflexivity. }
  assert (substitution any_file {[ "Main" := 0 ]} with_logo row "Hi" = None) as Hsub
    by reflexivity.
  assert (row !! "en" = Some "Hi") as Hvalue by reflexivity.
  assert ("Hi" ≠ "") as Hne by discriminate.
  split.
  - split; [exact Hsub|].
    destruct (apply_row any_file "en" {[ "Main" := 0 ]} r row) as [r'|] eqn:Happly;
      [|by vm_compute in Happly].
    exists r'. split; [done|].
    pose proof (proj1 (error_log_capped any_file "en" {[ "Main" := 0 ]} r r' row "Hi"
                         nested st' misses_manifest true s) Hvalue Hne Happly) as Hrow.
    cbn [project r] in Hrow. rewrite Hsub in Hrow. exact Hrow.
  - exists st', s. split; [done|]. split; [done|].
    exact (proj2 (error_log_capped any_file "en" ∅ r r row "" nested st' misses_manifest
                    true s) Hrun).
Defined.

Lemma masterList_distinct_names_witness :
  let rows := rows (parseCSV ("comp_name,en" +:+ String LF "A,x" +:+ String LF "B,y"
                              +:+ String LF "A,z")) in
  @masterList es3_backwards rows = Some ["B"; "A"]
  ∧ NoDup ["B"; "A"]
  ∧ ∀ n, n ∈ ["B"; "A"] ↔ ∃ row, row ∈ rows ∧ js_str (row !! "comp_name") = n.
Proof.
  intros rows.
  assert (@masterList es3_backwards rows = Some ["B"; "A"]) as Hlist
    by (vm_compute; reflexivity).
  split; [exact Hlist|].
  exact (proj2 (@masterList_distinct_names es3_backwards rows) ["B"; "A"] Hlist).
Defined.

Lemma dupeMap_names_new_copies_witness :
  ∃ st' dupeMap,
    duplicateFullTree namesakes 0 "en" ["out"; "EN"] ["out"; "pre"]
    = Some (Returns (st', dupeMap))
    ∧ length st' = length namesakes + length (topoSort namesakes [1; 2]) + 1
    ∧ dupeMap !! comp_name namesakes 0 = Some (length st' - 1)
    ∧ ∀ key d, dupeMap !! key = Some d →
        length namesakes ≤ d < length st' ∧ comp_name st' d = key +:+ "_" +:+ "en".
Proof.
  destruct (duplicateFullTree namesakes 0 "en" ["out"; "EN"] ["out"; "pre"])
    as [[[st' dupeMap]|st']|] eqn:Hrun; [|by vm_compute in Hrun..].
  exists st', dupeMap. split; [done|].
  apply (dupeMap_names_new_copies namesakes st' 0 "en" ["out"; "EN"] ["out"; "pre"]
           dupeMap [1; 2]); [cbn; lia|reflexivity|exact Hrun].
Defined.

Lemma missing_comp_is_refused_witness :
  ∃ n, main any_file (drop 1 two_headlines) hello_manifest false
       = Some (drop 1 two_headlines, CompNotFound n)
       ∧ findComp (drop 1 two_headlines) n = None
       ∧ ∃ row', row' ∈ rows (parseCSV hello_manifest) ∧ js_str (row' !! "comp_name") = n.
Proof.
  apply (missing_comp_is_refused any_file (drop 1 two_headlines) hello_manifest false
           (default ∅ (head (rows (parseCSV hello_manifest))))).
  - reflexivity.
  - vm_compute. discriminate.
  - apply (bool_decide_unpack
             (Forall (λ row : Row, js_str (row !! "comp_name") ≠ "hasOwnProperty")
                (rows (parseCSV hello_manifest)))).
    vm_compute. exact I.
  - assert (rows (parseCSV hello_manifest) = [default ∅ (head (rows (parseCSV hello_manifest)))])
      as -> by (vm_compute; reflexivity). left.
  - reflexivity.
Defined.

Lemma main_creates_totalNewComps_witness :
  ∃ n st' s,
    totalNewComps nested [0] (length (detectLanguages (headers (parseCSV hello_manifest))))
    = Some n
    ∧ main any_file nested hello_manifest true = Some (st', Complete s)
    ∧ length st' = length nested + n.
Proof.
  apply (main_creates_totalNewComps nested_rank any_file nested hello_manifest ["Main"] [0]).
  - reflexivity.
  - apply (bool_decide_unpack (NoDup (name <$> nested))). vm_compute. exact I.
  - apply (bool_decide_unpack (Forall (λ comp, inherited (name comp) = false) nested)).
    vm_compute. exact I.
  - vm_compute. discriminate.
  - vm_compute. reflexivity.
  - vm_compute. reflexivity.
Defined.

Lemma main_keeps_project_acyclic_witness :
  ∃ st' o rank',
    main any_file nested hello_manifest true = Some (st', o)
    ∧ ranked rank' st' = true
    ∧ (∀ c d, length nested ≤ c → child st' c d → length nested ≤ d)
    ∧ (∀ host2 csvContent2 confirm2 c,
         main_script host2 st' csvContent2 confirm2 = Some c →
         st' `prefix_of` project_left c).
Proof.
  apply (main_keeps_project_acyclic nested_rank any_file nested hello_manifest true).
  - reflexivity.
  - apply (bool_decide_unpack (NoDup (name <$> nested))). vm_compute. exact I.
  - apply (bool_decide_unpack (Forall (λ comp, inherited (name comp) = false) nested)).
    vm_compute. exact I.
  - apply (bool_decide_unpack
             (Forall (λ row : Row, js_str (row !! "comp_name") ≠ "hasOwnProperty")
                (rows (parseCSV hello_manifest)))).
    vm_compute. exact I.
Defined.

Lemma copies_are_filed_witness :
  ∃ st' dupeMap allSubComps copies master,
    duplicateFullTree nested 0 "en" ["out"; "EN"] ["out"; "pre"]
    = Some (Returns (st', dupeMap))
    ∧ discoverAllSubComps nested 0 = Some allSubComps
    ∧ st' = nested ++ copies ++ [master]
    ∧ Forall2 (filed nested "en" ["out"; "pre"]) (topoSort nested allSubComps) copies
    ∧ filed nested "en" ["out"; "EN"] 0 master.
Proof.
  destruct (duplicateFullTree nested 0 "en" ["out"; "EN"] ["out"; "pre"])
    as [[[st' dupeMap]|st']|] eqn:Hrun; [|by vm_compute in Hrun..].
  exists st', dupeMap.
  destruct (copies_are_filed nested st' 0 "en" ["out"; "EN"] ["out"; "pre"] dupeMap)
    as (all & copies & master & H); [reflexivity|cbn; lia|exact Hrun|].
  by exists all, copies, master.
Defined.

Lemma main_changes_only_when_complete_witness :
  let st := drop 1 two_headlines in
  ((∀ s, CompNotFound "Main" ≠ Complete s) → st = st)
  ∧ (false = false → ∀ s, CompNotFound "Main" ≠ Complete s)
  ∧ ((∀ s, CompNotFound "Main" ≠ Complete s) → CompNotFound "Main" ≠ Cancelled →
     ∀ host' confirm',
       main host' st hello_manifest confirm' = Some (st, CompNotFound "Main")).
Proof.
  intros st.
  apply (main_changes_only_when_complete any_file st st hello_manifest false
           (CompNotFound "Main")).
  reflexivity.
Defined.

Lemma search_commutes_with_duplication_witness :
  ∃ st' dupeMap dupeMaster found,
    duplicateFullTree nested 0 "en" ["out"; "EN"] ["out"; "pre"]
    = Some (Returns (st', dupeMap))
    ∧ dupeMap !! comp_name nested 0 = Some dupeMaster
    ∧ findLayerDeep nested 0 (Some "Headline") = Some found
    ∧ findLayerDeep st' dupeMaster (Some "Headline") = Some (copied_place nested dupeMap found)
    ∧ (is_Some found → is_Some (copied_place nested dupeMap found)).
Proof.
  destruct (discoverAllSubComps nested 0) as [all|] eqn:Hall; [|by vm_compute in Hall].
  apply (search_commutes_with_duplication nested_rank nested 0 all "en" ["out"; "EN"]
           ["out"; "pre"] (Some "Headline")); [reflexivity|cbn; lia|exact Hall| |].
  - vm_compute in Hall. simplify_eq.
    apply (bool_decide_unpack (NoDup (comp_name nested <$> [0; 1; 2; 3]))). vm_compute. exact I.
  - vm_compute in Hall. simplify_eq.
    apply (bool_decide_unpack
             (Forall (λ x, inherited (comp_name nested x) = false) [0; 1; 2; 3])).
    vm_compute. exact I.
Defined.

Lemma duplicateFullTree_relinks_witness :
  ∃ st' dupeMap,
    duplicateFullTree nested 0 "en" ["out"; "EN"] ["out"; "pre"]
    = Some (Returns (st', dupeMap))
    ∧ nested `prefix_of` st'
    ∧ fully_relinked nested 0 [1; 2; 3] "en" ["out"; "EN"] ["out"; "pre"] st' dupeMap.
Proof.
  apply (duplicateFullTree_relinks nested_rank).
  - reflexivity.
  - cbn. lia.
  - reflexivity.
  - apply (bool_decide_unpack (NoDup (comp_name nested <$> [0; 1; 2; 3]))).
    vm_compute. exact I.
  - apply (bool_decide_unpack
             (Forall (λ x, inherited (comp_name nested x) = false) [0; 1; 2; 3])).
    vm_compute. exact I.
Defined.

End examples.
